(** * bellhopcuda: arrival accumulation, ray initialisation and termination,
      job decoding

    A shallow embedding of [src/arrivals.hpp], [src/trace.hpp] and
    [src/main.hpp], and the properties of these functions that the
    specification states; then of the worker loop of
    [src/runfieldmodesimpl.cpp], the beam box of [src/beams.hpp], the readers
    of [src/sourcereceiver.hpp] and the record file of
    [src/util/unformattedio.hpp], with the properties that their code shows.

    Conventions of the embedding:
    - an [int32_t] is a [Z]; arithmetic that can leave the range goes through
      [Int32.wrap];
    - [real] (a build-time choice between [float] and [double]) and the C++
      [float] are the two carrier types of the class [RealOps]; every
      arithmetic operation and comparison of the source is one operation of
      that class, so a statement proved for all instances holds for IEEE-754
      arithmetic ([IEEE.ops]), in which the examples are computed;
    - a heap array that the code writes ([Arr], [NArr]) is a [list]; a load or
      a store outside the array is a fault, the [None] of the [option] monad;
    - a read-only input table ([Pos->Sz], [bdinfo->top.bd], ...) is a function
      of its index;
    - a call of a function whose body is in a header that is not part of the
      sources at hand ([GetFieldAddr], [EvaluateSSP], [GetBdrySeg], ...) is a
      call of a section variable. *)

From Stdlib Require Import ZArith QArith Lia Bool Floats.SpecFloat.
From Stdlib Require Import Strings.Ascii Strings.String Strings.Byte.
From stdpp Require Import base option list relations.

Local Open Scope Z_scope.

(** ** Machine integers *)

Module Int32.
Definition min_signed : Z := - 2 ^ 31.
Definition max_signed : Z := 2 ^ 31 - 1.
Definition in_range (z : Z) : Prop := min_signed <= z <= max_signed.
(** Two's complement reduction into the 32-bit signed range. *)
Definition wrap (z : Z) : Z := (z + 2 ^ 31) mod 2 ^ 32 - 2 ^ 31.
Definition add (x y : Z) : Z := wrap (x + y).
Definition sub (x y : Z) : Z := wrap (x - y).
Definition mul (x y : Z) : Z := wrap (x * y).
End Int32.

Module SizeT.
(** [size_t] of the 64-bit targets the program is built for. *)
Definition wrap (z : Z) : Z := z mod 2 ^ 64.
Definition mul (x y : Z) : Z := wrap (x * y).
End SizeT.

(** ** Arrays in memory *)

Definition load {A : Type} (mem : list A) (i : Z) : option A :=
  if decide (0 <= i) then mem !! Z.to_nat i else None.

Definition store {A : Type} (mem : list A) (i : Z) (v : A) : option (list A) :=
  if decide (0 <= i) then
    if decide (Z.to_nat i < length mem)%nat then Some (<[Z.to_nat i := v]> mem)
    else None
  else None.

(** ** Text written to the print file and to standard output

    One stream insertion or one [printf] conversion is one item. *)

Inductive PrintItem : Type :=
  | Str (s : string)
  | Int (z : Z).

Definition PrintFileEmu : Type := list PrintItem.

(** ** The numeric interface of [common.hpp]

    [r_lit q] is the literal [FL(q)] / [RL(q)], the decimal constant [q] in the
    type [real]. The comparisons return [bool] as the C++ operators do. *)

Class RealOps : Type := {
  real : Type;
  float : Type;
  r_lit : Q -> real;
  r_add : real -> real -> real;
  r_sub : real -> real -> real;
  r_mul : real -> real -> real;
  r_div : real -> real -> real;
  r_neg : real -> real;
  r_abs : real -> real;
  r_ltb : real -> real -> bool;
  r_leb : real -> real -> bool;
  r_to_int : real -> Z;
  f_zero : float;
  f_add : float -> float -> float;
  f_mul : float -> float -> float;
  f_div : float -> float -> float;
  f_of_r : real -> float;
  r_of_f : float -> real
}.

(** The functions of the C++ mathematical library, whose results the language
    standard does not fix to the last bit, and the constants of [common.hpp]:
    [STD::sqrt], [STD::sin], [STD::cos] on [real], and [STD::abs] on
    [std::complex<real>]. *)

Class LibM `{RealOps} : Type := {
  m_sqrt : real -> real;
  m_sin : real -> real;
  m_cos : real -> real;
  REAL_PI : real;
  RadDeg : real
}.

Class CpxAbs `{RealOps} : Type := {
  m_cabs : real * real -> real
}.

(** The facts about the comparisons that the proofs of the ordering
    properties use. IEEE-754 comparison satisfies all of them, NaN included. *)

Class RealLaws `{RealOps} : Prop := {
  r_ltb_irrefl : forall x, r_ltb x x = false;
  r_ltb_trans : forall x y z, r_ltb x y = true -> r_ltb y z = true -> r_ltb x z = true;
  r_ltb_not_leb : forall x y, r_ltb x y = true -> r_leb y x = false;
  r_leb_not_ltb : forall x y, r_leb x y = true -> r_ltb y x = false;
  r_leb_ltb_trans : forall x y z, r_leb x y = true -> r_ltb y z = true -> r_ltb x z = true
}.

Section Complex.
Context `{RealOps}.

(** [cpx] is [std::complex<real>], [cpxf] is [std::complex<float>]. *)
Definition cpx : Type := real * real.
Definition cpxf : Type := float * float.

Definition cpx_sub (u v : cpx) : cpx := (r_sub u.1 v.1, r_sub u.2 v.2).
Definition Cpx2Cpxf (u : cpx) : cpxf := (f_of_r u.1, f_of_r u.2).
Definition Cpxf2Cpx (u : cpxf) : cpx := (r_of_f u.1, r_of_f u.2).
(** [w * z] for a [float] [w] and a [std::complex<float>] [z]. *)
Definition cpxf_scale (w : float) (u : cpxf) : cpxf := (f_mul w u.1, f_mul w u.2).
Definition cpxf_add (u v : cpxf) : cpxf := (f_add u.1 v.1, f_add u.2 v.2).

End Complex.

(** ** Vectors: [vec2], [vec3] and [VEC23<D>] *)

Section Vectors.
Context `{RealOps}.

Record vec2 : Type := mkvec2 { x2 : real; y2 : real }.
Record vec3 : Type := mkvec3 { x3 : real; y3 : real; z3 : real }.

Definition VEC23 (D : bool) : Type := if D then vec3 else vec2.

Definition dot2 (u v : vec2) : real :=
  r_add (r_mul (x2 u) (x2 v)) (r_mul (y2 u) (y2 v)).
Definition dot3 (u v : vec3) : real :=
  r_add (r_add (r_mul (x3 u) (x3 v)) (r_mul (y3 u) (y3 v))) (r_mul (z3 u) (z3 v)).
Definition sub2 (u v : vec2) : vec2 :=
  mkvec2 (r_sub (x2 u) (x2 v)) (r_sub (y2 u) (y2 v)).
Definition sub3 (u v : vec3) : vec3 :=
  mkvec3 (r_sub (x3 u) (x3 v)) (r_sub (y3 u) (y3 v)) (r_sub (z3 u) (z3 v)).
Definition div2 (u : vec2) (s : real) : vec2 :=
  mkvec2 (r_div (x2 u) s) (r_div (y2 u) s).
Definition div3 (u : vec3) (s : real) : vec3 :=
  mkvec3 (r_div (x3 u) s) (r_div (y3 u) s) (r_div (z3 u) s).

Definition dot (D : bool) : VEC23 D -> VEC23 D -> real :=
  match D with true => dot3 | false => dot2 end.
Definition vsub (D : bool) : VEC23 D -> VEC23 D -> VEC23 D :=
  match D with true => sub3 | false => sub2 end.
Definition vdiv (D : bool) : VEC23 D -> real -> VEC23 D :=
  match D with true => div3 | false => div2 end.
(** The [.x] member. *)
Definition vx (D : bool) : VEC23 D -> real :=
  match D with true => x3 | false => x2 end.
(** [DEP(v)], the depth coordinate: [.z] in 3D, [.y] in 2D. *)
Definition DEP (D : bool) : VEC23 D -> real :=
  match D with true => z3 | false => y2 end.

End Vectors.

(** ** Structures shared by the three headers *)

Module Common.
Section Structs.
Context `{RealOps}.

(** [RayInitInfo]: the job, and what [RayInit] resolves for it. *)
Record RayInitInfo (O3D : bool) : Type := mkRayInitInfo {
  isx : Z; isy : Z; isz : Z;
  ialpha : Z; ibeta : Z;
  xs : VEC23 O3D;
  SrcDeclAngle : real;
  SrcAzimAngle : real
}.

(** [Position]: source and receiver tables. *)
Record Position : Type := mkPosition {
  NSx : Z; NSy : Z; NSz : Z;
  NRz_per_range : Z; NRr : Z; Ntheta : Z;
  Sx : Z -> real; Sy : Z -> real; Sz : Z -> real;
  Rr : Z -> real
}.

(** [AnglesStructure]: launch angle tables. *)
Record AnglesStructure : Type := mkAngles {
  Nalpha : Z; Nbeta : Z;
  iSingle_alpha : Z;
  alpha : Z -> real; beta : Z -> real
}.

End Structs.
Arguments isx {_ _}.
Arguments isy {_ _}.
Arguments isz {_ _}.
Arguments ialpha {_ _}.
Arguments ibeta {_ _}.
Arguments xs {_ _}.
Arguments SrcDeclAngle {_ _}.
Arguments SrcAzimAngle {_ _}.
End Common.

(** ** [arrivals.hpp] *)

Module Arrivals.
Section Arrivals.
Context `{RealOps} `{!CpxAbs}.

(** One stored arrival; the amplitude [a], the phase and the angles are C++
    [float]s, the delay is a [std::complex<float>]. *)
Record Arrival : Type := mkArrival {
  a : float;
  Phase : float;
  delay : cpxf;
  SrcDeclAngle : float;
  SrcAzimAngle : float;
  RcvrDeclAngle : float;
  RcvrAzimAngle : float;
  NTopBnc : Z;
  NBotBnc : Z
}.

(** What [memset(..., 0, ...)] leaves in a record. *)
Definition Arrival_zero : Arrival :=
  mkArrival f_zero f_zero (f_zero, f_zero) f_zero f_zero f_zero f_zero 0 0.

Record ArrInfo : Type := mkArrInfo {
  Arr : list Arrival;
  NArr : list Z;
  MaxNArr : Z;
  AllowMerging : bool;
  ArrMemSize : Z
}.

(** [GetFieldAddr] (the flat index of a cell) and [sizeof(Arrival)] are
    declared outside the sources at hand. *)
Variable GetFieldAddr : Z -> Z -> Z -> Z -> Z -> Z -> Common.Position -> Z.
Variable sizeof_Arrival : Z.

(** [const float PhaseTol = FL(0.05)]. *)
Definition PhaseTol : float := f_of_r (r_lit (5 # 100)).

(** [baseArr] is the offset of the cell's first record in [Arr]; the record
    [baseArr[Nt - 1]] is read only when [Nt >= 1] holds, as [&&] evaluates. *)
Definition IsSecondStepOfPair (omega Phase_ : real) (delay_ : cpx)
    (Arr_ : list Arrival) (baseArr Nt : Z) : option bool :=
  if negb (1 <=? Nt) then Some false
  else
    last ← load Arr_ (baseArr + (Nt - 1));
    Some (r_ltb (r_mul omega (m_cabs (cpx_sub delay_ (Cpxf2Cpx (delay last)))))
                (r_of_f PhaseTol)
          && r_ltb (r_abs (r_sub (r_of_f (Phase last)) Phase_)) (r_of_f PhaseTol)).

(** The loop [for(Nt = 0; Nt < MaxNArr; ++Nt)] that looks for the weakest
    stored arrival: [n] iterations remain, [Nt] is the loop variable, and the
    pair is [(weakest, iArr)]. *)
Fixpoint weakest_scan (Arr_ : list Arrival) (baseArr : Z) (n : nat) (Nt : Z)
    (st : real * Z) : option (real * Z) :=
  match n with
  | O => Some st
  | S n' =>
      cur ← load Arr_ (baseArr + Nt);
      weakest_scan Arr_ baseArr n' (Nt + 1)
        (if r_ltb (r_of_f (a cur)) st.1 then (r_of_f (a cur), Nt) else st)
  end.

(** The record that the append, replace and atomic-append paths write. *)
Definition new_arrival {O3D : bool} (Amp Phase_ : real) (delay_ : cpx)
    (rinit : Common.RayInitInfo O3D) (RcvrDeclAngle_ RcvrAzimAngle_ : real)
    (NumTopBnc NumBotBnc : Z) : Arrival :=
  mkArrival (f_of_r Amp) (f_of_r Phase_) (Cpx2Cpxf delay_)
            (f_of_r (Common.SrcDeclAngle rinit)) (f_of_r (Common.SrcAzimAngle rinit))
            (f_of_r RcvrDeclAngle_) (f_of_r RcvrAzimAngle_)
            NumTopBnc NumBotBnc.

(** The record that the merge path leaves in slot [Nt - 1]: phase and bounce
    counts are kept, the rest is the weighted sum. *)
Definition merged_arrival {O3D : bool} (old : Arrival) (Amp : real) (delay_ : cpx)
    (rinit : Common.RayInitInfo O3D) (RcvrDeclAngle_ RcvrAzimAngle_ : real) : Arrival :=
  let AmpTot := f_add (a old) (f_of_r Amp) in
  let w1 := f_div (a old) AmpTot in
  let w2 := f_div (f_of_r Amp) AmpTot in
  mkArrival
    AmpTot
    (Phase old)
    (cpxf_add (cpxf_scale w1 (delay old)) (cpxf_scale w2 (Cpx2Cpxf delay_)))
    (f_add (f_mul w1 (SrcDeclAngle old)) (f_mul w2 (f_of_r (Common.SrcDeclAngle rinit))))
    (f_add (f_mul w1 (SrcAzimAngle old)) (f_mul w2 (f_of_r (Common.SrcAzimAngle rinit))))
    (f_add (f_mul w1 (RcvrDeclAngle old)) (f_mul w2 (f_of_r RcvrDeclAngle_)))
    (f_add (f_mul w1 (RcvrAzimAngle old)) (f_mul w2 (f_of_r RcvrAzimAngle_)))
    (NTopBnc old)
    (NBotBnc old).

Definition set_Arr (arrinfo : ArrInfo) (Arr_ : list Arrival) : ArrInfo :=
  mkArrInfo Arr_ (NArr arrinfo) (MaxNArr arrinfo) (AllowMerging arrinfo) (ArrMemSize arrinfo).
Definition set_NArr (arrinfo : ArrInfo) (NArr_ : list Z) : ArrInfo :=
  mkArrInfo (Arr arrinfo) NArr_ (MaxNArr arrinfo) (AllowMerging arrinfo) (ArrMemSize arrinfo).

(** The merge-enabled branch of [AddArr], for the cell [base]. *)
Definition AddArr_merging {O3D : bool} (base : Z) (Amp omega Phase_ : real) (delay_ : cpx)
    (rinit : Common.RayInitInfo O3D) (RcvrDeclAngle_ RcvrAzimAngle_ : real)
    (NumTopBnc NumBotBnc : Z) (arrinfo : ArrInfo) : option ArrInfo :=
  let baseArr := base * MaxNArr arrinfo in
  Nt ← load (NArr arrinfo) base;
  pair ← IsSecondStepOfPair omega Phase_ delay_ (Arr arrinfo) baseArr Nt;
  if negb pair then
    let rec := new_arrival Amp Phase_ delay_ rinit RcvrDeclAngle_ RcvrAzimAngle_
                 NumTopBnc NumBotBnc in
    if MaxNArr arrinfo <=? Nt then
      found ← weakest_scan (Arr arrinfo) baseArr (Z.to_nat (MaxNArr arrinfo)) 0 (Amp, -1);
      if found.2 <? 0 then Some arrinfo
      else
        Arr' ← store (Arr arrinfo) (baseArr + found.2) rec;
        Some (set_Arr arrinfo Arr')
    else
      NArr' ← store (NArr arrinfo) base (Int32.add Nt 1);
      Arr' ← store (Arr arrinfo) (baseArr + Nt) rec;
      Some (set_Arr (set_NArr arrinfo NArr') Arr')
  else
    old ← load (Arr arrinfo) (baseArr + (Nt - 1));
    Arr' ← store (Arr arrinfo) (baseArr + (Nt - 1))
             (merged_arrival old Amp delay_ rinit RcvrDeclAngle_ RcvrAzimAngle_);
    Some (set_Arr arrinfo Arr').

(** The merge-disabled branch: [AtomicFetchAdd(baseNArr, 1)] returns the old
    count and leaves the count incremented, whatever happens next. *)
Definition AddArr_atomic {O3D : bool} (base : Z) (Amp Phase_ : real) (delay_ : cpx)
    (rinit : Common.RayInitInfo O3D) (RcvrDeclAngle_ RcvrAzimAngle_ : real)
    (NumTopBnc NumBotBnc : Z) (arrinfo : ArrInfo) : option ArrInfo :=
  let baseArr := base * MaxNArr arrinfo in
  Nt ← load (NArr arrinfo) base;
  NArr' ← store (NArr arrinfo) base (Int32.add Nt 1);
  let arrinfo' := set_NArr arrinfo NArr' in
  if MaxNArr arrinfo <=? Nt then Some arrinfo'
  else
    Arr' ← store (Arr arrinfo) (baseArr + Nt)
             (new_arrival Amp Phase_ delay_ rinit RcvrDeclAngle_ RcvrAzimAngle_
                NumTopBnc NumBotBnc);
    Some (set_Arr arrinfo' Arr').

Definition AddArr {O3D : bool} (itheta id ir : Z) (Amp omega Phase_ : real) (delay_ : cpx)
    (rinit : Common.RayInitInfo O3D) (RcvrDeclAngle_ RcvrAzimAngle_ : real)
    (NumTopBnc NumBotBnc : Z) (arrinfo : ArrInfo) (Pos : Common.Position)
    : option ArrInfo :=
  let base := GetFieldAddr (Common.isx rinit) (Common.isy rinit) (Common.isz rinit)
                itheta id ir Pos in
  if AllowMerging arrinfo then
    AddArr_merging base Amp omega Phase_ delay_ rinit RcvrDeclAngle_ RcvrAzimAngle_
      NumTopBnc NumBotBnc arrinfo
  else
    AddArr_atomic base Amp Phase_ delay_ rinit RcvrDeclAngle_ RcvrAzimAngle_
      NumTopBnc NumBotBnc arrinfo.

(** [nSrcsRcvrs] of [InitArrivalsMode]: a product of [int32_t]s converted to
    [size_t], multiplied in 3D by a second such product. *)
Definition nSrcsRcvrs (ThreeD : bool) (Pos : Common.Position) : Z :=
  let n := SizeT.wrap (Int32.mul (Int32.mul (Common.NRz_per_range Pos) (Common.NRr Pos))
                                 (Common.NSz Pos)) in
  if ThreeD then
    SizeT.mul n (SizeT.wrap (Int32.mul (Int32.mul (Common.Ntheta Pos) (Common.NSx Pos))
                                       (Common.NSy Pos)))
  else n.

(** [InitArrivalsMode]: the division faults when there is no cell; the
    quotient is narrowed to the [int32_t] field [MaxNArr] and widened again to
    [size_t] for the two allocations. *)
Definition InitArrivalsMode (arrinfo : ArrInfo) (maxThreads : Z) (ThreeD : bool)
    (Pos : Common.Position) (PRTFile : PrintFileEmu) : option (ArrInfo * PrintFileEmu) :=
  let n := nSrcsRcvrs ThreeD Pos in
  let d := SizeT.mul n sizeof_Arrival in
  if d =? 0 then None
  else
    let MaxNArr_ := Int32.wrap (ArrMemSize arrinfo / d) in
    Some (mkArrInfo
            (replicate (Z.to_nat (SizeT.mul n (SizeT.wrap MaxNArr_))) Arrival_zero)
            (replicate (Z.to_nat n) 0)
            MaxNArr_
            (maxThreads =? 1)
            (ArrMemSize arrinfo),
          PRTFile ++ [Str "\n( Maximum # of arrivals = "; Int MaxNArr_; Str " )\n"]).

(** A call of [AddArr], as the influence functions issue them. *)
Record AddArrCall (O3D : bool) : Type := mkCall {
  c_itheta : Z; c_id : Z; c_ir : Z;
  c_Amp : real; c_omega : real; c_Phase : real; c_delay : cpx;
  c_rinit : Common.RayInitInfo O3D;
  c_RcvrDeclAngle : real; c_RcvrAzimAngle : real;
  c_NumTopBnc : Z; c_NumBotBnc : Z
}.

Definition call_base {O3D : bool} (Pos : Common.Position) (c : AddArrCall O3D) : Z :=
  GetFieldAddr (Common.isx (c_rinit O3D c)) (Common.isy (c_rinit O3D c))
    (Common.isz (c_rinit O3D c)) (c_itheta O3D c) (c_id O3D c) (c_ir O3D c) Pos.

Definition run_call {O3D : bool} (Pos : Common.Position) (arrinfo : ArrInfo)
    (c : AddArrCall O3D) : option ArrInfo :=
  AddArr (c_itheta O3D c) (c_id O3D c) (c_ir O3D c) (c_Amp O3D c) (c_omega O3D c)
    (c_Phase O3D c) (c_delay O3D c) (c_rinit O3D c) (c_RcvrDeclAngle O3D c)
    (c_RcvrAzimAngle O3D c) (c_NumTopBnc O3D c) (c_NumBotBnc O3D c) arrinfo Pos.

(** A sequence of calls, one after the other; a fault ends the run. *)
Fixpoint run_calls {O3D : bool} (Pos : Common.Position) (arrinfo : ArrInfo)
    (cs : list (AddArrCall O3D)) : option ArrInfo :=
  match cs with
  | [] => Some arrinfo
  | c :: cs' => arrinfo' ← run_call Pos arrinfo c; run_calls Pos arrinfo' cs'
  end.

(** The merge-disabled branch run by several workers at once. A call first
    reserves the index [Nt] with [AtomicFetchAdd] and then, if [Nt] is below
    [MaxNArr], writes its record into [baseArr[Nt]]; steps of the calls of
    other workers may come in between. [pending] holds the calls that have
    reserved a slot and not yet written it, [written] those that have. The
    nine field writes of one call are one step. *)
Record Reserved : Type := mkReserved {
  r_base : Z;
  r_Nt : Z;
  r_rec : Arrival
}.

Record Shared : Type := mkShared {
  table : ArrInfo;
  pending : list Reserved;
  written : list Reserved
}.

(** The index of [baseArr[Nt]] in [Arr]. *)
Definition r_slot (arrinfo : ArrInfo) (r : Reserved) : Z :=
  r_base r * MaxNArr arrinfo + r_Nt r.

Inductive atomic_step : Shared -> Shared -> Prop :=
  | fetch_add (s : Shared) (base Nt : Z) (NArr' : list Z) (rec : Arrival) :
      load (NArr (table s)) base = Some Nt ->
      store (NArr (table s)) base (Int32.add Nt 1) = Some NArr' ->
      atomic_step s
        (mkShared (set_NArr (table s) NArr')
           (if MaxNArr (table s) <=? Nt then pending s
            else pending s ++ [mkReserved base Nt rec])
           (written s))
  | write_record (s : Shared) (before after : list Reserved) (r : Reserved)
      (Arr' : list Arrival) :
      pending s = before ++ r :: after ->
      store (Arr (table s)) (r_slot (table s) r) (r_rec r) = Some Arr' ->
      atomic_step s
        (mkShared (set_Arr (table s) Arr') (before ++ after) (written s ++ [r])).

End Arrivals.
Arguments c_itheta {_ _}.
Arguments c_id {_ _}.
Arguments c_ir {_ _}.
Arguments c_Amp {_ _}.
Arguments c_omega {_ _}.
Arguments c_Phase {_ _}.
Arguments c_delay {_ _}.
Arguments c_rinit {_ _}.
Arguments c_RcvrDeclAngle {_ _}.
Arguments c_RcvrAzimAngle {_ _}.
Arguments c_NumTopBnc {_ _}.
Arguments c_NumBotBnc {_ _}.
End Arrivals.

(** ** [trace.hpp] *)

(** The three instantiations of the templates [<O3D, R3D>]: ocean and rays
    2D; ocean 3D and rays 2D ("2D-in-3D", Nx2D); ocean and rays 3D. *)
Inductive Mode : Type := M2D | MNx2D | M3D.

Definition O3D (m : Mode) : bool := match m with M2D => false | _ => true end.
Definition R3D (m : Mode) : bool := match m with M3D => true | _ => false end.

(** [s[i] == ch] on a run type string. *)
Definition char_is (s : string) (i : nat) (ch : Ascii.ascii) : bool :=
  match String.get i s with
  | Some ch' => Ascii.eqb ch' ch
  | None => false
  end.

Module Trace.
Section Trace.
Context `{RealOps} `{!LibM}.

Record mat2x2 : Type := mkmat2x2 { m00 : real; m01 : real; m10 : real; m11 : real }.

(** The type of the members [p] and [q] of a ray point. *)
Definition Jac (m : Mode) : Type := match m with M3D => mat2x2 | _ => vec2 end.

Record rayPt (m : Mode) : Type := mkrayPt {
  x : VEC23 (R3D m);
  t : VEC23 (R3D m);
  c : real;
  tau : cpx;
  Amp : real;
  Phase : real;
  NumTopBnc : Z;
  NumBotBnc : Z;
  p : Jac m;
  q : Jac m;
  DetQ : real;
  phi : real
}.

Record Origin (m : Mode) : Type := mkOrigin {
  org_xs : VEC23 (O3D m);
  tradial : vec2
}.

Record SSPSegState : Type := mkSSPSegState { seg_x : Z; seg_y : Z; seg_z : Z; seg_r : Z }.

Record SSPOutputs : Type := mkSSPOutputs { ccpx : cpx; gradc : vec2 }.

(** The members of the boundary locator that [RayInit] writes and
    [Distances] reads: the segment index (a pair in 3D), the boundary point
    [x] and its outward normal [n], typed as [Distances<R3D>] takes them. *)
Record BdryStateTopBot (m : Mode) : Type := mkBdryStateTopBot {
  Iseg : Z * Z;
  bx : VEC23 (R3D m);
  bn : VEC23 (R3D m)
}.

Record BdryState (m : Mode) : Type := mkBdryState {
  top : BdryStateTopBot m;
  bot : BdryStateTopBot m
}.

(** The boundary table: [NPts] (a pair in 3D) and the position [bd[i].x] of
    its nodes. *)
Record BdryInfoTopBot (m : Mode) : Type := mkBdryInfoTopBot {
  NPts : Z * Z;
  bd_x : Z -> VEC23 (O3D m)
}.

Record BdryInfo (m : Mode) : Type := mkBdryInfo {
  itop : BdryInfoTopBot m;
  ibot : BdryInfoTopBot m
}.

(** [Beam->Box] has the members [x], [y], [z] in 3D and [r], [z] in 2D. *)
Record BeamStructure (m : Mode) : Type := mkBeamStructure {
  RunType : string;
  Box : VEC23 (O3D m)
}.

Record BeamInfo : Type := mkBeamInfo { NSBPPts : Z; SrcBmPat : Z -> real }.

Record FreqInfo : Type := mkFreqInfo { freq0 : real }.

Arguments x {_}.
Arguments t {_}.
Arguments c {_}.
Arguments tau {_}.
Arguments Amp {_}.
Arguments Phase {_}.
Arguments NumTopBnc {_}.
Arguments NumBotBnc {_}.
Arguments p {_}.
Arguments q {_}.
Arguments DetQ {_}.
Arguments phi {_}.
Arguments org_xs {_}.
Arguments tradial {_}.
Arguments Iseg {_}.
Arguments bx {_}.
Arguments bn {_}.
Arguments top {_}.
Arguments bot {_}.
Arguments NPts {_}.
Arguments bd_x {_}.
Arguments itop {_}.
Arguments ibot {_}.
Arguments RunType {_}.
Arguments Box {_}.

(** Declared in headers outside the sources at hand. *)
Variable SSPStructure : Type.
Variable BdryType : Type.
Variable MaxN : Z.
Variable BHC_PROGRAMNAME : string.
Variable DEBUG_LARGEVAL : real.
Variable bhc_max : real -> real -> real.
Variable EvaluateSSP : forall m : Mode, VEC23 (O3D m) -> VEC23 (O3D m) -> Origin m ->
  SSPStructure -> SSPSegState -> SSPOutputs * SSPSegState.
Variable BinarySearchLEQ : (Z -> real) -> Z -> Z -> Z -> real -> Z.
Variable GetBdrySeg : forall m : Mode, VEC23 (O3D m) -> VEC23 (R3D m) ->
  BdryStateTopBot m -> BdryInfoTopBot m -> bool -> BdryStateTopBot m.
Variable RayToOceanX : forall m : Mode, VEC23 (R3D m) -> Origin m -> VEC23 (O3D m).

(** [Distances]: the distances, normal to the boundary, from the ray to the
    top and to the bottom boundary; the normals point outward. *)
Definition Distances (D : bool) (rayx Topx Botx Topn Botn : VEC23 D) : real * real :=
  let dTop := vsub D rayx Topx in
  let dBot := vsub D rayx Botx in
  (r_neg (dot D Topn dTop), r_neg (dot D Botn dBot)).

(** What a call leaves behind: the text written to standard output, and
    either the value returned or the fact that [bail()] ended the process. *)
Inductive outcome (A : Type) : Type :=
  | Bail (out : PrintFileEmu)
  | Ret (out : PrintFileEmu) (v : A).
Arguments Bail {_}.
Arguments Ret {_}.

(** The references that [RayInit] writes, and the value it returns. *)
Record InitResult (m : Mode) : Type := mkInitResult {
  init_ok : bool;
  init_rinit : Common.RayInitInfo (O3D m);
  init_point0 : rayPt m;
  init_gradc : vec2;
  init_DistBegTop : real;
  init_DistBegBot : real;
  init_org : Origin m;
  init_iSeg : SSPSegState;
  init_bds : BdryState m;
  init_Bdry : BdryType
}.
Arguments init_ok {_}.
Arguments init_DistBegTop {_}.
Arguments init_DistBegBot {_}.
Arguments init_point0 {_}.

(** The test that guards [bail()]. *)
Definition invalid_indexes (m : Mode) (rinit : Common.RayInitInfo (O3D m))
    (Pos : Common.Position) (Angles : Common.AnglesStructure) : bool :=
  (Common.isz rinit <? 0) || (Common.NSz Pos <=? Common.isz rinit)
  || (Common.ialpha rinit <? 0) || (Common.Nalpha Angles <=? Common.ialpha rinit)
  || (O3D m && ((Common.isx rinit <? 0) || (Common.NSx Pos <=? Common.isx rinit)
                || (Common.isy rinit <? 0) || (Common.NSy Pos <=? Common.isy rinit)
                || (Common.ibeta rinit <? 0) || (Common.Nbeta Angles <=? Common.ibeta rinit))).

(** [rinit.xs], the coordinate of the source. *)
Definition source_xs (m : Mode) (rinit : Common.RayInitInfo (O3D m))
    (Pos : Common.Position) : VEC23 (O3D m) :=
  match m return VEC23 (O3D m) with
  | M2D => mkvec2 (r_lit 0) (Common.Sz Pos (Common.isz rinit))
  | MNx2D | M3D =>
      mkvec3 (Common.Sx Pos (Common.isx rinit)) (Common.Sy Pos (Common.isy rinit))
             (Common.Sz Pos (Common.isz rinit))
  end.

Definition tinit_of (m : Mode) (alpha_ : real) : VEC23 (O3D m) :=
  match m return VEC23 (O3D m) with
  | M2D => mkvec2 (m_cos alpha_) (m_sin alpha_)
  | MNx2D | M3D => mkvec3 (r_lit 0) (r_lit 0) (r_lit 1)
  end.

Definition tinit2_of (m : Mode) (alpha_ beta_ : real) : VEC23 (R3D m) :=
  match m return VEC23 (R3D m) with
  | M3D => mkvec3 (r_mul (m_cos alpha_) (m_cos beta_)) (r_mul (m_cos alpha_) (m_sin beta_))
                  (m_sin alpha_)
  | MNx2D => mkvec2 (m_cos alpha_) (m_sin alpha_)
  | M2D => tinit_of M2D alpha_
  end.

Definition point0_x (m : Mode) : VEC23 (O3D m) -> VEC23 (R3D m) :=
  match m return VEC23 (O3D m) -> VEC23 (R3D m) with
  | MNx2D => fun xs_ => mkvec2 (r_lit 0) (z3 xs_)
  | M2D => fun xs_ => xs_
  | M3D => fun xs_ => xs_
  end.

Definition org_init (m : Mode) (org : Origin m) (xs_ : VEC23 (O3D m)) (beta_ : real)
    : Origin m :=
  match m return Origin m -> VEC23 (O3D m) -> Origin m with
  | MNx2D => fun _ xs' => mkOrigin MNx2D xs' (mkvec2 (m_cos beta_) (m_sin beta_))
  | M2D => fun org' _ => org'
  | M3D => fun org' _ => org'
  end org xs_.

(** [point0.p], [point0.q], [point0.DetQ], [point0.phi]. *)
Definition jac_init (m : Mode) (Beam : BeamStructure m) (point0 : rayPt m)
    : Jac m * Jac m * real * real :=
  match m return BeamStructure m -> rayPt m -> Jac m * Jac m * real * real with
  | M3D => fun _ _ =>
      (mkmat2x2 (r_lit 1) (r_lit 0) (r_lit 0) (r_lit 1),
       mkmat2x2 (r_lit 0) (r_lit 0) (r_lit 0) (r_lit 0),
       DEBUG_LARGEVAL, r_lit 0)
  | MNx2D => fun _ pt =>
      (mkvec2 (r_lit 1) (r_lit 0), mkvec2 (r_lit 0) (r_lit 1), DetQ pt, phi pt)
  | M2D => fun Beam' pt =>
      (mkvec2 (r_lit 1) (r_lit 0),
       if char_is (RunType Beam') 1 "G"%char then mkvec2 (r_lit 0) (r_lit 0)
       else mkvec2 (r_lit 0) (r_lit 1),
       DetQ pt, phi pt)
  end Beam point0.

(** The "too few beams" warning of the 2D code. *)
Definition too_few_beams (m : Mode) (ialpha_ : Z) (o : SSPOutputs)
    (Pos : Common.Position) (Angles : Common.AnglesStructure)
    (freqinfo : FreqInfo) (Beam : BeamStructure m) : PrintFileEmu :=
  if O3D m then []
  else
    let DalphaOpt :=
      m_sqrt (r_div (ccpx o).1
                (r_mul (r_mul (r_lit 6) (freq0 freqinfo))
                       (Common.Rr Pos (Int32.sub (Common.NRr Pos) 1)))) in
    let NalphaOpt :=
      Int32.add 2
        (r_to_int (r_div (r_sub (Common.alpha Angles (Int32.sub (Common.Nalpha Angles) 1))
                                (Common.alpha Angles 0))
                         DalphaOpt)) in
    if char_is (RunType Beam) 0 "C"%char && (Common.Nalpha Angles <? NalphaOpt) && (ialpha_ =? 0)
    then [Str (String.append "Warning in "
                 (String.append BHC_PROGRAMNAME
                    " : Too few beams\nNalpha should be at least = "));
          Int NalphaOpt; Str "\n"]
    else [].

(** The initial amplitude [Amp0], a [float]: the source beam pattern
    interpolated at the launch angle, then the Lloyd mirror factor of the
    semi-coherent runs. *)
Definition initial_amplitude (m : Mode) (SrcDeclAngle_ alpha_ : real) (omega : float)
    (o : SSPOutputs) (xs_ : VEC23 (O3D m)) (Beam : BeamStructure m)
    (beaminfo : BeamInfo) : float :=
  let ibp0 := BinarySearchLEQ (SrcBmPat beaminfo) (NSBPPts beaminfo) 2 0 SrcDeclAngle_ in
  let ibp := Z.min ibp0 (Int32.sub (NSBPPts beaminfo) 2) in
  let i0 := Int32.mul 2 ibp in
  let i1 := Int32.mul 2 (Int32.add ibp 1) in
  let s := r_div (r_sub SrcDeclAngle_ (SrcBmPat beaminfo (Int32.add i0 0)))
                 (r_sub (SrcBmPat beaminfo (Int32.add i1 0))
                        (SrcBmPat beaminfo (Int32.add i0 0))) in
  let Amp0 := f_of_r (r_add (r_mul (r_sub (r_lit 1) s) (SrcBmPat beaminfo (Int32.add i0 1)))
                            (r_mul s (SrcBmPat beaminfo (Int32.add i1 1)))) in
  if char_is (RunType Beam) 0 "S"%char then
    f_of_r (r_mul (r_of_f Amp0)
              (r_mul (m_sqrt (r_lit 2))
                 (r_abs (m_sin (r_mul (r_mul (r_div (r_of_f omega) (ccpx o).1)
                                             (DEP (O3D m) xs_))
                                      (m_sin alpha_))))))
  else Amp0.

(** [RayInit]. The source is in the middle of a change of its signature and
    still names [isrc], [ialpha], [SrcDeclAngle] and [xs]: they are read as the
    members [isz], [ialpha], [SrcDeclAngle] and [xs] of [rinit]. The arguments
    [point0], [org], [iSeg] and [bds] are the values the references hold when
    the function is entered. *)
Definition RayInit (m : Mode) (rinit : Common.RayInitInfo (O3D m)) (point0 : rayPt m)
    (org : Origin m) (iSeg : SSPSegState) (bds : BdryState m)
    (ConstBdry : BdryType) (bdinfo : BdryInfo m) (ssp : SSPStructure)
    (Pos : Common.Position) (Angles : Common.AnglesStructure) (freqinfo : FreqInfo)
    (Beam : BeamStructure m) (beaminfo : BeamInfo) : outcome (InitResult m) :=
  if invalid_indexes m rinit Pos Angles then Bail [Str "Invalid ray init indexes!\n"]
  else
    let xs_ := source_xs m rinit Pos in
    let alpha_ := Common.alpha Angles (Common.ialpha rinit) in
    let beta_ := Common.beta Angles (Common.ibeta rinit) in
    let SrcDeclAngle_ := r_mul RadDeg alpha_ in
    let SrcAzimAngle_ := r_mul RadDeg beta_ in
    let rinit' := Common.mkRayInitInfo (O3D m) (Common.isx rinit) (Common.isy rinit)
                    (Common.isz rinit) (Common.ialpha rinit) (Common.ibeta rinit)
                    xs_ SrcDeclAngle_ SrcAzimAngle_ in
    let org' := org_init m org xs_ beta_ in
    let omega := f_of_r (r_mul (r_mul (r_lit 2) REAL_PI) (freq0 freqinfo)) in
    let iSeg0 := mkSSPSegState 0 0 0 0 in
    let tinit := tinit_of m alpha_ in
    let '(o, iSeg') := EvaluateSSP m xs_ tinit org' ssp iSeg0 in
    let out1 := too_few_beams m (Common.ialpha rinit) o Pos Angles freqinfo Beam in
    let Amp0 := initial_amplitude m SrcDeclAngle_ alpha_ omega o xs_ Beam beaminfo in
    let tinit2 := tinit2_of m alpha_ beta_ in
    let '(p_, q_, DetQ_, phi_) := jac_init m Beam point0 in
    let point0' :=
      mkrayPt m (point0_x m xs_) (vdiv (R3D m) tinit2 (ccpx o).1) (ccpx o).1
        (r_lit 0, r_lit 0) (r_of_f Amp0) (r_lit 0) 0 0 p_ q_ DetQ_ phi_ in
    let top0 := mkBdryStateTopBot m (0, 0) (bx (top bds)) (bn (top bds)) in
    let bot0 := mkBdryStateTopBot m (0, 0) (bx (bot bds)) (bn (bot bds)) in
    let top' := GetBdrySeg m xs_ (t point0') top0 (itop bdinfo) true in
    let bot' := GetBdrySeg m xs_ (t point0') bot0 (ibot bdinfo) false in
    let '(DistBegTop, DistBegBot) :=
      Distances (R3D m) (x point0') (bx top') (bx bot') (bn top') (bn bot') in
    let res ok :=
      mkInitResult m ok rinit' point0' (gradc o) DistBegTop DistBegBot org' iSeg'
        (mkBdryState m top' bot') ConstBdry in
    if r_leb DistBegTop (r_lit 0) || r_leb DistBegBot (r_lit 0) then
      Ret (out1 ++ [Str "Terminating the ray trace because the source is on or outside the boundaries\n"])
          (res false)
    else Ret out1 (res true).

(** The locals of [RayTerminate]. *)
Record StopFlags : Type := mkStopFlags {
  leftbox : bool;
  lostenergy : bool;
  escapedboundaries : bool;
  backward : bool;
  toomanysmallsteps : bool;
  escaped0bdry : bool;
  escapedNbdry : bool
}.

(** The branch [if constexpr(O3D)]: [x_o] is the ray position in ocean
    coordinates (the source writes [x.x], [x.y] in the two boundary tests). *)
Definition leftbox_3d (x_o xs_ Box_ : vec3) : bool :=
  r_ltb (x3 Box_) (r_abs (r_sub (x3 x_o) (x3 xs_)))
  || r_ltb (y3 Box_) (r_abs (r_sub (y3 x_o) (y3 xs_)))
  || r_ltb (z3 Box_) (r_abs (r_sub (z3 x_o) (z3 xs_))).

Definition escaped0bdry_3d (x_o : vec3) (bot_x top_x : Z -> vec3) : bool :=
  r_ltb (x3 x_o) (bhc_max (x3 (bot_x 0)) (x3 (top_x 0)))
  || r_ltb (y3 x_o) (bhc_max (y3 (bot_x 0)) (y3 (top_x 0))).

Definition escapedNbdry_3d (x_o : vec3) (bot_x top_x : Z -> vec3)
    (botN topN : Z * Z) : bool :=
  r_ltb (bhc_max (x3 (bot_x (Int32.mul (Int32.sub botN.1 1) botN.2)))
                 (x3 (top_x (Int32.mul (Int32.sub topN.1 1) topN.2))))
        (x3 x_o)
  || r_ltb (bhc_max (y3 (bot_x (Int32.sub botN.2 1))) (y3 (top_x (Int32.sub topN.2 1))))
           (y3 x_o).

(** The branch [else]: the 2D code. *)
Definition leftbox_2d (x_ Box_ : vec2) : bool :=
  r_ltb (x2 Box_) (r_abs (x2 x_)) || r_ltb (y2 Box_) (r_abs (y2 x_)).

Definition escapedboundaries_2d (DistBegTop DistEndTop DistBegBot DistEndBot : real) : bool :=
  (r_ltb DistBegTop (r_lit 0) && r_ltb DistEndTop (r_lit 0))
  || (r_ltb DistBegBot (r_lit 0) && r_ltb DistEndBot (r_lit 0)).

(** [backward]: computed for [O3D && !R3D] only. *)
Definition backward_of (m : Mode) : rayPt m -> bool :=
  match m return rayPt m -> bool with
  | MNx2D => fun point => r_ltb (x2 (t point)) (r_lit 0)
  | M2D => fun _ => false
  | M3D => fun _ => false
  end.

Definition stop_flags (m : Mode) (point : rayPt m) (iSmallStepCtr : Z)
    (DistBegTop DistBegBot DistEndTop DistEndBot : real) (org : Origin m)
    (bdinfo : BdryInfo m) (Beam : BeamStructure m) : StopFlags :=
  let lostenergy_ := r_ltb (Amp point) (r_lit (5 # 1000)) in
  let backward_ := backward_of m point in
  let o3d (x_o xs_ Box_ : vec3) (bot_x top_x : Z -> vec3) (botN topN : Z * Z) :=
    let e0 := escaped0bdry_3d x_o bot_x top_x in
    let eN := escapedNbdry_3d x_o bot_x top_x botN topN in
    mkStopFlags (leftbox_3d x_o xs_ Box_) lostenergy_ (e0 || eN) backward_
      (50 <? iSmallStepCtr) e0 eN in
  match m return rayPt m -> Origin m -> BdryInfo m -> BeamStructure m -> StopFlags with
  | M2D => fun point' _ _ Beam' =>
      mkStopFlags (leftbox_2d (x point') (Box Beam')) lostenergy_
        (escapedboundaries_2d DistBegTop DistEndTop DistBegBot DistEndBot) backward_
        false false false
  | MNx2D => fun point' org' bdinfo' Beam' =>
      o3d (RayToOceanX MNx2D (x point') org') (org_xs org') (Box Beam')
        (bd_x (ibot bdinfo')) (bd_x (itop bdinfo')) (NPts (ibot bdinfo')) (NPts (itop bdinfo'))
  | M3D => fun point' org' bdinfo' Beam' =>
      o3d (RayToOceanX M3D (x point') org') (org_xs org') (Box Beam')
        (bd_x (ibot bdinfo')) (bd_x (itop bdinfo')) (NPts (ibot bdinfo')) (NPts (itop bdinfo'))
  end point org bdinfo Beam.

(** The references that [RayTerminate] writes ([Nsteps], [DistBegTop],
    [DistBegBot]), the text it prints, and the value it returns. The step
    index [is] of the source is [is_] here. *)
Record TermResult : Type := mkTermResult {
  term_stop : bool;
  term_Nsteps : Z;
  term_DistBegTop : real;
  term_DistBegBot : real;
  term_out : PrintFileEmu
}.

Definition RayTerminate (m : Mode) (point : rayPt m) (Nsteps is_ iSmallStepCtr : Z)
    (DistBegTop DistBegBot DistEndTop DistEndBot : real) (org : Origin m)
    (bdinfo : BdryInfo m) (Beam : BeamStructure m) : TermResult :=
  let f := stop_flags m point iSmallStepCtr DistBegTop DistBegBot DistEndTop DistEndBot
             org bdinfo Beam in
  if leftbox f || lostenergy f || escapedboundaries f || backward f then
    mkTermResult true
      (if O3D m && escaped0bdry f then is_ else Int32.add is_ 1)
      DistBegTop DistBegBot []
  else if Int32.sub MaxN 3 <=? is_ then
    mkTermResult true is_ DistBegTop DistBegBot
      [Str "Warning in TraceRay: Insufficient storage for ray trajectory\n"]
  else
    mkTermResult false Nsteps DistEndTop DistEndBot [].

End Trace.
Arguments x {_ _}.
Arguments t {_ _}.
Arguments c {_ _}.
Arguments tau {_ _}.
Arguments Amp {_ _}.
Arguments Phase {_ _}.
Arguments NumTopBnc {_ _}.
Arguments NumBotBnc {_ _}.
Arguments p {_ _}.
Arguments q {_ _}.
Arguments DetQ {_ _}.
Arguments phi {_ _}.
Arguments org_xs {_ _}.
Arguments tradial {_ _}.
Arguments Iseg {_ _}.
Arguments bx {_ _}.
Arguments bn {_ _}.
Arguments top {_ _}.
Arguments bot {_ _}.
Arguments NPts {_ _}.
Arguments bd_x {_ _}.
Arguments itop {_ _}.
Arguments ibot {_ _}.
Arguments RunType {_ _}.
Arguments Box {_ _}.
Arguments Bail {_}.
Arguments Ret {_}.
Arguments init_ok {_ _ _}.
Arguments init_rinit {_ _ _}.
Arguments init_point0 {_ _ _}.
Arguments init_gradc {_ _ _}.
Arguments init_DistBegTop {_ _ _}.
Arguments init_DistBegBot {_ _ _}.
Arguments init_org {_ _ _}.
Arguments init_iSeg {_ _ _}.
Arguments init_bds {_ _ _}.
Arguments init_Bdry {_ _ _}.
End Trace.

(** ** [main.hpp] and the worker of [runfieldmodesimpl.cpp] *)

Module Jobs.
Section Jobs.
Context `{RealOps}.

(** [GetJobIndices]: the decoded [isrc] and [ialpha], and whether the job
    should continue (the body names its parameter [job] as [ray]). [/] and
    [%] truncate toward zero; a zero divisor, and the one quotient that
    leaves the [int32_t] range, are faults. *)
Definition GetJobIndices (job : Z) (Pos : Common.Position)
    (Angles : Common.AnglesStructure) : option (bool * Z * Z) :=
  if 0 <=? Common.iSingle_alpha Angles then
    Some (job <? Common.NSz Pos, job, Common.iSingle_alpha Angles)
  else if (Common.Nalpha Angles =? 0)
          || ((job =? Int32.min_signed) && (Common.Nalpha Angles =? -1)) then None
  else
    let isrc := Z.quot job (Common.Nalpha Angles) in
    let ialpha_ := Z.rem job (Common.Nalpha Angles) in
    Some (isrc <? Common.NSz Pos, isrc, ialpha_).

(** The loop of [FieldModesWorker] run by one worker: [sharedJobID++], decode,
    leave the loop or run the job. The jobs run are collected in order;
    [fuel] bounds the number of iterations and [None] is a fault or the fuel
    running out. *)
Fixpoint FieldModesWorker (fuel : nat) (sharedJobID : Z) (Pos : Common.Position)
    (Angles : Common.AnglesStructure) (ran : list (Z * Z)) : option (Z * list (Z * Z)) :=
  match fuel with
  | O => None
  | S fuel' =>
      let job := sharedJobID in
      let sharedJobID' := Int32.add sharedJobID 1 in
      match GetJobIndices job Pos Angles with
      | None => None
      | Some (true, isrc, ialpha_) =>
          FieldModesWorker fuel' sharedJobID' Pos Angles (ran ++ [(isrc, ialpha_)])
      | Some (false, _, _) => Some (sharedJobID', ran)
      end
  end.

(** The workers of [RunFieldModesImpl] side by side. [sharedJobID] is declared
    outside these files; its increment is taken to be atomic, so a run of the
    workers is a sequence of steps, each the step of one worker [w] that is
    still in its loop: it takes the next job index and either runs the job or
    leaves the loop. [ran] lists the jobs in the order in which they were
    taken, each with the worker that took it. A job that throws, which would
    end its worker's loop through the [catch], is not modelled. *)
Record Dispatch : Type := mkDispatch {
  sharedJobID : Z;
  in_loop : list bool;
  ran : list (nat * (Z * Z))
}.

Inductive worker_step (Pos : Common.Position) (Angles : Common.AnglesStructure)
    : Dispatch -> Dispatch -> Prop :=
  | take_job (w : nat) (d : Dispatch) (isrc ialpha_ : Z) :
      in_loop d !! w = Some true ->
      GetJobIndices (sharedJobID d) Pos Angles = Some (true, isrc, ialpha_) ->
      worker_step Pos Angles d
        (mkDispatch (Int32.add (sharedJobID d) 1) (in_loop d)
           (ran d ++ [(w, (isrc, ialpha_))]))
  | leave_loop (w : nat) (d : Dispatch) (isrc ialpha_ : Z) :
      in_loop d !! w = Some true ->
      GetJobIndices (sharedJobID d) Pos Angles = Some (false, isrc, ialpha_) ->
      worker_step Pos Angles d
        (mkDispatch (Int32.add (sharedJobID d) 1) (<[w := false]> (in_loop d)) (ran d)).

(** [sharedJobID = 0] and [cores] workers about to enter their loops. *)
Definition dispatch_init (cores : nat) : Dispatch := mkDispatch 0 (replicate cores true) [].

(** The number of workers that have left their loop. *)
Fixpoint left_loop (l : list bool) : Z :=
  match l with
  | [] => 0
  | b :: l' => (if b then 0 else 1) + left_loop l'
  end.

(** What holds of the dispatcher at every moment of a run: the jobs taken so
    far are the first [min sharedJobID N] jobs, in order, and the counter has
    gone beyond [N = NSz * Nalpha] by one for each worker that has left. *)
Definition dispatch_inv (Pos : Common.Position) (Angles : Common.AnglesStructure)
    (cores : nat) (d : Dispatch) : Prop :=
  0 <= sharedJobID d
  /\ length (in_loop d) = cores
  /\ snd <$> ran d
     = (fun job => (job / Common.Nalpha Angles, job mod Common.Nalpha Angles))
       <$> seqZ 0 (Z.min (sharedJobID d) (Common.NSz Pos * Common.Nalpha Angles))
  /\ left_loop (in_loop d)
     = sharedJobID d - Z.min (sharedJobID d) (Common.NSz Pos * Common.Nalpha Angles).

End Jobs.
End Jobs.

(** ** [util/unformattedio.hpp] *)

Module UnformattedIO.
Section UnformattedIO.

(** The object representation of an [int32_t]: [sizeof(int32_t)] bytes, in
    the byte order of the platform. *)
Variable int32_bytes : Z -> list byte.

(** A [std::ofstream] in binary mode, as far as the class uses it: whether a
    file is open, whether an operation has failed ([failbit] or [badbit]; from
    then on the stream ignores what it is asked to do), the bytes of the file
    and the put position. Only misuse fails here; a failure of the file
    system is not part of the model. *)
Record ofstream : Type := mkofstream {
  is_open : bool;
  failed : bool;
  data : list byte;
  pos : Z
}.

Definition ofstream_new : ofstream := mkofstream false false [] 0.

Definition set_failed (s : ofstream) : ofstream :=
  mkofstream (is_open s) true (data s) (pos s).

(** [ostr.open(path, std::ios::binary)]: the file is created empty; opening
    a stream that is open fails. *)
Definition stream_open (s : ofstream) : ofstream :=
  if is_open s then set_failed s else mkofstream true false [] 0.

(** The file after [bs] is written at the position [p]: what is there is
    overwritten, and a gap past the end is filled with zero bytes. *)
Definition put (d : list byte) (p : Z) (bs : list byte) : list byte :=
  take (Z.to_nat p) d ++ replicate (Z.to_nat p - length d) Byte.x00 ++ bs
  ++ drop (Z.to_nat p + length bs) d.

Definition stream_write (s : ofstream) (bs : list byte) : ofstream :=
  if is_open s && negb (failed s) then
    mkofstream true false (put (data s) (pos s) bs) (pos s + Z.of_nat (length bs))
  else set_failed s.

Definition stream_seekp (s : ofstream) (p : Z) : ofstream :=
  if failed s then s
  else if is_open s && (0 <=? p) then mkofstream true false (data s) p
  else set_failed s.

Definition stream_close (s : ofstream) : ofstream :=
  if is_open s then mkofstream false (failed s) (data s) 0 else set_failed s.

Definition stream_good (s : ofstream) : bool := negb (failed s).

(** The members of [UnformattedOFile]; [_internal] is only handed to
    [ExternalError]. *)
Record UnformattedOFile : Type := mkUnformattedOFile {
  ostr : ofstream;
  recstart : Z;
  recl : Z
}.

(** The constructor. *)
Definition UnformattedOFile_new : UnformattedOFile :=
  mkUnformattedOFile ofstream_new (-1) (-1).

Definition open (f : UnformattedOFile) : UnformattedOFile :=
  mkUnformattedOFile (stream_open (ostr f)) (recstart f) (recl f).

Definition good (f : UnformattedOFile) : bool :=
  stream_good (ostr f) && is_open (ostr f).

Definition FinishRecord (f : UnformattedOFile) : UnformattedOFile :=
  if (recstart f <? 0) || (recl f <? 0) then mkUnformattedOFile (ostr f) 0 0
  else
    let s1 := stream_seekp (ostr f) (recstart f) in
    let s2 := stream_write s1 (take 4 (int32_bytes (recl f))) in
    let s3 := stream_seekp s2 (Int32.add (Int32.add (recstart f) 4) (recl f)) in
    let s4 := stream_write s3 (take 4 (int32_bytes (recl f))) in
    mkUnformattedOFile s4 (Int32.add (recstart f) (Int32.add (recl f) 8)) 0.

Definition rec (f : UnformattedOFile) : UnformattedOFile :=
  let f' := FinishRecord f in
  mkUnformattedOFile (stream_write (ostr f') (take 4 (int32_bytes 0)))
    (recstart f') (recl f').

(** [ExternalError] is declared outside the sources at hand; it reports the
    message and does not return. *)
Inductive result (A : Type) : Type :=
  | Raised (msg : string)
  | Done (v : A).
Arguments Raised {_}.
Arguments Done {_}.

(** [write(T v)]: [v] is given by its object representation, whose length is
    [sizeof(T)]. *)
Definition write (f : UnformattedOFile) (v : list byte) : result UnformattedOFile :=
  if recstart f <? 0 then Raised "Missing record in UnformattedOFile!"
  else
    Done (mkUnformattedOFile (stream_write (ostr f) v) (recstart f)
            (Int32.add (recl f) (Int32.wrap (Z.of_nat (length v))))).

(** [write(T *arr, size_t n)]: [arr] lists the representations of
    [arr[0]] ... [arr[n - 1]]. *)
Definition write_array (f : UnformattedOFile) (sizeof_T : Z) (arr : list (list byte))
    : result UnformattedOFile :=
  if recstart f <? 0 then Raised "Missing record in UnformattedOFile!"
  else
    Done (mkUnformattedOFile (foldl stream_write (ostr f) arr) (recstart f)
            (Int32.add (recl f)
               (Int32.wrap (SizeT.mul (Z.of_nat (length arr)) sizeof_T)))).

(** The destructor. *)
Definition destroy (f : UnformattedOFile) : UnformattedOFile :=
  if is_open (ostr f) then
    let f' := FinishRecord f in
    mkUnformattedOFile (stream_close (ostr f')) (recstart f') (recl f')
  else f.

(** What a user of the class does between [open] and the destructor. *)
Inductive Call : Type :=
  | CRec
  | CWrite (v : list byte)
  | CWriteArray (sizeof_T : Z) (arr : list (list byte)).

Definition call (f : UnformattedOFile) (c : Call) : result UnformattedOFile :=
  match c with
  | CRec => Done (rec f)
  | CWrite v => write f v
  | CWriteArray sizeof_T arr => write_array f sizeof_T arr
  end.

Fixpoint calls (f : UnformattedOFile) (cs : list Call) : result UnformattedOFile :=
  match cs with
  | [] => Done f
  | c :: cs' =>
      match call f c with
      | Raised msg => Raised msg
      | Done f' => calls f' cs'
      end
  end.

End UnformattedIO.
Arguments Raised {_}.
Arguments Done {_}.
End UnformattedIO.

Module UnformattedIOSpec.
Import UnformattedIO.

(** The bytes that a call hands over. *)
Definition payload (c : Call) : list byte :=
  match c with
  | CRec => []
  | CWrite v => v
  | CWriteArray _ arr => concat arr
  end.

(** The elements of an array of [T] have [sizeof(T)] bytes each. *)
Definition well_typed (c : Call) : Prop :=
  match c with
  | CWriteArray sizeof_T arr => Forall (fun v => Z.of_nat (length v) = sizeof_T) arr
  | _ => True
  end.

(** The calls cut at every [rec()]: what is written before the first
    [rec()] of [cs], and the records that the later [rec()]s start. *)
Fixpoint split_records (cs : list Call) : list byte * list (list byte) :=
  match cs with
  | [] => ([], [])
  | CRec :: cs' => ([], (split_records cs').1 :: (split_records cs').2)
  | c :: cs' => (payload c ++ (split_records cs').1, (split_records cs').2)
  end.

(** One record of a FORTRAN unformatted file: its length in bytes before and
    after it. *)
Definition frame (int32_bytes : Z -> list byte) (p : list byte) : list byte :=
  int32_bytes (Z.of_nat (length p)) ++ p ++ int32_bytes (Z.of_nat (length p)).

Definition frames (int32_bytes : Z -> list byte) (ps : list (list byte)) : list byte :=
  concat (frame int32_bytes <$> ps).

(** A record is open: the file holds the finished records, the four bytes
    kept for the length of the open one, and what was written to it. *)
Definition record_open (int32_bytes : Z -> list byte) (f : UnformattedOFile)
    (done : list (list byte)) (cur : list byte) : Prop :=
  is_open (ostr f) = true /\ failed (ostr f) = false
  /\ data (ostr f) = frames int32_bytes done ++ int32_bytes 0 ++ cur
  /\ pos (ostr f) = Z.of_nat (length (data (ostr f)))
  /\ recstart f = Z.of_nat (length (frames int32_bytes done))
  /\ recl f = Z.of_nat (length cur).

End UnformattedIOSpec.

(** ** [sourcereceiver.hpp] *)

Module SourceReceiver.
Section SourceReceiver.
Context `{RealOps}.

(** The element type [REAL] of the vector that [ReadVector] fills, with the
    conversions that C++ inserts between it and [real]. *)
Variable elem : Type.
Variable to_real : elem -> real.
Variable of_real : real -> elem.

(** Declared in headers outside the sources at hand: the environment file
    with [LIST] and its two [Read]s, [allocate] (whose storage holds
    unspecified values), and the helpers [SubTab], [Sort], [EchoVector] and
    [trim]. *)
Variable LDIFile : Type.
Variable LIST : LDIFile -> LDIFile.
Variable Read_int : LDIFile -> Z * LDIFile.
Variable Read_vector : LDIFile -> list elem -> Z -> list elem * LDIFile.
Variable allocate : Z -> list elem.
Variable allocate_float : Z -> list float.
Variable allocate_int32 : Z -> list Z.
Variable SubTab : list elem -> Z -> list elem.
Variable Sort : list elem -> Z -> list elem.
Variable EchoVector : list elem -> Z -> PrintFileEmu.
Variable trim : string -> string.

(** How a function ends: with an access outside an array, with
    [std::abort()] after a message on [std::cout], or by returning. [prt] is
    what [PRTFile] holds. *)
Inductive outcome (A : Type) : Type :=
  | Fault
  | Abort (cout prt : PrintFileEmu)
  | Ret (v : A).
Arguments Fault {_}.
Arguments Abort {_}.
Arguments Ret {_}.

(** [for(int32_t i = i0; i < i0 + n; ++i) body], on a state [S]. *)
Fixpoint for_loop {S : Type} (n : nat) (i : Z) (body : Z -> S -> option S) (s : S)
    : option S :=
  match n with
  | O => Some s
  | S n' => s' ← body i s; for_loop n' (i + 1) body s'
  end.

(** [x[i] *= FL(1000.0)]. *)
Definition km_to_m (i : Z) (x : list elem) : option (list elem) :=
  v ← load x i;
  store x i (of_real (r_mul (to_real v) (r_lit 1000))).

(** [ReadVector]. The vector that [x] pointed to before is freed, which the
    model does not see. *)
Definition ReadVector (Description Units : string) (ENVFile : LDIFile)
    (PRTFile : PrintFileEmu) : outcome (Z * list elem * LDIFile * PrintFileEmu) :=
  let PRT1 :=
    PRTFile
    ++ [Str "\n__________________________________________________________________________\n\n"] in
  let '(Nx, ENV1) := Read_int (LIST ENVFile) in
  let PRT2 := PRT1 ++ [Str "Number of "; Str Description; Str " = "; Int Nx; Str "\n"] in
  if Nx <=? 0 then
    Abort [Str "ReadVector: Number of "; Str Description; Str " must be positive\n"] PRT2
  else
    let x0 := allocate (Z.max 3 Nx) in
    let PRT3 := PRT2 ++ [Str Description; Str " ("; Str Units; Str ")\n"] in
    match store x0 2 (of_real (r_lit (-9999 # 10))) with
    | None => Fault
    | Some x1 =>
        let '(x2, ENV2) := Read_vector (LIST ENV1) x1 Nx in
        let x3 := SubTab x2 Nx in
        let x4 := Sort x3 Nx in
        let PRT4 := PRT3 ++ EchoVector x4 Nx ++ [Str "\n"] in
        let Units' := trim Units in
        if (2 <=? Z.of_nat (String.length Units'))
           && String.eqb (String.substring 0 2 Units') "km" then
          match for_loop (Z.to_nat Nx) 0 km_to_m x4 with
          | None => Fault
          | Some x5 => Ret (Nx, x5, ENV2, PRT4)
          end
        else Ret (Nx, x4, ENV2, PRT4)
    end.

(** The members of [Position] that [ReadSzRz] writes; [ws], [iSz], [wr] and
    [iRz] are null until they are allocated. *)
Record Position : Type := mkPosition {
  NSz : Z; NRz : Z;
  Sz : list elem; Rz : list elem;
  ws : option (list float); iSz : option (list Z);
  wr : option (list float); iRz : option (list Z)
}.

(** One turn of the two loops of [ReadSzRz], on the vector and the two
    flags [topbdry] and [botbdry]. *)
Definition move_into_limits (zMin zMax : real) (i : Z) (s : list elem * bool * bool)
    : option (list elem * bool * bool) :=
  let '(z, topbdry, botbdry) := s in
  v ← load z i;
  s1 ← (if r_ltb (to_real v) zMin then z' ← store z i (of_real zMin); Some (z', true)
        else Some (z, topbdry));
  v1 ← load s1.1 i;
  if r_ltb zMax (to_real v1) then z'' ← store s1.1 i (of_real zMax); Some (z'', s1.2, true)
  else Some (s1.1, s1.2, botbdry).

Definition ReadSzRz (zMin zMax : real) (ENVFile : LDIFile) (PRTFile : PrintFileEmu)
    (Pos : Position) : outcome (Position * LDIFile * PrintFileEmu) :=
  match ReadVector "Source   depths, Sz" "m" ENVFile PRTFile with
  | Fault => Fault
  | Abort cout prt => Abort cout prt
  | Ret (NSz_, Sz0, ENV1, PRT1) =>
      match ReadVector "Receiver depths, Rz" "m" ENV1 PRT1 with
      | Fault => Fault
      | Abort cout prt => Abort cout prt
      | Ret (NRz_, Rz0, ENV2, PRT2) =>
          let ws_ := allocate_float NSz_ in
          let iSz_ := allocate_int32 NSz_ in
          let wr_ := allocate_float NRz_ in
          let iRz_ := allocate_int32 NRz_ in
          match for_loop (Z.to_nat NSz_) 0 (move_into_limits zMin zMax) (Sz0, false, false) with
          | None => Fault
          | Some (Sz1, topS, botS) =>
              let PRT3 :=
                PRT2
                ++ (if topS then
                      [Str "Warning in ReadSzRz : Source above or too near the top bdry has been moved down\n"]
                    else [])
                ++ (if botS then
                      [Str "Warning in ReadSzRz : Source below or too near the bottom bdry has been moved up\n"]
                    else []) in
              match for_loop (Z.to_nat NRz_) 0 (move_into_limits zMin zMax)
                      (Rz0, false, false) with
              | None => Fault
              | Some (Rz1, topR, botR) =>
                  let PRT4 :=
                    PRT3
                    ++ (if topR then
                          [Str "Warning in ReadSzRz : Receiver above or too near the top bdry has been moved down\n"]
                        else [])
                    ++ (if botR then
                          [Str "Warning in ReadSzRz : Receiver below or too near the bottom bdry has been moved up\n"]
                        else []) in
                  Ret (mkPosition NSz_ NRz_ Sz1 Rz1 (Some ws_) (Some iSz_) (Some wr_) (Some iRz_),
                       ENV2, PRT4)
              end
          end
      end
  end.

End SourceReceiver.
Arguments Fault {_}.
Arguments Abort {_}.
Arguments Ret {_}.
End SourceReceiver.

Module SourceReceiverSpec.
Section SourceReceiverSpec.
Context `{RealOps}.
Variable elem : Type.
Variable to_real : elem -> real.
Variable of_real : real -> elem.

(** What the two tests of [ReadSzRz] make of one depth. *)
Definition moved_down (zMin : real) (v : elem) : elem :=
  if r_ltb (to_real v) zMin then of_real zMin else v.

Definition moved (zMin zMax : real) (v : elem) : elem :=
  if r_ltb zMax (to_real (moved_down zMin v)) then of_real zMax else moved_down zMin v.

(** A depth is neither above the upper limit [zMin] nor below the lower
    limit [zMax]. *)
Definition within_limits (zMin zMax : real) (v : elem) : Prop :=
  r_ltb (to_real v) zMin = false /\ r_ltb zMax (to_real v) = false.

Definition above (zMin : real) (v : elem) : bool := r_ltb (to_real v) zMin.
Definition below (zMin zMax : real) (v : elem) : bool :=
  r_ltb zMax (to_real (moved_down zMin v)).

(** The vector that [ReadVector] has when it reaches the conversion of the
    units: allocated, marked at index 2, read, and passed through [SubTab]
    and [Sort]. *)
Variable LDIFile : Type.
Variable LIST : LDIFile -> LDIFile.
Variable Read_int : LDIFile -> Z * LDIFile.
Variable Read_vector : LDIFile -> list elem -> Z -> list elem * LDIFile.
Variable allocate : Z -> list elem.
Variable SubTab : list elem -> Z -> list elem.
Variable Sort : list elem -> Z -> list elem.

Definition vector_read (ENVFile : LDIFile) : list elem :=
  let Nx := (Read_int (LIST ENVFile)).1 in
  let ENV1 := (Read_int (LIST ENVFile)).2 in
  Sort (SubTab (Read_vector (LIST ENV1)
                  (<[2%nat := of_real (r_lit (-9999 # 10))]> (allocate (Z.max 3 Nx))) Nx).1
          Nx) Nx.

End SourceReceiverSpec.
End SourceReceiverSpec.

(** ** [beams.hpp] *)

Module Beams.
Section Beams.
Context `{RealOps}.

(** The member of [BeamStructure<O3D>] that this header reads. *)
Record BeamStructure (O3D : bool) : Type := mkBeamStructure {
  Box : VEC23 O3D
}.
Arguments Box {_}.

(** [v[DIM]] for a dimension that the [static_assert] lets through, from 0
    to [ZDIM<O3D>()], the index of the depth: 2 in 3D and 1 in 2D. *)
Definition component (O3D : bool) (DIM : Z) : VEC23 O3D -> option real :=
  match O3D return VEC23 O3D -> option real with
  | true => fun v =>
      if DIM =? 0 then Some (x3 v)
      else if DIM =? 1 then Some (y3 v)
      else if DIM =? 2 then Some (z3 v)
      else None
  | false => fun v =>
      if DIM =? 0 then Some (x2 v)
      else if DIM =? 1 then Some (y2 v)
      else None
  end.

(** [BeamBoxCenter]: the source, with its depth replaced by 0. *)
Definition BeamBoxCenter (O3D : bool) : VEC23 O3D -> VEC23 O3D :=
  match O3D return VEC23 O3D -> VEC23 O3D with
  | true => fun xs => mkvec3 (x3 xs) (y3 xs) (r_lit 0)
  | false => fun xs => mkvec2 (x2 xs) (r_lit 0)
  end.

(** [IsOutsideBeamBoxDim<O3D, DIM>]; [None] stands for an instantiation that
    the [static_assert] refuses. *)
Definition IsOutsideBeamBoxDim (O3D : bool) (DIM : Z) (x : VEC23 O3D)
    (Beam : BeamStructure O3D) (xs : VEC23 O3D) : option bool :=
  xd ← component O3D DIM x;
  cd ← component O3D DIM (BeamBoxCenter O3D xs);
  bd ← component O3D DIM (Box Beam);
  Some (r_leb bd (r_abs (r_sub xd cd))).

End Beams.
Arguments Box {_ _}.
End Beams.

(** ** [trace.hpp]: one step of a ray, in 2D *)

Module Update.
Section Update.
Context `{RealOps}.

(** The members of [BdryPtFull<false>] that [RayUpdate] reads. *)
Record BdryPtFull : Type := mkBdryPtFull {
  pt_t : vec2;
  pt_n : vec2;
  pt_Noden : vec2;
  pt_Nodet : vec2;
  pt_Len : real;
  pt_kappa : real
}.

(** [bdinfo->top] and [bdinfo->bot], as [RayUpdate] reads them: the type
    string and the table of the boundary points. *)
Record BdryInfoTopBot : Type := mkBdryInfoTopBot {
  type : string;
  bd : Z -> BdryPtFull
}.

Record BdryInfo : Type := mkBdryInfo {
  top : BdryInfoTopBot;
  bot : BdryInfoTopBot
}.

(** [ReflCurvature<false>]. *)
Record ReflCurvature : Type := mkReflCurvature { kappa : real }.

(** Declared in headers outside the sources at hand: the types of the ocean
    and of the reflection tables, and [Step], [Reflect], [GetBdrySeg],
    [RayToOceanX] and [RayToOceanT]. A function returns what it may write
    through the references it is given. *)
Variable SSPStructure : Type.
Variable BdryType : Type.
Variable HSInfo : Type.
Variable ReflectionInfoTopBot : Type.
Variable Top_hs : BdryType -> HSInfo.
Variable Bot_hs : BdryType -> HSInfo.

Record ReflectionInfo : Type := mkReflectionInfo {
  refl_top : ReflectionInfoTopBot;
  refl_bot : ReflectionInfoTopBot
}.

Record StepResult : Type := mkStepResult {
  st_point1 : Trace.rayPt M2D;
  st_bds : Trace.BdryState M2D;
  st_iSeg : Trace.SSPSegState;
  st_iSmallStepCtr : Z;
  st_topRefl : bool;
  st_botRefl : bool
}.

Variable Step : Trace.rayPt M2D -> Trace.rayPt M2D -> Trace.BdryState M2D ->
  Trace.BeamStructure M2D -> Trace.Origin M2D -> SSPStructure -> Trace.SSPSegState -> Z ->
  StepResult.
Variable Reflect : Trace.rayPt M2D -> Trace.rayPt M2D -> HSInfo -> bool -> vec2 -> vec2 ->
  ReflCurvature -> real -> ReflectionInfoTopBot -> Trace.BeamStructure M2D ->
  Trace.Origin M2D -> SSPStructure -> Trace.SSPSegState ->
  Trace.rayPt M2D * Trace.SSPSegState.
Variable GetBdrySeg : vec2 -> vec2 -> Trace.BdryStateTopBot M2D -> BdryInfoTopBot -> bool ->
  Trace.BdryStateTopBot M2D.
Variable RayToOceanX : vec2 -> Trace.Origin M2D -> vec2.
Variable RayToOceanT : vec2 -> Trace.Origin M2D -> vec2.

(** [s * v] and [u + v] on [vec2]. *)
Definition scale2 (s : real) (v : vec2) : vec2 := mkvec2 (r_mul s (x2 v)) (r_mul s (y2 v)).
Definition add2 (u v : vec2) : vec2 := mkvec2 (r_add (x2 u) (x2 v)) (r_add (y2 u) (y2 v)).

(** The normal and the tangent at the point of reflection, [nInt] and
    [tInt]: interpolated between the nodes of the segment on a curvilinear
    boundary, those of the segment otherwise. *)
Definition interpolate (bdi : BdryInfoTopBot) (bdstb : Trace.BdryStateTopBot M2D)
    (point1 : Trace.rayPt M2D) : vec2 * vec2 :=
  let bd0 := bd bdi (Trace.Iseg bdstb).1 in
  let bd1 := bd bdi ((Trace.Iseg bdstb).1 + 1) in
  if char_is (type bdi) 0 "C"%char then
    let sss := r_div (dot2 (sub2 (Trace.x point1) (Trace.bx bdstb)) (pt_t bd0)) (pt_Len bd0) in
    (add2 (scale2 (r_sub (r_lit 1) sss) (pt_Noden bd0)) (scale2 sss (pt_Noden bd1)),
     add2 (scale2 (r_sub (r_lit 1) sss) (pt_Nodet bd0)) (scale2 sss (pt_Nodet bd1)))
  else (pt_n bd0, pt_t bd0).

(** The value that [RayUpdate] returns and the references that it writes. *)
Record UpdateResult : Type := mkUpdateResult {
  numRaySteps : Z;
  up_point1 : Trace.rayPt M2D;
  up_point2 : Trace.rayPt M2D;
  up_DistEndTop : real;
  up_DistEndBot : real;
  up_iSmallStepCtr : Z;
  up_iSeg : Trace.SSPSegState;
  up_bds : Trace.BdryState M2D
}.

(** [RayUpdate<false, false>]. The segment index [Iseg] of a 2D boundary is
    the first component of the pair that [BdryStateTopBot] holds. *)
Definition RayUpdate (point0 point1 point2 : Trace.rayPt M2D) (iSmallStepCtr : Z)
    (org : Trace.Origin M2D) (iSeg : Trace.SSPSegState) (bds : Trace.BdryState M2D)
    (Bdry : BdryType) (bdinfo : BdryInfo) (refl : ReflectionInfo) (ssp : SSPStructure)
    (freqinfo : Trace.FreqInfo) (Beam : Trace.BeamStructure M2D) : UpdateResult :=
  let s := Step point0 point1 bds Beam org ssp iSeg iSmallStepCtr in
  let topRefl := st_topRefl s in
  let botRefl := st_botRefl s in
  let x_o := RayToOceanX (Trace.x (st_point1 s)) org in
  let t_o := RayToOceanT (Trace.t (st_point1 s)) org in
  let top' := GetBdrySeg x_o t_o (Trace.top (st_bds s)) (top bdinfo) true in
  let bot' := GetBdrySeg x_o t_o (Trace.bot (st_bds s)) (bot bdinfo) false in
  let Dist := Trace.Distances false x_o (Trace.bx top') (Trace.bx bot')
                (Trace.bn top') (Trace.bn bot') in
  if topRefl || botRefl then
    let bdi := if topRefl then top bdinfo else bot bdinfo in
    let bdstb := if topRefl then top' else bot' in
    let hs := if topRefl then Top_hs Bdry else Bot_hs Bdry in
    let refltb := if topRefl then refl_top refl else refl_bot refl in
    let nt := interpolate bdi bdstb (st_point1 s) in
    let rcurv := mkReflCurvature (pt_kappa (bd bdi (Trace.Iseg bdstb).1)) in
    let r := Reflect (st_point1 s) point2 hs topRefl nt.2 nt.1 rcurv (Trace.freq0 freqinfo)
               refltb Beam org ssp (st_iSeg s) in
    let x_o2 := RayToOceanX (Trace.x r.1) org in
    let Dist2 := Trace.Distances false x_o2 (Trace.bx top') (Trace.bx bot')
                   (Trace.bn top') (Trace.bn bot') in
    mkUpdateResult 2 (st_point1 s) r.1 Dist2.1 Dist2.2 (st_iSmallStepCtr s) r.2
      (Trace.mkBdryState M2D top' bot')
  else
    mkUpdateResult 1 (st_point1 s) point2 Dist.1 Dist.2 (st_iSmallStepCtr s) (st_iSeg s)
      (Trace.mkBdryState M2D top' bot').

End Update.
End Update.

(** ** [main.hpp]: the loops that trace one ray *)

Module Main.
Section Main.
Context `{RealOps}.

(** [main.hpp] calls [RayInit], [RayUpdate] and [RayTerminate] with the
    argument lists of an earlier [trace.hpp]. Here a call is a call of a
    section variable of that shape: [ray2DPt] is [pt]; the local variables
    that the calls take by reference ([DistBegTop], [DistEndTop], [IsegTop],
    [rTopSeg], [iSmallStepCtr], [iSegz], [Bdry], ...) are gathered in
    [Locals]; the tables that are only read ([ConstBdry], [bdinfo], [refl],
    [ssp], [Pos], [Angles], [freqinfo], [Beam], [beaminfo]) are the same in
    every call and belong to the functions. *)
Variable pt : Type.
Variable Locals : Type.
Variable MaxN : Z.
Variable RayInit : Z -> Z -> real -> pt -> Locals -> bool * (real * pt * Locals).
Variable RayUpdate : pt -> pt -> pt -> Locals -> Z * (pt * pt * Locals).
Variable RayTerminate : pt -> Z -> Z -> Locals -> bool * (Z * Locals).
(** [int32_t iSmallStepCtr = 0]. *)
Variable set_iSmallStepCtr : Z -> Locals -> Locals.

(** The loop of [MainRayMode], with [n] turns to go: the trajectory
    [ray2D], the step index [is] of the source ([is_] here) and [Nsteps];
    [None] is an access outside [ray2D]. *)
Fixpoint ray_loop (n : nat) (ray2D : list pt) (is_ Nsteps : Z) (locals : Locals)
    : option (list pt * Z) :=
  match n with
  | O => Some (ray2D, Nsteps)
  | S n' =>
      point0 ← load ray2D is_;
      point1 ← load ray2D (Int32.add is_ 1);
      point2 ← load ray2D (Int32.add is_ 2);
      let u := RayUpdate point0 point1 point2 locals in
      ray2D1 ← store ray2D (Int32.add is_ 1) u.2.1.1;
      ray2D2 ← store ray2D1 (Int32.add is_ 2) u.2.1.2;
      let is' := Int32.add is_ u.1 in
      point ← load ray2D2 is';
      let r := RayTerminate point Nsteps is' u.2.2 in
      if r.1 then Some (ray2D2, r.2.1)
      else ray_loop n' ray2D2 is' r.2.1 r.2.2
  end.

(** [MainRayMode]: [SrcDeclAngle], [ray2D] and [Nsteps] as it leaves them;
    [locals] holds what the local variables hold before they are set. *)
Definition MainRayMode (isrc ialpha : Z) (SrcDeclAngle : real) (ray2D : list pt)
    (Nsteps : Z) (locals : Locals) : option (real * list pt * Z) :=
  point0 ← load ray2D 0;
  let i := RayInit isrc ialpha SrcDeclAngle point0 locals in
  ray2D0 ← store ray2D 0 i.2.1.2;
  if negb i.1 then Some (i.2.1.1, ray2D0, 1)
  else
    r ← ray_loop (Z.to_nat (Int32.sub MaxN 1)) ray2D0 0 Nsteps (set_iSmallStepCtr 0 i.2.2);
    Some (i.2.1.1, r.1, r.2).

(** [MainTLMode] also calls [Init_Influence] and [Step_Influence], of
    [influence.hpp]: [Infl] is [InfluenceRayInfo], [Field] the array
    [uAllSources], into which [u] points at the offset [u_]. *)
Variable Infl : Type.
Variable Field : Type.
Variable NRz_per_range : Infl -> Z.
Variable NRr : Z.
Variable Init_Influence : Infl -> pt -> Z -> Locals -> Infl.
Variable Step_Influence : pt -> pt -> Infl -> Z -> Z -> Field -> Locals ->
  Infl * Field * Locals.

(** The end of a call of [MainTLMode]: by [bail()] after a message, or by
    returning. *)
Inductive outcome (A : Type) : Type :=
  | Bail (out : PrintFileEmu)
  | Ret (v : A).
Arguments Bail {_}.
Arguments Ret {_}.

Record TLState : Type := mkTLState {
  tl_point0 : pt;
  tl_point1 : pt;
  tl_point2 : pt;
  tl_inflray : Infl;
  tl_u : Field;
  tl_is : Z;
  tl_Nsteps : Z;
  tl_locals : Locals
}.

(** The loop of [MainTLMode], with [n] turns to go. The source prints
    [dstep] and passes [Nsteps], which it does not declare: they are read as
    [dStep] and as one more local variable. *)
Fixpoint field_loop (n : nat) (u_ : Z) (s : TLState) : outcome TLState :=
  match n with
  | O => Ret s
  | S n' =>
      let up := RayUpdate (tl_point0 s) (tl_point1 s) (tl_point2 s) (tl_locals s) in
      let dStep := up.1 in
      let point1 := up.2.1.1 in
      let point2 := up.2.1.2 in
      let i1 := Step_Influence (tl_point0 s) point1 (tl_inflray s) (tl_is s) u_ (tl_u s)
                  up.2.2 in
      let after (point0' : pt) (i : Infl * Field * Locals) : outcome TLState :=
        let is' := Int32.add (tl_is s) dStep in
        let r := RayTerminate point0' (tl_Nsteps s) is' i.2 in
        let s' := mkTLState point0' point1 point2 i.1.1 i.1.2 is' r.2.1 r.2.2 in
        if r.1 then Ret s' else field_loop n' u_ s' in
      if dStep =? 2 then
        after point2 (Step_Influence point1 point2 i1.1.1 (tl_is s) u_ i1.1.2 i1.2)
      else if dStep =? 1 then after point1 i1
      else Bail [Str "Invalid dstep: "; Int dStep; Str "\n"]
  end.

Definition MainTLMode (isrc ialpha : Z) (SrcDeclAngle : real) (uAllSources : Field)
    (point0 point1 point2 : pt) (inflray : Infl) (Nsteps : Z) (locals : Locals)
    : outcome (real * TLState) :=
  let i := RayInit isrc ialpha SrcDeclAngle point0 locals in
  if negb i.1 then
    Ret (i.2.1.1, mkTLState i.2.1.2 point1 point2 inflray uAllSources 0 Nsteps i.2.2)
  else
    let inflray' := Init_Influence inflray i.2.1.2 ialpha i.2.2 in
    let u_ := Int32.mul (Int32.mul isrc (NRz_per_range inflray')) NRr in
    match field_loop (Z.to_nat (Int32.sub MaxN 1)) u_
            (mkTLState i.2.1.2 point1 point2 inflray' uAllSources 0 Nsteps
               (set_iSmallStepCtr 0 i.2.2)) with
    | Bail out => Bail out
    | Ret s => Ret (i.2.1.1, s)
    end.

End Main.
Arguments Bail {_}.
Arguments Ret {_}.
Arguments tl_point0 {_ _ _ _}.
Arguments tl_point1 {_ _ _ _}.
Arguments tl_point2 {_ _ _ _}.
Arguments tl_inflray {_ _ _ _}.
Arguments tl_u {_ _ _ _}.
Arguments tl_is {_ _ _ _}.
Arguments tl_Nsteps {_ _ _ _}.
Arguments tl_locals {_ _ _ _}.
End Main.

(** ** [main.hpp]: the pressure field of a TL run *)

Module TL.
Section TL.
Context `{RealOps}.

(** Declared in headers outside the sources at hand. [ScalePressure] is
    given the field and the offset of the part that [u] points to, and
    returns the field as it leaves it. *)
Variable SSPStructure : Type.
Variable BeamStructure : Type.
Variable Compute_NRz_per_range : Common.Position -> BeamStructure -> Z.
Variable EvaluateSSPCOnly : vec2 -> real -> SSPStructure -> Z -> Z -> cpx * Z * Z.
Variable ScalePressure : real -> real -> (Z -> real) -> list cpx -> Z -> Z -> Z -> string ->
  real -> list cpx.

(** [InitTLMode]: the field, [n] complex numbers, all zero. *)
Definition InitTLMode (Pos : Common.Position) (Beam : BeamStructure) : list cpx :=
  let NRz_per_range := Compute_NRz_per_range Pos Beam in
  let n := SizeT.wrap (Int32.mul (Int32.mul (Common.NSz Pos) NRz_per_range)
                         (Common.NRr Pos)) in
  replicate (Z.to_nat n) (r_lit 0, r_lit 0).

(** What [FinalizeTLMode] asks of the direct-access file [SHDFile]: to go to
    a record, and to write a value. *)
Inductive SHDEvent : Type :=
  | SHDrec (IRec : Z)
  | SHDwrite (v : cpx).

(** [for(int32_t r = 0; r < Pos->NRr; ++r) DOFWRITEV(...)], with [n] turns
    to go; [None] is a read outside the field. *)
Fixpoint write_record (n : nat) (r : Z) (uAllSources : list cpx) (row NRr : Z)
    : option (list SHDEvent) :=
  match n with
  | O => Some []
  | S n' =>
      v ← load uAllSources (Int32.add (Int32.mul row NRr) r);
      rest ← write_record n' (Int32.add r 1) uAllSources row NRr;
      Some (SHDwrite v :: rest)
  end.

(** [for(int32_t Irz1 = 0; Irz1 < NRz_per_range; ++Irz1)]. *)
Fixpoint write_source (n : nat) (Irz1 IRec : Z) (uAllSources : list cpx)
    (isrc NRz_per_range NRr : Z) : option (list SHDEvent) :=
  match n with
  | O => Some []
  | S n' =>
      values ← write_record (Z.to_nat NRr) 0 uAllSources
                 (Int32.add (Int32.mul isrc NRz_per_range) Irz1) NRr;
      rest ← write_source n' (Int32.add Irz1 1) (Int32.add IRec 1) uAllSources isrc
               NRz_per_range NRr;
      Some (SHDrec IRec :: values ++ rest)
  end.

(** The field after the call of [ScalePressure] for the source [isrc]. *)
Definition scale_source (Pos : Common.Position) (NRz_per_range : Z) (Dalpha freq0 : real)
    (ssp : SSPStructure) (RunType : string) (isrc : Z) (uAllSources : list cpx) : list cpx :=
  let ccpx := (EvaluateSSPCOnly (mkvec2 (r_lit 0) (Common.Sz Pos isrc)) freq0 ssp 0 0).1.1 in
  ScalePressure Dalpha ccpx.1 (Common.Rr Pos) uAllSources
    (Int32.mul (Int32.mul isrc NRz_per_range) (Common.NRr Pos))
    NRz_per_range (Common.NRr Pos) RunType freq0.

(** [for(int32_t isrc = 0; isrc < Pos->NSz; ++isrc)]. *)
Fixpoint write_sources (n : nat) (isrc : Z) (uAllSources : list cpx) (Pos : Common.Position)
    (NRz_per_range : Z) (Dalpha freq0 : real) (ssp : SSPStructure) (RunType : string)
    : option (list SHDEvent) :=
  match n with
  | O => Some []
  | S n' =>
      let u := scale_source Pos NRz_per_range Dalpha freq0 ssp RunType isrc uAllSources in
      let IRec := Int32.add 10 (Int32.mul NRz_per_range isrc) in
      records ← write_source (Z.to_nat NRz_per_range) 0 IRec u isrc NRz_per_range
                  (Common.NRr Pos);
      rest ← write_sources n' (Int32.add isrc 1) u Pos NRz_per_range Dalpha freq0 ssp RunType;
      Some (records ++ rest)
  end.

(** [FinalizeTLMode]. The body names [Pos], [NRz_per_range], [Angles],
    [freqinfo], [ssp] and [Beam], which it does not declare: what it reads of
    them are parameters here. *)
Definition FinalizeTLMode (uAllSources : list cpx) (Pos : Common.Position)
    (NRz_per_range : Z) (Dalpha freq0 : real) (ssp : SSPStructure) (RunType : string)
    : option (list SHDEvent) :=
  write_sources (Z.to_nat (Common.NSz Pos)) 0 uAllSources Pos NRz_per_range Dalpha freq0 ssp
    RunType.

End TL.
End TL.

Module TLSpec.
Section TLSpec.
Context `{RealOps}.
Variable SSPStructure : Type.
Variable EvaluateSSPCOnly : vec2 -> real -> SSPStructure -> Z -> Z -> cpx * Z * Z.
Variable ScalePressure : real -> real -> (Z -> real) -> list cpx -> Z -> Z -> Z -> string ->
  real -> list cpx.

(** The field when the records of the source [isrc] are written: scaled for
    the sources [0 .. isrc], one after the other. *)
Fixpoint scaled (Pos : Common.Position) (NRz_per_range : Z) (Dalpha freq0 : real)
    (ssp : SSPStructure) (RunType : string) (uAllSources : list cpx) (isrc : nat)
    : list cpx :=
  match isrc with
  | O => TL.scale_source SSPStructure EvaluateSSPCOnly ScalePressure Pos NRz_per_range
           Dalpha freq0 ssp RunType 0 uAllSources
  | S i =>
      TL.scale_source SSPStructure EvaluateSSPCOnly ScalePressure Pos NRz_per_range Dalpha
        freq0 ssp RunType (Z.of_nat (S i))
        (scaled Pos NRz_per_range Dalpha freq0 ssp RunType uAllSources i)
  end.

(** Record [10 + row] of the file: the [NRr] values of the field from index
    [row * NRr] on. *)
Definition record (NRr : Z) (u : list cpx) (row : Z) : list TL.SHDEvent :=
  TL.SHDrec (10 + row)
  :: (TL.SHDwrite <$> take (Z.to_nat NRr) (drop (Z.to_nat (row * NRr)) u)).

End TLSpec.
End TLSpec.

(** ** The arrivals that the merge-disabled policy keeps *)

Module ArrivalsOrder.
Section ArrivalsOrder.
Context `{RealOps} `{!CpxAbs}.
Variable GetFieldAddr : Z -> Z -> Z -> Z -> Z -> Z -> Common.Position -> Z.

(** The record that a call writes when it appends. *)
Definition call_record {O3D : bool} (c : Arrivals.AddArrCall O3D) : Arrivals.Arrival :=
  Arrivals.new_arrival (Arrivals.c_Amp c) (Arrivals.c_Phase c) (Arrivals.c_delay c)
    (Arrivals.c_rinit c) (Arrivals.c_RcvrDeclAngle c) (Arrivals.c_RcvrAzimAngle c)
    (Arrivals.c_NumTopBnc c) (Arrivals.c_NumBotBnc c).

(** The records of the calls in [cs] that address the cell [base], in the
    order of the calls. *)
Fixpoint records_to {O3D : bool} (Pos : Common.Position) (base : Z)
    (cs : list (Arrivals.AddArrCall O3D)) : list Arrivals.Arrival :=
  match cs with
  | [] => []
  | c :: cs' =>
      if Arrivals.call_base GetFieldAddr Pos c =? base
      then call_record c :: records_to Pos base cs'
      else records_to Pos base cs'
  end.

End ArrivalsOrder.
End ArrivalsOrder.

(** ** The numeric interface in IEEE-754 arithmetic *)

(** IEEE-754 arithmetic, round to nearest even: [real] is binary64 (the
    default build) and [float] is binary32. *)
Module IEEE.

Definition of_Z (z : Z) : spec_float := binary_normalize 53 1024 z 0 false.

(** A decimal literal: the quotient of two integers that binary64 holds
    exactly, correctly rounded. *)
Definition lit (q : Q) : spec_float :=
  SFdiv 53 1024 (of_Z (Qnum q)) (of_Z (Zpos (Qden q))).

(** The conversion [(float)x] and the promotion of a [float] to [double]. *)
Definition narrow (v : spec_float) : spec_float :=
  match v with
  | S754_finite s m e => binary_round 24 128 s m e
  | _ => v
  end.

Definition widen (v : spec_float) : spec_float :=
  match v with
  | S754_finite s m e => binary_round 53 1024 s m e
  | _ => v
  end.

(** [(int)x]: truncation toward zero; an invalid conversion gives the x86
    "integer indefinite" value. *)
Definition to_int (v : spec_float) : Z :=
  match v with
  | S754_zero _ => 0
  | S754_finite s m e =>
      Int32.wrap (cond_Zopp s (if 0 <=? e then Zpos m * 2 ^ e else Zpos m / 2 ^ (- e)))
  | _ => Int32.min_signed
  end.

Definition ops : RealOps := {|
  real := spec_float;
  float := spec_float;
  r_lit := lit;
  r_add := SFadd 53 1024;
  r_sub := SFsub 53 1024;
  r_mul := SFmul 53 1024;
  r_div := SFdiv 53 1024;
  r_neg := SFopp;
  r_abs := SFabs;
  r_ltb := SFltb;
  r_leb := SFleb;
  r_to_int := to_int;
  f_zero := S754_zero false;
  f_add := SFadd 24 128;
  f_mul := SFmul 24 128;
  f_div := SFdiv 24 128;
  f_of_r := narrow;
  r_of_f := widen
|}.

(** A mathematical library over binary64: the square root is the correctly
    rounded one, the modulus of a complex number is [sqrt(re*re + im*im)], and
    sine and cosine are truncated Maclaurin series. Any other library is an
    instance of [LibM] and [CpxAbs] as well. *)
Definition poly (cs : list Q) (v : spec_float) : spec_float :=
  foldr (fun cf acc => SFadd 53 1024 (lit cf) (SFmul 53 1024 v acc)) (S754_zero false) cs.

Definition sin (v : spec_float) : spec_float :=
  SFmul 53 1024 v
    (poly [1; - (1 # 6); 1 # 120; - (1 # 5040)]%Q (SFmul 53 1024 v v)).

Definition cos (v : spec_float) : spec_float :=
  poly [1; - (1 # 2); 1 # 24; - (1 # 720)]%Q (SFmul 53 1024 v v).

Definition pi : spec_float := lit (3141592653589793 # 1000000000000000).

Definition libm : @LibM ops := {|
  m_sqrt := SFsqrt 53 1024 : @real ops -> @real ops;
  m_sin := sin : @real ops -> @real ops;
  m_cos := cos : @real ops -> @real ops;
  REAL_PI := pi : @real ops;
  RadDeg := SFdiv 53 1024 (of_Z 180) pi : @real ops
|}.

Definition cabs : @CpxAbs ops := {|
  m_cabs := fun z : @real ops * @real ops =>
    SFsqrt 53 1024 (SFadd 53 1024 (SFmul 53 1024 z.1 z.1) (SFmul 53 1024 z.2 z.2))
|}.

End IEEE.

(** ** Predicates of the specification *)

Module ArrivalsSpec.
Section ArrivalsSpec.
Context `{RealOps} `{!CpxAbs}.

(** The table has [ncells] cells of [MaxNArr] slots, as [InitArrivalsMode]
    allocates it. *)
Definition table_ok (arrinfo : Arrivals.ArrInfo) (ncells : Z) : Prop :=
  0 <= Arrivals.MaxNArr arrinfo <= Int32.max_signed
  /\ Z.of_nat (length (Arrivals.NArr arrinfo)) = ncells
  /\ Z.of_nat (length (Arrivals.Arr arrinfo)) = ncells * Arrivals.MaxNArr arrinfo.

(** The capacity invariant: the stored count of every cell is at most
    [MaxNArr]. *)
Definition capacity_invariant (arrinfo : Arrivals.ArrInfo) : Prop :=
  Forall (fun count => count <= Arrivals.MaxNArr arrinfo) (Arrivals.NArr arrinfo).

(** The counts are also never negative. *)
Definition counts_ok (arrinfo : Arrivals.ArrInfo) : Prop :=
  Forall (fun count => 0 <= count <= Arrivals.MaxNArr arrinfo) (Arrivals.NArr arrinfo).

(** The record in slot [i] of the cell [base]. *)
Definition slot (arrinfo : Arrivals.ArrInfo) (base i : Z) : option Arrivals.Arrival :=
  load (Arrivals.Arr arrinfo) (base * Arrivals.MaxNArr arrinfo + i).

(** The stored amplitude, as the comparisons of [AddArr] see it. *)
Definition amp (rec : Arrivals.Arrival) : real := r_of_f (Arrivals.a rec).

(** Slot [i] of the cell holds an arrival weaker than the candidate [Amp]. *)
Definition stored_weaker (arrinfo : Arrivals.ArrInfo) (base : Z) (Amp : real) (i : Z) : Prop :=
  exists rec, 0 <= i < Arrivals.MaxNArr arrinfo /\ slot arrinfo base i = Some rec
    /\ r_ltb (amp rec) Amp = true.

(** Slot [k] of the cell holds a smallest amplitude: no stored amplitude is
    below it. *)
Definition holds_smallest (arrinfo : Arrivals.ArrInfo) (base k : Z) : Prop :=
  exists reck, 0 <= k < Arrivals.MaxNArr arrinfo /\ slot arrinfo base k = Some reck
    /\ forall j recj, 0 <= j < Arrivals.MaxNArr arrinfo -> slot arrinfo base j = Some recj ->
         r_ltb (amp recj) (amp reck) = false.

(** [w] is the smallest stored amplitude of the cell: it is stored, and it is
    at most every stored amplitude. *)
Definition smallest_amplitude (arrinfo : Arrivals.ArrInfo) (base : Z) (w : real) : Prop :=
  (exists m recm, 0 <= m < Arrivals.MaxNArr arrinfo /\ slot arrinfo base m = Some recm
     /\ amp recm = w)
  /\ forall j recj, 0 <= j < Arrivals.MaxNArr arrinfo -> slot arrinfo base j = Some recj ->
       r_leb w (amp recj) = true.

(** What the search loop of [AddArr] knows after the slots [0 .. N - 1]: either
    none of them is weaker than the candidate, or [st] is the first of the
    weakest among them, which is weaker than the candidate. *)
Definition scan_inv (Arr_ : list Arrivals.Arrival) (baseArr : Z) (Amp : real) (N : Z)
    (st : real * Z) : Prop :=
  (st = (Amp, -1)
   /\ forall j rec, 0 <= j < N -> load Arr_ (baseArr + j) = Some rec ->
        r_ltb (amp rec) Amp = false)
  \/ (exists rec, 0 <= st.2 < N /\ load Arr_ (baseArr + st.2) = Some rec
        /\ st.1 = amp rec /\ r_ltb (amp rec) Amp = true
        /\ forall j recj, 0 <= j < N -> load Arr_ (baseArr + j) = Some recj ->
             r_ltb (amp recj) (amp rec) = false).

(** A reserved index is below [MaxNArr] and below the count of its cell. *)
Definition reserved_ok (arrinfo : Arrivals.ArrInfo) (r : Arrivals.Reserved) : Prop :=
  0 <= Arrivals.r_Nt r < Arrivals.MaxNArr arrinfo
  /\ exists count, load (Arrivals.NArr arrinfo) (Arrivals.r_base r) = Some count
                   /\ Arrivals.r_Nt r < count.

(** What holds after [n] steps of the workers on a table of [ncells] cells
    that started with all counts zero: no count is above [n], the slots
    reserved so far are all different, and every record written is in its
    slot. *)
Definition shared_inv (ncells MaxNArr0 : Z) (n : Z) (s : Arrivals.Shared) : Prop :=
  table_ok (Arrivals.table s) ncells
  /\ Arrivals.MaxNArr (Arrivals.table s) = MaxNArr0
  /\ Forall (fun count => 0 <= count <= n) (Arrivals.NArr (Arrivals.table s))
  /\ Forall (reserved_ok (Arrivals.table s)) (Arrivals.written s ++ Arrivals.pending s)
  /\ NoDup (Arrivals.r_slot (Arrivals.table s)
            <$> (Arrivals.written s ++ Arrivals.pending s))
  /\ Forall (fun r => load (Arrivals.Arr (Arrivals.table s))
                        (Arrivals.r_slot (Arrivals.table s) r)
                      = Some (Arrivals.r_rec r))
       (Arrivals.written s).

(** The number of calls in [cs] that address the cell [base]. *)
Fixpoint calls_to {O3D : bool} (GetFieldAddr : Z -> Z -> Z -> Z -> Z -> Z -> Common.Position -> Z)
    (Pos : Common.Position) (base : Z) (cs : list (Arrivals.AddArrCall O3D)) : Z :=
  match cs with
  | [] => 0
  | c :: cs' =>
      (if Arrivals.call_base GetFieldAddr Pos c =? base then 1 else 0)
      + calls_to GetFieldAddr Pos base cs'
  end.

End ArrivalsSpec.
End ArrivalsSpec.

(** ** The order of the IEEE-754 numbers *)

Module IEEEKey.
(** The position of a number on the extended real line, for the proofs about
    the comparisons: the sign class, then the exponent, then the mantissa. *)
Definition key (v : spec_float) : option (Z * Z * Z) :=
  match v with
  | S754_nan => None
  | S754_infinity true => Some (-2, 0, 0)
  | S754_infinity false => Some (2, 0, 0)
  | S754_zero _ => Some (0, 0, 0)
  | S754_finite true m e => Some (-1, - e, - Zpos m)
  | S754_finite false m e => Some (1, e, Zpos m)
  end.

Definition klt (u v : Z * Z * Z) : Prop :=
  u.1.1 < v.1.1
  \/ (u.1.1 = v.1.1 /\ (u.1.2 < v.1.2 \/ (u.1.2 = v.1.2 /\ u.2 < v.2))).

Definition keq (u v : Z * Z * Z) : Prop :=
  u.1.1 = v.1.1 /\ u.1.2 = v.1.2 /\ u.2 = v.2.
End IEEEKey.

Module TraceSpec.
Section TraceSpec.
Context `{RealOps}.

(** The job addresses entries of the source and angle tables: [isz] and
    [ialpha] in every mode, [isx], [isy] and [ibeta] as well when the ocean
    is 3D. *)
Definition indexes_in_range (m : Mode) (rinit : Common.RayInitInfo (O3D m))
    (Pos : Common.Position) (Angles : Common.AnglesStructure) : Prop :=
  0 <= Common.isz rinit < Common.NSz Pos
  /\ 0 <= Common.ialpha rinit < Common.Nalpha Angles
  /\ (O3D m = true ->
      0 <= Common.isx rinit < Common.NSx Pos
      /\ 0 <= Common.isy rinit < Common.NSy Pos
      /\ 0 <= Common.ibeta rinit < Common.Nbeta Angles).

(** One of the four stopping predicates of [RayTerminate] holds. *)
Definition any_stop (f : Trace.StopFlags) : bool :=
  Trace.leftbox f || Trace.lostenergy f || Trace.escapedboundaries f || Trace.backward f.

End TraceSpec.
End TraceSpec.

(** ** Inputs for the examples

    A table of arrivals with one cell, and the flat waveguide of the
    specification's scenario: top boundary at depth 0, bottom at depth 100,
    sound speed 1500, one source at depth 50 and one on the top boundary. *)

Module Examples.
Section Examples.
Local Existing Instance IEEE.ops.
Local Existing Instance IEEE.libm.
Local Existing Instance IEEE.cabs.

Definition num (q : Q) : real := r_lit q.

Definition GetFieldAddr_1 : Z -> Z -> Z -> Z -> Z -> Z -> Common.Position -> Z :=
  fun _ _ _ _ _ _ _ => 0.

Definition sizeof_Arrival : Z := 40.

Definition Pos1 : Common.Position :=
  Common.mkPosition 1 1 2 1 1 1 (fun _ => num 0) (fun _ => num 0)
    (fun i => if i =? 0 then num 50 else num 0) (fun _ => num 1000).

Definition Angles1 : Common.AnglesStructure :=
  Common.mkAngles 1 1 (-1) (fun _ => num (1 # 10)) (fun _ => num 0).

(** Three launch angles and no single one: with the two sources of [Pos1],
    six jobs. *)
Definition Angles3 : Common.AnglesStructure :=
  Common.mkAngles 3 1 (-1) (fun i => num (Qmake i 10)) (fun _ => num 0).

(** Where two workers end, when worker 0 has taken the jobs 0, 2, 3 and 6 and
    worker 1 the jobs 1, 4, 5 and 7. *)
Definition two_workers_done : Jobs.Dispatch :=
  Jobs.mkDispatch 8 [false; false]
    [(0%nat, (0, 0)); (1%nat, (0, 1)); (0%nat, (0, 2));
     (0%nat, (1, 0)); (1%nat, (1, 1)); (1%nat, (1, 2))].

Definition rinit2D (isz_ : Z) : Common.RayInitInfo false :=
  Common.mkRayInitInfo false 0 0 isz_ 0 0 (mkvec2 (num 0) (num 0)) (num 0) (num 0).

(** A table before [InitArrivalsMode], with its storage budget in bytes. *)
Definition blank (ArrMemSize_ : Z) : Arrivals.ArrInfo :=
  Arrivals.mkArrInfo [] [] 0 false ArrMemSize_.

Definition stored (amp_ delay_re : Q) : Arrivals.Arrival :=
  Arrivals.mkArrival (f_of_r (num amp_)) (f_of_r (num 0))
    (f_of_r (num delay_re), f_of_r (num 0))
    (f_of_r (num 0)) (f_of_r (num 0)) (f_of_r (num 0)) (f_of_r (num 0)) 0 0.

(** Two cells of two slots in the merge-disabled policy, and where three
    calls on the first cell end: the second call wrote before the first and
    the third found the cell full. *)
Definition atomic_table0 : Arrivals.ArrInfo :=
  Arrivals.mkArrInfo (replicate 4 Arrivals.Arrival_zero) [0; 0] 2 false 160.

Definition atomic_end : Arrivals.Shared :=
  Arrivals.mkShared
    (Arrivals.mkArrInfo [stored 1 1; stored 2 5; Arrivals.Arrival_zero; Arrivals.Arrival_zero]
       [3; 0] 2 false 160)
    []
    [Arrivals.mkReserved 0 1 (stored 2 5); Arrivals.mkReserved 0 0 (stored 1 1)].

Definition call (amp_ delay_re : Q) : Arrivals.AddArrCall false :=
  Arrivals.mkCall false 0 0 0 (num amp_) (num 1) (num 0) (num delay_re, num 0)
    (rinit2D 0) (num 0) (num 0) 0 0.

(** One cell of two slots, both taken, in the merge-enabled policy. *)
Definition full_cell : Arrivals.ArrInfo :=
  Arrivals.mkArrInfo [stored 2 1; stored 1 5] [2] 2 true 80.

(** One cell of two slots, one taken, in the merge-enabled policy. *)
Definition half_cell : Arrivals.ArrInfo :=
  Arrivals.mkArrInfo [stored 1 1; Arrivals.Arrival_zero] [1] 2 true 80.

(** One cell of two slots in the merge-enabled policy; the arrival that it
    holds has the delay [(float)0.1]. *)
Definition tenth_cell : Arrivals.ArrInfo :=
  Arrivals.mkArrInfo [stored 1 (1 # 10); Arrivals.Arrival_zero] [1] 2 true 80.

(** One cell of one slot, taken, in the merge-disabled policy. *)
Definition atomic_cell : Arrivals.ArrInfo :=
  Arrivals.mkArrInfo [stored 1 1] [1] 1 false 40.

Definition MaxN : Z := 1000.

Definition bhc_max (u v : real) : real := if r_ltb u v then v else u.

Definition RayToOceanX (m : Mode) : VEC23 (R3D m) -> Trace.Origin m -> VEC23 (O3D m) :=
  match m return VEC23 (R3D m) -> Trace.Origin m -> VEC23 (O3D m) with
  | M2D => fun v _ => v
  | MNx2D => fun v org =>
      mkvec3 (r_add (x3 (Trace.org_xs org)) (r_mul (x2 v) (x2 (Trace.tradial org))))
             (r_add (y3 (Trace.org_xs org)) (r_mul (x2 v) (y2 (Trace.tradial org))))
             (y2 v)
  | M3D => fun v _ => v
  end.

Definition EvaluateSSP (m : Mode) (_ _ : VEC23 (O3D m)) (_ : Trace.Origin m) (_ : unit)
    (iSeg : Trace.SSPSegState) : Trace.SSPOutputs * Trace.SSPSegState :=
  (Trace.mkSSPOutputs (num 1500, num 0) (mkvec2 (num 0) (num 0)), iSeg).

Definition BinarySearchLEQ (_ : Z -> real) (_ _ _ : Z) (_ : real) : Z := 0.

(** The flat boundaries: the top at depth 0 with its normal pointing up, the
    bottom at depth 100 with its normal pointing down. *)
Definition GetBdrySeg (m : Mode) (_ : VEC23 (O3D m)) (_ : VEC23 (R3D m))
    (st : Trace.BdryStateTopBot m) (_ : Trace.BdryInfoTopBot m) (isTop : bool)
    : Trace.BdryStateTopBot m :=
  match m return Trace.BdryStateTopBot m -> Trace.BdryStateTopBot m with
  | M3D => fun st' =>
      Trace.mkBdryStateTopBot M3D (0, 0)
        (mkvec3 (num 0) (num 0) (if isTop then num 0 else num 100))
        (mkvec3 (num 0) (num 0) (if isTop then num (-1) else num 1))
  | M2D => fun st' =>
      Trace.mkBdryStateTopBot M2D (0, 0)
        (mkvec2 (num 0) (if isTop then num 0 else num 100))
        (mkvec2 (num 0) (if isTop then num (-1) else num 1))
  | MNx2D => fun st' =>
      Trace.mkBdryStateTopBot MNx2D (0, 0)
        (mkvec2 (num 0) (if isTop then num 0 else num 100))
        (mkvec2 (num 0) (if isTop then num (-1) else num 1))
  end st.

Definition point2D (tx amp_ : Q) : Trace.rayPt M2D :=
  Trace.mkrayPt M2D (mkvec2 (num 10) (num 50)) (mkvec2 (num tx) (num 0)) (num 1500)
    (num 0, num 0) (num amp_) (num 0) 0 0
    (mkvec2 (num 1) (num 0)) (mkvec2 (num 0) (num 1)) (num 0) (num 0).

Definition org2D : Trace.Origin M2D := Trace.mkOrigin M2D (mkvec2 (num 0) (num 50)) (mkvec2 (num 1) (num 0)).

Definition bds2D : Trace.BdryState M2D :=
  Trace.mkBdryState M2D
    (Trace.mkBdryStateTopBot M2D (0, 0) (mkvec2 (num 0) (num 0)) (mkvec2 (num 0) (num (-1))))
    (Trace.mkBdryStateTopBot M2D (0, 0) (mkvec2 (num 0) (num 100)) (mkvec2 (num 0) (num 1))).

Definition bdinfo2D : Trace.BdryInfo M2D :=
  Trace.mkBdryInfo M2D
    (Trace.mkBdryInfoTopBot M2D (2, 1) (fun i => mkvec2 (if i =? 0 then num (-1000) else num 1000) (num 0)))
    (Trace.mkBdryInfoTopBot M2D (2, 1) (fun i => mkvec2 (if i =? 0 then num (-1000) else num 1000) (num 100))).

Definition Beam2D : Trace.BeamStructure M2D :=
  Trace.mkBeamStructure M2D "CG" (mkvec2 (num 1000) (num 200)).

Definition beaminfo1 : Trace.BeamInfo :=
  Trace.mkBeamInfo 2
    (fun i => if i =? 0 then num (-180) else if i =? 2 then num 180 else num 1).

Definition freqinfo1 : Trace.FreqInfo := Trace.mkFreqInfo (num 100).

Definition iSeg0 : Trace.SSPSegState := Trace.mkSSPSegState 0 0 0 0.

End Examples.

(** The object representation of an [int32_t] on a little-endian platform,
    and its bytes counted from the low end. *)
Definition byte_of_Z (z : Z) : byte :=
  match Byte.of_N (Z.to_N (z mod 256)) with Some b => b | None => Byte.x00 end.

Definition le32 (z : Z) : list byte :=
  [byte_of_Z z; byte_of_Z (z / 256); byte_of_Z (z / 65536); byte_of_Z (z / 16777216)].

(** A record of one two-byte value and an array of two, a record of one
    byte, and an empty record. *)
Definition three_records : list UnformattedIO.Call :=
  [UnformattedIO.CWrite [Byte.x01; Byte.x02];
   UnformattedIO.CWriteArray 2 [[Byte.x03; Byte.x04]; [Byte.x05; Byte.x06]];
   UnformattedIO.CRec;
   UnformattedIO.CWrite [Byte.x07];
   UnformattedIO.CRec].

(** Two cells of two slots in the merge-enabled policy, before and after one
    call on the first cell. *)
Definition merge_table0 : @Arrivals.ArrInfo IEEE.ops :=
  Arrivals.mkArrInfo (replicate 4 Arrivals.Arrival_zero) [0; 0] 2 true 160.

Definition merge_table1 : @Arrivals.ArrInfo IEEE.ops :=
  Arrivals.mkArrInfo
    [stored 1 1; Arrivals.Arrival_zero; Arrivals.Arrival_zero; Arrivals.Arrival_zero]
    [1; 0] 2 true 160.

Section LoopExamples.
Local Existing Instance IEEE.ops.

(** The local variables of [MainRayMode] and [MainTLMode] that the functions
    of [trace.hpp] take by reference. *)
Record ray_locals : Type := mk_ray_locals {
  l_DistBegTop : real;
  l_DistBegBot : real;
  l_DistEndTop : real;
  l_DistEndBot : real;
  l_iSmallStepCtr : Z;
  l_iSeg : Trace.SSPSegState;
  l_bds : Trace.BdryState M2D
}.

Definition locals0 : ray_locals :=
  mk_ray_locals (num 50) (num 50) (num 50) (num 50) 0 iSeg0 bds2D.

Definition set_ctr (ctr : Z) (L : ray_locals) : ray_locals :=
  mk_ray_locals (l_DistBegTop L) (l_DistBegBot L) (l_DistEndTop L) (l_DistEndBot L) ctr
    (l_iSeg L) (l_bds L).

(** A ray that stays where it is, and meets the top at every other step. *)
Definition Step_still (point0 _ : Trace.rayPt M2D) (bds : Trace.BdryState M2D)
    (_ : Trace.BeamStructure M2D) (_ : Trace.Origin M2D) (_ : unit)
    (iSeg : Trace.SSPSegState) (ctr : Z) : Update.StepResult :=
  Update.mkStepResult point0 bds iSeg (ctr + 1) (Z.even ctr) false.

Definition Reflect_still (point1 _ : Trace.rayPt M2D) (_ : unit) (_ : bool) (_ _ : vec2)
    (_ : Update.ReflCurvature) (_ : real) (_ : unit) (_ : Trace.BeamStructure M2D)
    (_ : Trace.Origin M2D) (_ : unit) (iSeg : Trace.SSPSegState)
    : Trace.rayPt M2D * Trace.SSPSegState :=
  (point1, iSeg).

Definition flat_segment : Update.BdryPtFull :=
  Update.mkBdryPtFull (mkvec2 (num 1) (num 0)) (mkvec2 (num 0) (num (-1)))
    (mkvec2 (num 0) (num (-1))) (mkvec2 (num 1) (num 0)) (num 2000) (num 0).

Definition flat_bdinfo : Update.BdryInfo :=
  Update.mkBdryInfo (Update.mkBdryInfoTopBot "L" (fun _ => flat_segment))
    (Update.mkBdryInfoTopBot "L" (fun _ => flat_segment)).

Definition GetBdrySeg_flat (x_o t_o : vec2) (st : Trace.BdryStateTopBot M2D)
    (_ : Update.BdryInfoTopBot) (isTop : bool) : Trace.BdryStateTopBot M2D :=
  GetBdrySeg M2D x_o t_o st (Trace.itop bdinfo2D) isTop.

(** The three calls of [main.hpp], on [RayUpdate] and [RayTerminate] of
    [trace.hpp]. *)
Definition RayInit_ok (_ _ : Z) (SrcDeclAngle : real) (_ : Trace.rayPt M2D)
    (L : ray_locals) : bool * (real * Trace.rayPt M2D * ray_locals) :=
  (true, (SrcDeclAngle, point2D 1 1, L)).

Definition RayUpdate_call (point0 point1 point2 : Trace.rayPt M2D) (L : ray_locals)
    : Z * (Trace.rayPt M2D * Trace.rayPt M2D * ray_locals) :=
  let r := Update.RayUpdate unit unit unit unit (fun _ => tt) (fun _ => tt) Step_still
             Reflect_still GetBdrySeg_flat (fun v _ => v) (fun v _ => v)
             point0 point1 point2 (l_iSmallStepCtr L) org2D (l_iSeg L) (l_bds L) tt
             flat_bdinfo (Update.mkReflectionInfo unit tt tt) tt freqinfo1 Beam2D in
  (Update.numRaySteps r,
   (Update.up_point1 r, Update.up_point2 r,
    mk_ray_locals (l_DistBegTop L) (l_DistBegBot L) (Update.up_DistEndTop r)
      (Update.up_DistEndBot r) (Update.up_iSmallStepCtr r) (Update.up_iSeg r)
      (Update.up_bds r))).

Definition RayTerminate_call (point : Trace.rayPt M2D) (Nsteps is_ : Z) (L : ray_locals)
    : bool * (Z * ray_locals) :=
  let r := Trace.RayTerminate MaxN bhc_max RayToOceanX M2D point Nsteps is_
             (l_iSmallStepCtr L) (l_DistBegTop L) (l_DistBegBot L) (l_DistEndTop L)
             (l_DistEndBot L) org2D bdinfo2D Beam2D in
  (Trace.term_stop r,
   (Trace.term_Nsteps r,
    mk_ray_locals (Trace.term_DistBegTop r) (Trace.term_DistBegBot r) (l_DistEndTop L)
      (l_DistEndBot L) (l_iSmallStepCtr L) (l_iSeg L) (l_bds L))).

(** A field that counts the calls of [Step_Influence]. *)
Definition Step_Influence_count (_ _ : Trace.rayPt M2D) (infl : unit) (_ _ : Z) (u : Z)
    (L : ray_locals) : unit * Z * ray_locals :=
  (infl, u + 1, L).

End LoopExamples.

Section ReaderExamples.
Local Existing Instance IEEE.ops.

(** An environment file for the readers: the numbers and the vectors that
    are still to be read; vectors of [float], kept as they are read. *)
Definition env_file : Type := list (Z * list float).

Definition env_Read_int (f : env_file) : Z * env_file :=
  (match f with (n, _) :: _ => n | [] => 0 end, f).

Definition env_Read_vector (f : env_file) (x : list float) (n : Z) : list float * env_file :=
  (imap (fun i v =>
           if Z.of_nat i <? n then
             default v ((match f with (_, vals) :: _ => vals | [] => [] end) !! i)
           else v) x,
   tail f).

Definition env_allocate (n : Z) : list float := replicate (Z.to_nat n) f_zero.
Definition env_allocate_int32 (n : Z) : list Z := replicate (Z.to_nat n) 0.
Definition env_keep (x : list float) (_ : Z) : list float := x.
Definition env_no_echo (_ : list float) (_ : Z) : PrintFileEmu := [].

(** Three source depths, of which one is above the surface and one below
    the bottom at depth 100, and one receiver depth. *)
Definition depths_file : env_file :=
  [(3, [f_of_r (num (-5)); f_of_r (num 50); f_of_r (num 120)]); (1, [f_of_r (num 30)])].

Definition no_depths : SourceReceiver.Position float :=
  SourceReceiver.mkPosition float 0 0 [] [] None None None None.

End ReaderExamples.

Section FieldExamples.
Local Existing Instance IEEE.ops.

(** Two sources, and two receiver ranges at each of the two receiver depths
    of a source: a field of eight values. *)
Definition PosTL : Common.Position :=
  Common.mkPosition 1 1 2 2 2 1 (fun _ => num 0) (fun _ => num 0) (fun _ => num 50)
    (fun _ => num 1000).

Definition field8 : list cpx :=
  [(num 0, num 0); (num 1, num 0); (num 2, num 0); (num 3, num 0);
   (num 4, num 0); (num 5, num 0); (num 6, num 0); (num 7, num 0)].

Definition EvaluateSSPCOnly_flat (_ : vec2) (_ : real) (_ : unit) (iSegz iSegr : Z)
    : cpx * Z * Z :=
  ((num 1500, num 0), iSegz, iSegr).

(** A scaling that leaves the field as it is. *)
Definition ScalePressure_none (_ _ : real) (_ : Z -> real) (u : list cpx) (_ _ _ : Z)
    (_ : string) (_ : real) : list cpx := u.

End FieldExamples.

End Examples.

(** * Properties *)

(** ** Machine integers and memory *)

Lemma Int32_wrap_id (z : Z) : Int32.in_range z -> Int32.wrap z = z.
Proof.
  unfold Int32.in_range, Int32.min_signed, Int32.max_signed, Int32.wrap.
  intros Hz. rewrite Z.mod_small; lia.
Qed.

Lemma Int32_wrap_range (z : Z) : Int32.in_range (Int32.wrap z).
Proof.
  unfold Int32.in_range, Int32.min_signed, Int32.max_signed, Int32.wrap.
  pose proof (Z.mod_pos_bound (z + 2 ^ 31) (2 ^ 32)). lia.
Qed.

Lemma Int32_add_id (u v : Z) : Int32.in_range (u + v) -> Int32.add u v = u + v.
Proof. apply Int32_wrap_id. Qed.

Section Memory.
Context {A : Type}.
Implicit Types (mem : list A) (i j : Z) (v : A).

Lemma load_inv mem i v :
  load mem i = Some v -> 0 <= i < Z.of_nat (length mem) /\ mem !! Z.to_nat i = Some v.
Proof.
  unfold load. destruct (decide (0 <= i)) as [Hi|Hi]; [|discriminate].
  intros Hl. split; [|exact Hl]. apply lookup_lt_Some in Hl. lia.
Qed.

Lemma load_in_range mem i :
  0 <= i < Z.of_nat (length mem) -> exists v, load mem i = Some v.
Proof.
  intros Hi. unfold load. destruct (decide (0 <= i)); [|lia].
  destruct (lookup_lt_is_Some_2 mem (Z.to_nat i)) as [v Hv]; [lia|]. eauto.
Qed.

Lemma store_in_range mem i v :
  0 <= i < Z.of_nat (length mem) -> store mem i v = Some (<[Z.to_nat i := v]> mem).
Proof.
  intros Hi. unfold store. destruct (decide (0 <= i)); [|lia].
  destruct (decide (Z.to_nat i < length mem)%nat); [reflexivity|lia].
Qed.

Lemma store_inv mem i v mem' :
  store mem i v = Some mem' ->
  0 <= i < Z.of_nat (length mem) /\ mem' = <[Z.to_nat i := v]> mem.
Proof.
  unfold store. destruct (decide (0 <= i)); [|discriminate].
  destruct (decide (Z.to_nat i < length mem)%nat); [|discriminate].
  intros [= <-]. split; [lia|reflexivity].
Qed.

Lemma store_length mem i v mem' : store mem i v = Some mem' -> length mem' = length mem.
Proof. intros Hs. apply store_inv in Hs as [_ ->]. apply length_insert. Qed.

Lemma load_store_eq mem i v mem' : store mem i v = Some mem' -> load mem' i = Some v.
Proof.
  intros Hs. apply store_inv in Hs as [Hi ->]. unfold load.
  destruct (decide (0 <= i)); [|lia]. apply list_lookup_insert_eq. lia.
Qed.

Lemma load_store_ne mem i j v mem' :
  store mem i v = Some mem' -> j <> i -> load mem' j = load mem j.
Proof.
  intros Hs Hne. apply store_inv in Hs as [Hi ->]. unfold load.
  destruct (decide (0 <= j)); [|reflexivity]. apply list_lookup_insert_ne. lia.
Qed.

End Memory.

(** ** The comparison laws hold in both arithmetics *)

Section IEEELaws.
Import IEEEKey.

Ltac key_cases :=
  repeat match goal with
         | s : bool |- _ => destruct s
         end;
  unfold SFltb, SFleb, SFcompare, key, klt, keq; simpl;
  repeat match goal with
         | |- context [Z.compare ?u ?v] => destruct (Z.compare_spec u v)
         | |- context [Pos.compare_cont Eq ?u ?v] =>
             change (Pos.compare_cont Eq u v) with (Pos.compare u v);
             destruct (Pos.compare_spec u v)
         end;
  simpl;
  (split;
   [ intros Hc; try discriminate Hc;
     eexists _, _; (split; [reflexivity|split; [reflexivity|simpl; lia]])
   | intros (u & v & Hu & Hv & Hc); try discriminate Hu; try discriminate Hv;
     try reflexivity;
     injection Hu as <-; injection Hv as <-; simpl in Hc; exfalso; lia ]).

Lemma SFltb_key (v w : spec_float) :
  SFltb v w = true <-> exists p q, key v = Some p /\ key w = Some q /\ klt p q.
Proof. destruct v as [sv|sv| |sv mv ev], w as [sw|sw| |sw mw ew]; key_cases. Qed.

Lemma SFleb_key (v w : spec_float) :
  SFleb v w = true <->
  exists p q, key v = Some p /\ key w = Some q /\ (klt p q \/ keq p q).
Proof. destruct v as [sv|sv| |sv mv ev], w as [sw|sw| |sw mw ew]; key_cases. Qed.

Ltac key_order :=
  repeat match goal with
         | Hc : exists _, _ |- _ => destruct Hc as (? & Hc)
         | Hc : _ /\ _ |- _ => destruct Hc
         | Hc : SFltb _ _ = true |- _ => apply SFltb_key in Hc
         | Hc : SFleb _ _ = true |- _ => apply SFleb_key in Hc
         end;
  repeat match goal with
         | Hu : key ?v = Some ?p, Hv : key ?v = Some ?q |- _ =>
             rewrite Hu in Hv; injection Hv as <-
         end.

Lemma IEEE_ltb_trans (u v w : spec_float) :
  SFltb u v = true -> SFltb v w = true -> SFltb u w = true.
Proof.
  intros Huv Hvw. key_order. apply SFltb_key. eexists _, _.
  split; [eassumption|]. split; [eassumption|]. unfold klt in *. lia.
Qed.

Lemma IEEE_ltb_irrefl (u : spec_float) : SFltb u u = false.
Proof.
  destruct (SFltb u u) eqn:E; [|reflexivity]. key_order. unfold klt in *. lia.
Qed.

Lemma IEEE_ltb_not_leb (u v : spec_float) : SFltb u v = true -> SFleb v u = false.
Proof.
  intros Huv. destruct (SFleb v u) eqn:E; [|reflexivity]. key_order.
  unfold klt, keq in *. lia.
Qed.

Lemma IEEE_leb_not_ltb (u v : spec_float) : SFleb u v = true -> SFltb v u = false.
Proof.
  intros Huv. destruct (SFltb v u) eqn:E; [|reflexivity]. key_order.
  unfold klt, keq in *. lia.
Qed.

Lemma IEEE_leb_ltb_trans (u v w : spec_float) :
  SFleb u v = true -> SFltb v w = true -> SFltb u w = true.
Proof.
  intros Huv Hvw. key_order. apply SFltb_key. eexists _, _.
  split; [eassumption|]. split; [eassumption|]. unfold klt, keq in *. lia.
Qed.

End IEEELaws.

(** IEEE-754 comparison satisfies the laws, NaN included. *)
Lemma IEEE_laws : @RealLaws IEEE.ops.
Proof.
  split; simpl.
  - exact IEEE_ltb_irrefl.
  - exact IEEE_ltb_trans.
  - exact IEEE_ltb_not_leb.
  - exact IEEE_leb_not_ltb.
  - exact IEEE_leb_ltb_trans.
Qed.

(** Two more facts of IEEE-754 arithmetic: subtracting the literal 0 changes
    nothing, and what is below is not above. *)
Lemma IEEE_sub_0 (u : spec_float) : SFsub 53 1024 u (IEEE.lit 0) = u.
Proof. destruct u as [[|]|[|]| |s m e]; reflexivity. Qed.

Lemma IEEE_ltb_leb (u v : spec_float) : SFltb u v = true -> SFleb u v = true.
Proof.
  unfold SFltb, SFleb. destruct (SFcompare u v) as [[| |]|]; congruence.
Qed.

(** ** The arrival table *)

Section ArrivalsProps.
Context `{RealOps} `{!CpxAbs}.
Variable GetFieldAddr : Z -> Z -> Z -> Z -> Z -> Z -> Common.Position -> Z.
Variable sizeof_Arrival : Z.

Import Arrivals ArrivalsSpec.

Implicit Types (arrinfo : ArrInfo) (base Nt ncells : Z).

Lemma slot_in_range arrinfo ncells base i :
  table_ok arrinfo ncells -> 0 <= base < ncells -> 0 <= i < MaxNArr arrinfo ->
  0 <= base * MaxNArr arrinfo + i < Z.of_nat (length (Arr arrinfo)).
Proof. intros (HM & _ & ->) Hb Hi. nia. Qed.

Lemma count_in_range arrinfo ncells base :
  table_ok arrinfo ncells -> 0 <= base < ncells ->
  0 <= base < Z.of_nat (length (NArr arrinfo)).
Proof. intros (_ & -> & _) Hb. exact Hb. Qed.

Lemma counts_ok_load arrinfo base Nt :
  counts_ok arrinfo -> load (NArr arrinfo) base = Some Nt -> 0 <= Nt <= MaxNArr arrinfo.
Proof.
  intros Hc Hl. apply load_inv in Hl as [_ Hl].
  unfold counts_ok in Hc. rewrite Forall_lookup in Hc. exact (Hc _ _ Hl).
Qed.

Lemma counts_ok_store arrinfo base n NArr' :
  counts_ok arrinfo -> 0 <= n <= MaxNArr arrinfo ->
  store (NArr arrinfo) base n = Some NArr' ->
  Forall (fun count => 0 <= count <= MaxNArr arrinfo) NArr'.
Proof.
  intros Hc Hn Hs. apply store_inv in Hs as [_ ->]. apply Forall_insert; assumption.
Qed.

(** The search loop reads the slots [Nt .. Nt + n - 1] and returns either the
    index it started with or one of those it read. *)
Lemma weakest_scan_range (Arr_ : list Arrival) baseArr (n : nat) Nt (st : real * Z) :
  (forall i, Nt <= i < Nt + Z.of_nat n -> exists rec, load Arr_ (baseArr + i) = Some rec) ->
  exists st', weakest_scan Arr_ baseArr n Nt st = Some st'
    /\ (st'.2 = st.2 \/ Nt <= st'.2 < Nt + Z.of_nat n).
Proof.
  revert Nt st. induction n as [|n IH]; intros Nt st Hld; simpl.
  - exists st. split; [reflexivity|left; reflexivity].
  - destruct (Hld Nt) as [cur Hcur]; [lia|]. rewrite Hcur. simpl.
    edestruct (IH (Nt + 1)) as (st' & Hst' & Hr).
    { intros i Hi. apply Hld. lia. }
    exists st'. split; [exact Hst'|].
    destruct (r_ltb (r_of_f (a cur)) st.1); simpl in Hr; lia.
Qed.


Lemma IsSecondStepOfPair_total arrinfo ncells base Nt omega Phase_ delay_ :
  table_ok arrinfo ncells -> 0 <= base < ncells -> Nt <= MaxNArr arrinfo ->
  exists pair,
    IsSecondStepOfPair omega Phase_ delay_ (Arr arrinfo) (base * MaxNArr arrinfo) Nt
    = Some pair.
Proof.
  intros Hok Hb HNt. unfold IsSecondStepOfPair.
  destruct (1 <=? Nt) eqn:E; simpl; [|eauto].
  apply Z.leb_le in E.
  destruct (load_in_range (Arr arrinfo) (base * MaxNArr arrinfo + (Nt - 1))) as [last ->].
  { apply (slot_in_range arrinfo ncells); [assumption..|lia]. }
  simpl. eauto.
Qed.

(** In the merge-enabled branch no access leaves the table and the counts
    stay within the capacity. *)
Lemma AddArr_merging_ok {O3D : bool} arrinfo ncells base Amp omega Phase_ delay_
    (rinit : Common.RayInitInfo O3D) Rd Ra ntb nbb :
  table_ok arrinfo ncells -> counts_ok arrinfo -> 0 <= base < ncells ->
  exists arrinfo',
    AddArr_merging base Amp omega Phase_ delay_ rinit Rd Ra ntb nbb arrinfo = Some arrinfo'
    /\ table_ok arrinfo' ncells /\ counts_ok arrinfo'
    /\ AllowMerging arrinfo' = AllowMerging arrinfo
    /\ MaxNArr arrinfo' = MaxNArr arrinfo.
Proof.
  intros Hok Hc Hb. unfold AddArr_merging.
  destruct (load_in_range (NArr arrinfo) base) as [Nt HNt].
  { eapply count_in_range; eassumption. }
  rewrite HNt. simpl.
  pose proof (counts_ok_load _ _ _ Hc HNt) as HNtr.
  destruct (IsSecondStepOfPair_total arrinfo ncells base Nt omega Phase_ delay_)
    as [pair Hpair]; [assumption|assumption|lia|].
  rewrite Hpair. simpl.
  pose proof Hok as (HM & HlenN & HlenA).
  destruct pair; simpl.
  - (* merge *)
    assert (1 <= Nt) as HNt1.
    { unfold IsSecondStepOfPair in Hpair. destruct (1 <=? Nt) eqn:E; simpl in Hpair.
      - apply Z.leb_le in E. exact E.
      - discriminate. }
    assert (0 <= base * MaxNArr arrinfo + (Nt - 1) < Z.of_nat (length (Arr arrinfo))) as Hi.
    { apply (slot_in_range arrinfo ncells); [assumption..|lia]. }
    destruct (load_in_range _ _ Hi) as [old ->]. simpl.
    rewrite (store_in_range _ _ _ Hi). simpl.
    eexists. split; [reflexivity|].
    unfold set_Arr, set_NArr. repeat split; simpl; try assumption; try lia.
    rewrite length_insert. exact HlenA.
  - destruct (MaxNArr arrinfo <=? Nt) eqn:E.
    + (* the cell is full *)
      apply Z.leb_le in E.
      destruct (weakest_scan_range (Arr arrinfo) (base * MaxNArr arrinfo)
                  (Z.to_nat (MaxNArr arrinfo)) 0 (Amp, -1)) as (found & -> & Hr).
      { intros i Hi. apply load_in_range.
        apply (slot_in_range arrinfo ncells); [assumption..|lia]. }
      simpl. simpl in Hr.
      destruct (found.2 <? 0) eqn:E2.
      * exists arrinfo. repeat split; try assumption; try lia.
      * apply Z.ltb_ge in E2.
        assert (0 <= base * MaxNArr arrinfo + found.2 < Z.of_nat (length (Arr arrinfo))) as Hi.
        { apply (slot_in_range arrinfo ncells); [assumption..|lia]. }
        rewrite (store_in_range _ _ _ Hi). simpl.
        eexists. split; [reflexivity|].
        unfold set_Arr, set_NArr. repeat split; simpl; try assumption; try lia.
        rewrite length_insert. exact HlenA.
    + (* there is room *)
      apply Z.leb_gt in E.
      assert (0 <= base < Z.of_nat (length (NArr arrinfo))) as Hbi by lia.
      rewrite (store_in_range _ _ _ Hbi). simpl.
      assert (0 <= base * MaxNArr arrinfo + Nt < Z.of_nat (length (Arr arrinfo))) as Hi.
      { apply (slot_in_range arrinfo ncells); [assumption..|lia]. }
      rewrite (store_in_range _ _ _ Hi). simpl.
      eexists. split; [reflexivity|].
      unfold set_Arr, set_NArr, counts_ok. repeat split; simpl; try assumption; try lia.
      * rewrite length_insert. exact HlenN.
      * rewrite length_insert. exact HlenA.
      * apply Forall_insert; [exact Hc|].
        rewrite Int32_add_id; [lia|].
        unfold Int32.in_range, Int32.min_signed, Int32.max_signed in *. lia.
Qed.


Lemma run_call_merging_ok {O3D : bool} Pos arrinfo ncells (c : AddArrCall O3D) :
  AllowMerging arrinfo = true -> table_ok arrinfo ncells -> counts_ok arrinfo ->
  0 <= call_base GetFieldAddr Pos c < ncells ->
  exists arrinfo',
    run_call GetFieldAddr Pos arrinfo c = Some arrinfo'
    /\ AllowMerging arrinfo' = true /\ table_ok arrinfo' ncells /\ counts_ok arrinfo'
    /\ MaxNArr arrinfo' = MaxNArr arrinfo.
Proof.
  intros Hm Hok Hc Hb. unfold run_call, AddArr. rewrite Hm.
  edestruct (AddArr_merging_ok (O3D := O3D) arrinfo ncells) as (arrinfo' & Hr & ? & ? & Hm' & ?);
    [eassumption..|].
  unfold call_base in Hb. exists arrinfo'. rewrite Hr, Hm'. auto.
Qed.

Lemma run_calls_merging_ok {O3D : bool} Pos (cs : list (AddArrCall O3D)) arrinfo ncells :
  AllowMerging arrinfo = true -> table_ok arrinfo ncells -> counts_ok arrinfo ->
  Forall (fun c => 0 <= call_base GetFieldAddr Pos c < ncells) cs ->
  exists arrinfo',
    run_calls GetFieldAddr Pos arrinfo cs = Some arrinfo'
    /\ table_ok arrinfo' ncells /\ counts_ok arrinfo'
    /\ MaxNArr arrinfo' = MaxNArr arrinfo.
Proof.
  revert arrinfo. induction cs as [|c cs IH]; intros arrinfo Hm Hok Hc Hcs; simpl.
  - eauto.
  - apply Forall_cons in Hcs as [Hb Hcs].
    destruct (run_call_merging_ok Pos arrinfo ncells c) as (arrinfo1 & -> & ? & ? & ? & HM1);
      [assumption..|].
    simpl. rewrite <- HM1. apply IH; assumption.
Qed.

Lemma counts_ok_capacity arrinfo : counts_ok arrinfo -> capacity_invariant arrinfo.
Proof.
  intros Hc. unfold capacity_invariant. eapply Forall_impl; [exact Hc|].
  intros count Hcount. simpl in Hcount. lia.
Qed.

(** [InitArrivalsMode] succeeds and allocates a well-formed, empty table when
    there is a cell, the cells fit the address space and the capacity fits an
    [int32_t]. *)
Lemma InitArrivalsMode_ok arrinfo maxThreads ThreeD Pos PRTFile :
  0 < sizeof_Arrival -> 0 < nSrcsRcvrs ThreeD Pos ->
  nSrcsRcvrs ThreeD Pos * sizeof_Arrival < 2 ^ 64 ->
  0 <= ArrMemSize arrinfo < 2 ^ 64 ->
  ArrMemSize arrinfo / (nSrcsRcvrs ThreeD Pos * sizeof_Arrival) <= Int32.max_signed ->
  exists arrinfo0 out,
    InitArrivalsMode sizeof_Arrival arrinfo maxThreads ThreeD Pos PRTFile
    = Some (arrinfo0, out)
    /\ AllowMerging arrinfo0 = (maxThreads =? 1)
    /\ MaxNArr arrinfo0 = ArrMemSize arrinfo / (nSrcsRcvrs ThreeD Pos * sizeof_Arrival)
    /\ table_ok arrinfo0 (nSrcsRcvrs ThreeD Pos) /\ counts_ok arrinfo0.
Proof.
  intros Hs Hn Hfit HM Hq. unfold InitArrivalsMode.
  set (n := nSrcsRcvrs ThreeD Pos) in *.
  assert (SizeT.mul n sizeof_Arrival = n * sizeof_Arrival) as Hd.
  { unfold SizeT.mul, SizeT.wrap. apply Z.mod_small. nia. }
  rewrite Hd. set (d := n * sizeof_Arrival) in *.
  assert (0 < d) as Hdpos by (subst d; nia).
  destruct (d =? 0) eqn:E; [apply Z.eqb_eq in E; lia|].
  assert (0 <= ArrMemSize arrinfo / d) as Hq0 by (apply Z.div_pos; lia).
  assert (Int32.wrap (ArrMemSize arrinfo / d) = ArrMemSize arrinfo / d) as Hw.
  { apply Int32_wrap_id. unfold Int32.in_range, Int32.min_signed, Int32.max_signed in *. lia. }
  rewrite Hw. set (M := ArrMemSize arrinfo / d) in *.
  assert (n * M <= ArrMemSize arrinfo) as HnM.
  { pose proof (Z.mul_div_le (ArrMemSize arrinfo) d Hdpos) as Hle. fold M in Hle.
    subst d. nia. }
  assert (SizeT.mul n (SizeT.wrap M) = n * M) as HnM'.
  { unfold SizeT.mul, SizeT.wrap. rewrite (Z.mod_small M) by nia.
    apply Z.mod_small. nia. }
  rewrite HnM'. do 2 eexists. split; [reflexivity|]. simpl.
  split; [reflexivity|]. split; [reflexivity|]. split.
  - unfold table_ok. simpl. rewrite !length_replicate. repeat split; lia.
  - unfold counts_ok. simpl. apply Forall_replicate. lia.
Qed.

(** The merge-disabled branch: the count is incremented whatever happens, and
    the only record written, if any, is the one in the reserved slot. *)
Lemma AddArr_atomic_ok {O3D : bool} arrinfo ncells base Nt Amp Phase_ delay_
    (rinit : Common.RayInitInfo O3D) Rd Ra ntb nbb :
  table_ok arrinfo ncells -> 0 <= base < ncells ->
  load (NArr arrinfo) base = Some Nt -> 0 <= Nt ->
  exists arrinfo',
    AddArr_atomic base Amp Phase_ delay_ rinit Rd Ra ntb nbb arrinfo = Some arrinfo'
    /\ NArr arrinfo' = <[Z.to_nat base := Int32.add Nt 1]> (NArr arrinfo)
    /\ Arr arrinfo' =
        (if MaxNArr arrinfo <=? Nt then Arr arrinfo
         else <[Z.to_nat (base * MaxNArr arrinfo + Nt) :=
                  new_arrival Amp Phase_ delay_ rinit Rd Ra ntb nbb]> (Arr arrinfo))
    /\ MaxNArr arrinfo' = MaxNArr arrinfo
    /\ AllowMerging arrinfo' = AllowMerging arrinfo
    /\ table_ok arrinfo' ncells.
Proof.
  intros Hok Hb HNt HNt0. unfold AddArr_atomic. rewrite HNt. simpl.
  pose proof Hok as (HM & HlenN & HlenA).
  assert (0 <= base < Z.of_nat (length (NArr arrinfo))) as Hbi by lia.
  rewrite (store_in_range _ _ _ Hbi). simpl.
  destruct (MaxNArr arrinfo <=? Nt) eqn:E.
  - eexists. split; [reflexivity|]. unfold set_NArr, table_ok. simpl.
    rewrite length_insert. repeat split; try reflexivity; lia.
  - apply Z.leb_gt in E.
    assert (0 <= base * MaxNArr arrinfo + Nt < Z.of_nat (length (Arr arrinfo))) as Hi.
    { apply (slot_in_range arrinfo ncells); [assumption..|lia]. }
    rewrite (store_in_range _ _ _ Hi). simpl.
    eexists. split; [reflexivity|]. unfold set_Arr, set_NArr, table_ok. simpl.
    rewrite !length_insert. repeat split; try reflexivity; lia.
Qed.

Lemma calls_to_nonneg {O3D : bool} Pos base (cs : list (AddArrCall O3D)) :
  0 <= calls_to GetFieldAddr Pos base cs <= Z.of_nat (length cs).
Proof.
  induction cs as [|c cs IH]; simpl; [lia|].
  destruct (call_base GetFieldAddr Pos c =? base); lia.
Qed.

(** In the merge-disabled policy the count of a cell is the number of calls
    addressed to it, as long as that number fits an [int32_t]. *)
Lemma run_calls_atomic_ok {O3D : bool} Pos (cs : list (AddArrCall O3D)) ncells :
  forall arrinfo (cnt : Z -> Z),
  AllowMerging arrinfo = false -> table_ok arrinfo ncells ->
  (forall b, 0 <= b < ncells ->
     load (NArr arrinfo) b = Some (cnt b)
     /\ 0 <= cnt b /\ cnt b + Z.of_nat (length cs) <= Int32.max_signed) ->
  Forall (fun c => 0 <= call_base GetFieldAddr Pos c < ncells) cs ->
  exists arrinfo',
    run_calls GetFieldAddr Pos arrinfo cs = Some arrinfo'
    /\ table_ok arrinfo' ncells
    /\ MaxNArr arrinfo' = MaxNArr arrinfo
    /\ forall b, 0 <= b < ncells ->
         load (NArr arrinfo') b = Some (cnt b + calls_to GetFieldAddr Pos b cs).
Proof.
  induction cs as [|c cs IH]; intros arrinfo cnt Hm Hok Hcnt Hcs; simpl.
  - exists arrinfo. repeat split; try apply Hok.
    intros b Hb. destruct (Hcnt b Hb) as (-> & _). f_equal. lia.
  - apply Forall_cons in Hcs as [Hb Hcs].
    set (base := call_base GetFieldAddr Pos c) in *.
    destruct (Hcnt base Hb) as (Hld & Hc0 & Hcmax). simpl in Hcmax.
    unfold run_call, AddArr. rewrite Hm. fold (call_base GetFieldAddr Pos c). fold base.
    edestruct (AddArr_atomic_ok (O3D := O3D) arrinfo ncells base (cnt base))
      as (arrinfo1 & -> & HN1 & _ & HM1 & Hm1 & Hok1); [eassumption..|].
    simpl.
    destruct (IH arrinfo1 (fun b => if b =? base then cnt b + 1 else cnt b))
      as (arrinfo' & Hrun & Hok' & HM' & Hcnt').
    + congruence.
    + exact Hok1.
    + intros b Hb'. destruct (Hcnt b Hb') as (Hldb & Hcb0 & Hcbmax). simpl in Hcbmax.
      rewrite HN1. unfold load in *.
      destruct (decide (0 <= b)); [|lia].
      destruct (b =? base) eqn:E.
      * apply Z.eqb_eq in E. subst b.
        rewrite list_lookup_insert_eq by (destruct Hok as (_ & HlenN & _); lia).
        rewrite Int32_add_id
          by (unfold Int32.in_range, Int32.min_signed, Int32.max_signed in *; lia).
        repeat split; lia.
      * apply Z.eqb_neq in E. rewrite list_lookup_insert_ne by lia.
        repeat split; [exact Hldb|lia|lia].
    + exact Hcs.
    + exists arrinfo'. rewrite Hrun. repeat split; try apply Hok'; [congruence|].
      intros b Hb'. rewrite (Hcnt' b Hb'). f_equal.
      rewrite (Z.eqb_sym b base). destruct (base =? b); lia.
Qed.

(** C10. In the merge-disabled branch the count of the cell is incremented;
    a record of [Arr] changes only if it is the one in the reserved slot [Nt]
    and [Nt < MaxNArr]; when [Nt >= MaxNArr] all records are as before. *)
Theorem AddArr_atomic_reserved_slot {O3D : bool} (itheta id ir : Z) (Amp omega Phase_ : real)
    (delay_ : cpx) (rinit : Common.RayInitInfo O3D) (Rd Ra : real) (ntb nbb : Z)
    (arrinfo : ArrInfo) (Pos : Common.Position) (ncells Nt : Z) :
  AllowMerging arrinfo = false ->
  table_ok arrinfo ncells ->
  0 <= GetFieldAddr (Common.isx rinit) (Common.isy rinit) (Common.isz rinit) itheta id ir Pos
    < ncells ->
  load (NArr arrinfo)
    (GetFieldAddr (Common.isx rinit) (Common.isy rinit) (Common.isz rinit) itheta id ir Pos)
  = Some Nt ->
  0 <= Nt ->
  exists arrinfo',
    AddArr GetFieldAddr itheta id ir Amp omega Phase_ delay_ rinit Rd Ra ntb nbb arrinfo Pos
    = Some arrinfo'
    /\ load (NArr arrinfo')
         (GetFieldAddr (Common.isx rinit) (Common.isy rinit) (Common.isz rinit) itheta id ir Pos)
       = Some (Int32.add Nt 1)
    /\ (forall i, load (Arr arrinfo') i <> load (Arr arrinfo) i ->
          i = GetFieldAddr (Common.isx rinit) (Common.isy rinit) (Common.isz rinit)
                itheta id ir Pos * MaxNArr arrinfo + Nt
          /\ Nt < MaxNArr arrinfo)
    /\ (Nt < MaxNArr arrinfo ->
        slot arrinfo'
          (GetFieldAddr (Common.isx rinit) (Common.isy rinit) (Common.isz rinit) itheta id ir Pos)
          Nt
        = Some (new_arrival Amp Phase_ delay_ rinit Rd Ra ntb nbb))
    /\ (MaxNArr arrinfo <= Nt -> Arr arrinfo' = Arr arrinfo).
Proof.
  set (base := GetFieldAddr _ _ _ _ _ _ _).
  intros Hm Hok Hb HNt HNt0. unfold AddArr. rewrite Hm. fold base.
  destruct (AddArr_atomic_ok (O3D := O3D) arrinfo ncells base Nt Amp Phase_ delay_ rinit
              Rd Ra ntb nbb Hok Hb HNt HNt0) as (arrinfo' & Hr & HN & HA & HM & _ & Hok').
  exists arrinfo'. split; [exact Hr|].
  pose proof Hok as (HMr & HlenN & HlenA).
  split; [|split; [|split]].
  - rewrite HN. unfold load. destruct (decide (0 <= base)); [|lia].
    apply list_lookup_insert_eq. lia.
  - intros i Hi. rewrite HA in Hi.
    destruct (MaxNArr arrinfo <=? Nt) eqn:E; [congruence|].
    apply Z.leb_gt in E. split; [|exact E].
    destruct (decide (i = base * MaxNArr arrinfo + Nt)) as [|Hne]; [assumption|].
    exfalso. apply Hi. unfold load. destruct (decide (0 <= i)); [|reflexivity].
    apply list_lookup_insert_ne.
    assert (0 <= base * MaxNArr arrinfo + Nt) by nia. lia.
  - intros HNtM. unfold slot. rewrite HM, HA.
    destruct (MaxNArr arrinfo <=? Nt) eqn:E; [apply Z.leb_le in E; lia|].
    unfold load. destruct (decide (0 <= base * MaxNArr arrinfo + Nt)); [|nia].
    apply list_lookup_insert_eq.
    pose proof (slot_in_range arrinfo ncells base Nt Hok Hb). lia.
  - intros HNtM. rewrite HA.
    destruct (MaxNArr arrinfo <=? Nt) eqn:E; [reflexivity|apply Z.leb_gt in E; lia].
Qed.

Section Ordering.
Context `{!RealLaws}.

Lemma weakest_scan_spec (Arr_ : list Arrival) baseArr Amp (n : nat) N (st : real * Z) :
  0 <= N ->
  (forall i, 0 <= i < N + Z.of_nat n -> exists rec, load Arr_ (baseArr + i) = Some rec) ->
  scan_inv Arr_ baseArr Amp N st ->
  exists st', weakest_scan Arr_ baseArr n N st = Some st'
    /\ scan_inv Arr_ baseArr Amp (N + Z.of_nat n) st'.
Proof.
  revert N st. induction n as [|n IH]; intros N st HN Hld Hinv; simpl.
  - exists st. split; [reflexivity|]. replace (N + Z.of_nat 0) with N by lia. exact Hinv.
  - destruct (Hld N) as [cur Hcur]; [lia|]. rewrite Hcur. simpl.
    replace (N + Z.of_nat (S n)) with ((N + 1) + Z.of_nat n) by lia.
    apply IH; [lia|intros i Hi; apply Hld; lia|].
    fold (amp cur).
    destruct Hinv as [[-> Hnone]|(rec & Hk & Hrec & Hw & Hlt & Hmin)]; simpl.
    + destruct (r_ltb (amp cur) Amp) eqn:E.
      * right. exists cur. simpl. repeat split; try assumption; try lia.
        intros j recj Hj Hrecj.
        destruct (decide (j = N)) as [->|Hne].
        -- rewrite Hcur in Hrecj. injection Hrecj as <-. apply r_ltb_irrefl.
        -- destruct (r_ltb (amp recj) (amp cur)) eqn:E2; [|reflexivity].
           rewrite <- (Hnone j recj); [|lia|assumption].
           symmetry. eapply r_ltb_trans; eassumption.
      * left. split; [reflexivity|].
        intros j recj Hj Hrecj.
        destruct (decide (j = N)) as [->|Hne].
        -- rewrite Hcur in Hrecj. injection Hrecj as <-. exact E.
        -- apply (Hnone j); [lia|assumption].
    + rewrite Hw.
      destruct (r_ltb (amp cur) (amp rec)) eqn:E.
      * right. exists cur. simpl. repeat split; try assumption; try lia.
        -- eapply r_ltb_trans; eassumption.
        -- intros j recj Hj Hrecj.
           destruct (decide (j = N)) as [->|Hne].
           ++ rewrite Hcur in Hrecj. injection Hrecj as <-. apply r_ltb_irrefl.
           ++ destruct (r_ltb (amp recj) (amp cur)) eqn:E2; [|reflexivity].
              rewrite <- (Hmin j recj); [|lia|assumption].
              symmetry. eapply r_ltb_trans; eassumption.
      * right. exists rec. destruct st as [w k]. simpl in *.
        repeat split; try assumption; try lia.
        intros j recj Hj Hrecj.
        destruct (decide (j = N)) as [->|Hne].
        -- rewrite Hcur in Hrecj. injection Hrecj as <-. exact E.
        -- apply (Hmin j); [lia|assumption].
Qed.

(** C3. In the merge-enabled policy, when the candidate does not merge and
    the cell holds [MaxNArr] arrivals, the count stays as it is and:
    if some stored amplitude is below the candidate's, the candidate replaces
    the arrival in a slot that holds the smallest stored amplitude; if none
    is, the table is left as it was. For the smallest stored amplitude [w],
    the first case is the case [w < Amp]. *)
Theorem AddArr_full_cell_replaces_weakest {O3D : bool} (itheta id ir : Z)
    (Amp omega Phase_ : real) (delay_ : cpx) (rinit : Common.RayInitInfo O3D)
    (Rd Ra : real) (ntb nbb : Z) (arrinfo : ArrInfo) (Pos : Common.Position) (ncells : Z) :
  AllowMerging arrinfo = true ->
  table_ok arrinfo ncells ->
  0 <= GetFieldAddr (Common.isx rinit) (Common.isy rinit) (Common.isz rinit) itheta id ir Pos
    < ncells ->
  load (NArr arrinfo)
    (GetFieldAddr (Common.isx rinit) (Common.isy rinit) (Common.isz rinit) itheta id ir Pos)
  = Some (MaxNArr arrinfo) ->
  IsSecondStepOfPair omega Phase_ delay_ (Arr arrinfo)
    (GetFieldAddr (Common.isx rinit) (Common.isy rinit) (Common.isz rinit) itheta id ir Pos
     * MaxNArr arrinfo) (MaxNArr arrinfo)
  = Some false ->
  exists arrinfo',
    AddArr GetFieldAddr itheta id ir Amp omega Phase_ delay_ rinit Rd Ra ntb nbb arrinfo Pos
    = Some arrinfo'
    /\ NArr arrinfo' = NArr arrinfo
    /\ ((exists i, stored_weaker arrinfo
                     (GetFieldAddr (Common.isx rinit) (Common.isy rinit) (Common.isz rinit)
                        itheta id ir Pos) Amp i) ->
        exists k,
          holds_smallest arrinfo
            (GetFieldAddr (Common.isx rinit) (Common.isy rinit) (Common.isz rinit)
               itheta id ir Pos) k
          /\ stored_weaker arrinfo
               (GetFieldAddr (Common.isx rinit) (Common.isy rinit) (Common.isz rinit)
                  itheta id ir Pos) Amp k
          /\ Arr arrinfo' =
             <[Z.to_nat (GetFieldAddr (Common.isx rinit) (Common.isy rinit)
                           (Common.isz rinit) itheta id ir Pos * MaxNArr arrinfo + k) :=
                 new_arrival Amp Phase_ delay_ rinit Rd Ra ntb nbb]> (Arr arrinfo))
    /\ ((forall i, ~ stored_weaker arrinfo
                       (GetFieldAddr (Common.isx rinit) (Common.isy rinit) (Common.isz rinit)
                          itheta id ir Pos) Amp i) ->
        arrinfo' = arrinfo)
    /\ (forall w,
          smallest_amplitude arrinfo
            (GetFieldAddr (Common.isx rinit) (Common.isy rinit) (Common.isz rinit)
               itheta id ir Pos) w ->
          (r_ltb w Amp = true <->
           exists i, stored_weaker arrinfo
                       (GetFieldAddr (Common.isx rinit) (Common.isy rinit) (Common.isz rinit)
                          itheta id ir Pos) Amp i)).
Proof.
  set (base := GetFieldAddr _ _ _ _ _ _ _).
  intros Hm Hok Hb HNt Hpair. unfold AddArr. rewrite Hm. fold base.
  unfold AddArr_merging. rewrite HNt. simpl. rewrite Hpair. simpl.
  rewrite Z.leb_refl.
  pose proof Hok as (HMr & HlenN & HlenA).
  destruct (weakest_scan_spec (Arr arrinfo) (base * MaxNArr arrinfo) Amp
              (Z.to_nat (MaxNArr arrinfo)) 0 (Amp, -1)) as (found & -> & Hinv).
  { lia. }
  { intros i Hi. apply load_in_range.
    apply (slot_in_range arrinfo ncells); [assumption..|lia]. }
  { left. split; [reflexivity|]. intros j rec Hj. lia. }
  simpl. replace (0 + Z.of_nat (Z.to_nat (MaxNArr arrinfo))) with (MaxNArr arrinfo) in Hinv by lia.
  assert (forall w, smallest_amplitude arrinfo base w ->
            (r_ltb w Amp = true <-> exists i, stored_weaker arrinfo base Amp i)) as Hsmall.
  { intros w [(m & recm & Hmr & Hslot & <-) Hle]. split.
    - intros Hlt. exists m, recm. auto.
    - intros (i & rec & Hi & Hsi & Hlt). eapply r_leb_ltb_trans; [|exact Hlt].
      apply (Hle i); assumption. }
  destruct Hinv as [[-> Hnone]|(rec & Hk & Hrec & Hw & Hlt & Hmin)]; simpl.
  - (* no stored arrival is weaker: the candidate is dropped *)
    exists arrinfo. split; [reflexivity|]. split; [reflexivity|].
    split; [|split; [reflexivity|exact Hsmall]].
    intros (i & reci & Hi & Hsi & Hlti).
    rewrite (Hnone i reci Hi Hsi) in Hlti. discriminate.
  - destruct (found.2 <? 0) eqn:E; [apply Z.ltb_lt in E; lia|].
    assert (0 <= base * MaxNArr arrinfo + found.2 < Z.of_nat (length (Arr arrinfo))) as Hi.
    { apply (slot_in_range arrinfo ncells); [assumption..|lia]. }
    rewrite (store_in_range _ _ _ Hi). simpl.
    eexists. split; [reflexivity|]. unfold set_Arr. simpl. split; [reflexivity|].
    split; [|split; [|exact Hsmall]].
    + intros _. exists found.2. split; [|split; [|reflexivity]].
      * exists rec. auto.
      * exists rec. auto.
    + intros Hnone. exfalso. apply (Hnone found.2). exists rec. auto.
Qed.

End Ordering.

End ArrivalsProps.

Section Merge.
Import Arrivals ArrivalsSpec.


End Merge.

(** ** Ray initialisation *)

Section RayInitProps.
Context `{RealOps} `{!LibM} `{!RealLaws}.
Variable SSPStructure : Type.
Variable BdryType : Type.
Variable BHC_PROGRAMNAME : string.
Variable DEBUG_LARGEVAL : real.
Variable EvaluateSSP : forall m : Mode, VEC23 (O3D m) -> VEC23 (O3D m) -> Trace.Origin m ->
  SSPStructure -> Trace.SSPSegState -> Trace.SSPOutputs * Trace.SSPSegState.
Variable BinarySearchLEQ : (Z -> real) -> Z -> Z -> Z -> real -> Z.
Variable GetBdrySeg : forall m : Mode, VEC23 (O3D m) -> VEC23 (R3D m) ->
  Trace.BdryStateTopBot m -> Trace.BdryInfoTopBot m -> bool -> Trace.BdryStateTopBot m.

Import Trace TraceSpec.

Local Abbreviation RayInit :=
  (Trace.RayInit SSPStructure BdryType BHC_PROGRAMNAME DEBUG_LARGEVAL EvaluateSSP
     BinarySearchLEQ GetBdrySeg).

Lemma invalid_indexes_false m (rinit : Common.RayInitInfo (O3D m)) Pos Angles :
  invalid_indexes m rinit Pos Angles = false <-> indexes_in_range m rinit Pos Angles.
Proof.
  unfold invalid_indexes, indexes_in_range.
  rewrite !orb_false_iff, andb_false_iff, !orb_false_iff.
  rewrite !Z.ltb_ge, !Z.leb_gt. destruct (O3D m); intuition (try discriminate; lia).
Qed.

Lemma invalid_indexes_true m (rinit : Common.RayInitInfo (O3D m)) Pos Angles :
  invalid_indexes m rinit Pos Angles = true <-> ~ indexes_in_range m rinit Pos Angles.
Proof.
  rewrite <- invalid_indexes_false. destruct (invalid_indexes m rinit Pos Angles); split;
    intros; congruence.
Qed.


End RayInitProps.

(** ** Ray termination *)

Section RayTerminateProps.
Context `{RealOps}.
Variable MaxN : Z.
Variable bhc_max : real -> real -> real.
Variable RayToOceanX : forall m : Mode, VEC23 (R3D m) -> Trace.Origin m -> VEC23 (O3D m).

Import Trace TraceSpec.

Local Abbreviation RayTerminate := (Trace.RayTerminate MaxN bhc_max RayToOceanX).
Local Abbreviation stop_flags := (Trace.stop_flags bhc_max RayToOceanX).

Lemma lostenergy_flag m (point : rayPt m) ctr DBT DBB DET DEB org bdinfo Beam :
  lostenergy (stop_flags m point ctr DBT DBB DET DEB org bdinfo Beam)
  = r_ltb (Amp point) (r_lit (5 # 1000)).
Proof. destruct m; reflexivity. Qed.

Lemma backward_flag m (point : rayPt m) ctr DBT DBB DET DEB org bdinfo Beam :
  backward (stop_flags m point ctr DBT DBB DET DEB org bdinfo Beam)
  = match m with MNx2D => true | _ => false end
    && r_ltb (vx (R3D m) (t point)) (r_lit 0).
Proof. destruct m; reflexivity. Qed.

Lemma RayTerminate_cases m (point : rayPt m) Nsteps is_ ctr DBT DBB DET DEB org bdinfo Beam :
  RayTerminate m point Nsteps is_ ctr DBT DBB DET DEB org bdinfo Beam
  = if any_stop (stop_flags m point ctr DBT DBB DET DEB org bdinfo Beam) then
      mkTermResult true
        (if O3D m && escaped0bdry (stop_flags m point ctr DBT DBB DET DEB org bdinfo Beam)
         then is_ else Int32.add is_ 1)
        DBT DBB []
    else if Int32.sub MaxN 3 <=? is_ then
      mkTermResult true is_ DBT DBB
        [Str "Warning in TraceRay: Insufficient storage for ray trajectory\n"]
    else mkTermResult false Nsteps DET DEB [].
Proof. reflexivity. Qed.

(** C6, as amended. The test for a ray that travels backward is made in the
    2D-in-3D runs only: [backward] is [point.t.x < 0] there and [false] in the
    2D and the 3D runs; when it holds, [RayTerminate] stops the ray. *)
Theorem RayTerminate_backward (m : Mode) (point : rayPt m) (Nsteps is_ ctr : Z)
    (DBT DBB DET DEB : real) (org : Origin m) (bdinfo : BdryInfo m)
    (Beam : BeamStructure m) :
  backward (stop_flags m point ctr DBT DBB DET DEB org bdinfo Beam)
  = match m with MNx2D => true | _ => false end
    && r_ltb (vx (R3D m) (t point)) (r_lit 0)
  /\ (backward (stop_flags m point ctr DBT DBB DET DEB org bdinfo Beam) = true ->
      term_stop (RayTerminate m point Nsteps is_ ctr DBT DBB DET DEB org bdinfo Beam)
      = true).
Proof.
  split; [apply backward_flag|].
  intros Hb. rewrite RayTerminate_cases. unfold any_stop. rewrite Hb, !orb_true_r.
  reflexivity.
Qed.

(** C7, as amended. In the 2D runs the ray has escaped the boundaries exactly
    when it was outside the top boundary at the previous and at the current
    step, or outside the bottom boundary at both. *)
Theorem escapedboundaries_2D (point : rayPt M2D) (ctr : Z) (DistBegTop DistBegBot
    DistEndTop DistEndBot : real) (org : Origin M2D) (bdinfo : BdryInfo M2D)
    (Beam : BeamStructure M2D) :
  escapedboundaries
    (stop_flags M2D point ctr DistBegTop DistBegBot DistEndTop DistEndBot org bdinfo Beam)
  = true
  <-> (r_ltb DistBegTop (r_lit 0) = true /\ r_ltb DistEndTop (r_lit 0) = true)
      \/ (r_ltb DistBegBot (r_lit 0) = true /\ r_ltb DistEndBot (r_lit 0) = true).
Proof.
  simpl. unfold escapedboundaries_2d. rewrite orb_true_iff, !andb_true_iff. reflexivity.
Qed.

(** C8, as amended. A stop by one of the four predicates records
    [Nsteps = is + 1] and prints nothing, except that with a 3D ocean an exit
    through the index-0 edge of the boundaries records [Nsteps = is]. When no
    predicate holds and [is >= MaxN - 3], the ray stops as well: the call
    returns [true] like any other stop, prints the warning about the storage,
    and records [Nsteps = is]. Otherwise the ray goes on, [Nsteps] is left as
    it was and the distances of the end of the step become those of its
    beginning. *)
Theorem RayTerminate_Nsteps (m : Mode) (point : rayPt m) (Nsteps is_ ctr : Z)
    (DBT DBB DET DEB : real) (org : Origin m) (bdinfo : BdryInfo m)
    (Beam : BeamStructure m) :
  Int32.in_range (is_ + 1) ->
  Int32.in_range (MaxN - 3) ->
  (any_stop (stop_flags m point ctr DBT DBB DET DEB org bdinfo Beam) = true ->
   RayTerminate m point Nsteps is_ ctr DBT DBB DET DEB org bdinfo Beam
   = mkTermResult true
       (if O3D m && escaped0bdry (stop_flags m point ctr DBT DBB DET DEB org bdinfo Beam)
        then is_ else is_ + 1)
       DBT DBB [])
  /\ (any_stop (stop_flags m point ctr DBT DBB DET DEB org bdinfo Beam) = false ->
      MaxN - 3 <= is_ ->
      RayTerminate m point Nsteps is_ ctr DBT DBB DET DEB org bdinfo Beam
      = mkTermResult true is_ DBT DBB
          [Str "Warning in TraceRay: Insufficient storage for ray trajectory\n"])
  /\ (any_stop (stop_flags m point ctr DBT DBB DET DEB org bdinfo Beam) = false ->
      is_ < MaxN - 3 ->
      RayTerminate m point Nsteps is_ ctr DBT DBB DET DEB org bdinfo Beam
      = mkTermResult false Nsteps DET DEB []).
Proof.
  intros His HMaxN. rewrite RayTerminate_cases.
  unfold Int32.add, Int32.sub. rewrite (Int32_wrap_id _ His), (Int32_wrap_id _ HMaxN).
  split; [|split].
  - intros ->. reflexivity.
  - intros -> Hb. apply Z.leb_le in Hb. rewrite Hb. reflexivity.
  - intros -> Hb. apply Z.leb_gt in Hb. rewrite Hb. reflexivity.
Qed.

Section Ordered.
Context `{!RealLaws}.


End Ordered.

End RayTerminateProps.

(** ** Job decoding *)

Section JobsProps.
Context `{RealOps}.
Import Jobs.

Lemma GetJobIndices_general (job : Z) (Pos : Common.Position)
    (Angles : Common.AnglesStructure) :
  Common.iSingle_alpha Angles < 0 -> 0 < Common.Nalpha Angles -> 0 <= job ->
  GetJobIndices job Pos Angles
  = Some (job / Common.Nalpha Angles <? Common.NSz Pos,
          job / Common.Nalpha Angles, job mod Common.Nalpha Angles).
Proof.
  intros Hs Hn Hj. unfold GetJobIndices.
  destruct (0 <=? Common.iSingle_alpha Angles) eqn:E; [apply Z.leb_le in E; lia|].
  destruct (Common.Nalpha Angles =? 0) eqn:E0; [apply Z.eqb_eq in E0; lia|].
  destruct (Common.Nalpha Angles =? -1) eqn:E1; [apply Z.eqb_eq in E1; lia|].
  rewrite andb_false_r. simpl.
  rewrite Z.quot_div_nonneg, Z.rem_mod_nonneg by lia. reflexivity.
Qed.

(** C9. Without a single launch angle, job [j] is decoded into the source
    [j / Nalpha] and the angle [j mod Nalpha], and the worker is told to go on
    exactly when that source is below [NSz], that is when [j < NSz * Nalpha];
    every pair of a source and an angle is the decoding of exactly one job,
    [isrc * Nalpha + ialpha], which is below [NSz * Nalpha]. With a single
    launch angle, job [j] is decoded into the source [j] and that angle. *)
Theorem GetJobIndices_decodes (Pos : Common.Position) (Angles : Common.AnglesStructure) :
  (forall job, Common.iSingle_alpha Angles < 0 -> 0 < Common.Nalpha Angles -> 0 <= job ->
     GetJobIndices job Pos Angles
     = Some (job / Common.Nalpha Angles <? Common.NSz Pos,
             job / Common.Nalpha Angles, job mod Common.Nalpha Angles)
     /\ (job / Common.Nalpha Angles < Common.NSz Pos
         <-> job < Common.NSz Pos * Common.Nalpha Angles))
  /\ (forall isrc ialpha,
        Common.iSingle_alpha Angles < 0 ->
        0 <= isrc < Common.NSz Pos -> 0 <= ialpha < Common.Nalpha Angles ->
        0 <= isrc * Common.Nalpha Angles + ialpha < Common.NSz Pos * Common.Nalpha Angles
        /\ GetJobIndices (isrc * Common.Nalpha Angles + ialpha) Pos Angles
           = Some (true, isrc, ialpha)
        /\ forall job, 0 <= job ->
             GetJobIndices job Pos Angles = Some (true, isrc, ialpha) ->
             job = isrc * Common.Nalpha Angles + ialpha)
  /\ (forall job, 0 <= Common.iSingle_alpha Angles ->
        GetJobIndices job Pos Angles
        = Some (job <? Common.NSz Pos, job, Common.iSingle_alpha Angles)).
Proof.
  split; [|split].
  - intros job Hs Hn Hj. split; [apply GetJobIndices_general; assumption|].
    pose proof (Z.div_mod job (Common.Nalpha Angles)) as Hdm.
    pose proof (Z.mod_pos_bound job (Common.Nalpha Angles) Hn) as Hmb.
    split; intros Hlt; nia.
  - intros isrc ialpha Hs Hi Ha. split; [nia|]. split.
    + rewrite GetJobIndices_general by nia.
      rewrite Z.div_add_l, Z.div_small, Z.add_0_r by lia.
      rewrite Z.add_comm, Z.mod_add, Z.mod_small by lia.
      destruct (isrc <? Common.NSz Pos) eqn:E; [reflexivity|apply Z.ltb_ge in E; lia].
    + intros job Hj. rewrite GetJobIndices_general by lia. intros [= _ <- <-].
      rewrite Z.mul_comm. apply Z.div_mod. lia.
  - intros job Hs. unfold GetJobIndices.
    destruct (0 <=? Common.iSingle_alpha Angles) eqn:E; [reflexivity|].
    apply Z.leb_gt in E. lia.
Qed.

End JobsProps.


(** ** The capacity of the table *)

Section InitProps.
Context `{RealOps} `{!CpxAbs}.
Variable sizeof_Arrival : Z.
Import Arrivals ArrivalsSpec.

(** X3. When the sizes fit their integer types, [InitArrivalsMode] gives every
    cell the capacity [MaxNArr = ArrMemSize / (nSrcsRcvrs * sizeof(Arrival))],
    allows merging exactly for one thread, allocates [nSrcsRcvrs * MaxNArr]
    zeroed records and [nSrcsRcvrs] zero counts, and prints the capacity. The
    records take no more than [ArrMemSize] bytes, and one more record per cell
    would take more. *)
Theorem InitArrivalsMode_capacity (arrinfo : ArrInfo) (maxThreads : Z) (ThreeD : bool)
    (Pos : Common.Position) (PRTFile : PrintFileEmu) :
  0 < sizeof_Arrival -> 0 < nSrcsRcvrs ThreeD Pos ->
  nSrcsRcvrs ThreeD Pos * sizeof_Arrival < 2 ^ 64 ->
  0 <= ArrMemSize arrinfo < 2 ^ 64 ->
  ArrMemSize arrinfo / (nSrcsRcvrs ThreeD Pos * sizeof_Arrival) <= Int32.max_signed ->
  let n := nSrcsRcvrs ThreeD Pos in
  let M := ArrMemSize arrinfo / (n * sizeof_Arrival) in
  InitArrivalsMode sizeof_Arrival arrinfo maxThreads ThreeD Pos PRTFile
  = Some (mkArrInfo (replicate (Z.to_nat (n * M)) Arrival_zero) (replicate (Z.to_nat n) 0)
            M (maxThreads =? 1) (ArrMemSize arrinfo),
          PRTFile ++ [Str "\n( Maximum # of arrivals = "; Int M; Str " )\n"])
  /\ n * M * sizeof_Arrival <= ArrMemSize arrinfo < n * (M + 1) * sizeof_Arrival.
Proof.
  intros Hs Hn Hfit HM Hq n M. subst n M. unfold InitArrivalsMode.
  set (n := nSrcsRcvrs ThreeD Pos) in *.
  assert (SizeT.mul n sizeof_Arrival = n * sizeof_Arrival) as Hd.
  { unfold SizeT.mul, SizeT.wrap. apply Z.mod_small. nia. }
  rewrite Hd. set (d := n * sizeof_Arrival) in *.
  assert (0 < d) as Hdpos by (subst d; nia).
  destruct (d =? 0) eqn:E; [apply Z.eqb_eq in E; lia|].
  assert (0 <= ArrMemSize arrinfo / d) as Hq0 by (apply Z.div_pos; lia).
  assert (Int32.wrap (ArrMemSize arrinfo / d) = ArrMemSize arrinfo / d) as Hw.
  { apply Int32_wrap_id. unfold Int32.in_range, Int32.min_signed, Int32.max_signed in *. lia. }
  rewrite Hw. set (M := ArrMemSize arrinfo / d) in *.
  pose proof (Z.mul_div_le (ArrMemSize arrinfo) d Hdpos) as Hle. fold M in Hle.
  pose proof (Z.mul_succ_div_gt (ArrMemSize arrinfo) d Hdpos) as Hgt. fold M in Hgt.
  assert (n * M <= ArrMemSize arrinfo) as HnM by (subst d; nia).
  assert (SizeT.mul n (SizeT.wrap M) = n * M) as HnM'.
  { unfold SizeT.mul, SizeT.wrap. rewrite (Z.mod_small M) by nia.
    apply Z.mod_small. nia. }
  rewrite HnM'. split; [reflexivity|]. subst d. nia.
Qed.

End InitProps.

(** ** The merge-disabled branch under several workers *)

Section AtomicProps.
Context `{RealOps} `{!CpxAbs}.
Import Arrivals ArrivalsSpec.

(** A call of the merge-disabled branch alone is a run of one or two steps. *)
Lemma AddArr_atomic_as_steps {O3D : bool} base Amp Phase_ delay_
    (rinit : Common.RayInitInfo O3D) Rd Ra ntb nbb arrinfo arrinfo' ps ws :
  AddArr_atomic base Amp Phase_ delay_ rinit Rd Ra ntb nbb arrinfo = Some arrinfo' ->
  exists ws', rtc atomic_step (mkShared arrinfo ps ws) (mkShared arrinfo' ps ws').
Proof.
  unfold AddArr_atomic. intros Hrun.
  destruct (load (NArr arrinfo) base) as [Nt|] eqn:Hl; simpl in Hrun; [|discriminate].
  destruct (store (NArr arrinfo) base (Int32.add Nt 1)) as [NArr'|] eqn:Hs;
    simpl in Hrun; [|discriminate].
  pose proof (fetch_add (mkShared arrinfo ps ws) base Nt NArr'
                (new_arrival Amp Phase_ delay_ rinit Rd Ra ntb nbb) Hl Hs) as Hstep.
  simpl in Hstep.
  destruct (MaxNArr arrinfo <=? Nt) eqn:E.
  - injection Hrun as <-. exists ws. apply rtc_once. exact Hstep.
  - destruct (store (Arr arrinfo) (base * MaxNArr arrinfo + Nt)
                (new_arrival Amp Phase_ delay_ rinit Rd Ra ntb nbb)) as [Arr'|] eqn:Hw;
      simpl in Hrun; [|discriminate].
    injection Hrun as <-.
    set (r := mkReserved base Nt (new_arrival Amp Phase_ delay_ rinit Rd Ra ntb nbb)) in *.
    pose proof (write_record (mkShared (set_NArr arrinfo NArr') (ps ++ [r]) ws) ps [] r Arr'
                  eq_refl Hw) as Hstep2.
    simpl in Hstep2. rewrite app_nil_r in Hstep2.
    exists (ws ++ [r]). eapply rtc_l; [exact Hstep|]. apply rtc_once. exact Hstep2.
Qed.

Lemma reserved_slot_inj arrinfo ncells r base Nt :
  table_ok arrinfo ncells -> reserved_ok arrinfo r ->
  0 <= base -> 0 <= Nt < MaxNArr arrinfo ->
  r_slot arrinfo r = base * MaxNArr arrinfo + Nt ->
  r_base r = base /\ r_Nt r = Nt.
Proof.
  intros _ (Hr & c & Hl & _) Hb HNt. unfold r_slot. intros Heq.
  apply load_inv in Hl as [Hrb _].
  destruct (Z.lt_trichotomy (r_base r) base) as [Hlt|[Heqb|Hgt]].
  - assert (0 <= (base - r_base r - 1) * MaxNArr arrinfo)
      by (apply Z.mul_nonneg_nonneg; lia).
    lia.
  - subst base. lia.
  - assert (0 <= (r_base r - base - 1) * MaxNArr arrinfo)
      by (apply Z.mul_nonneg_nonneg; lia).
    lia.
Qed.

Lemma shared_inv_step ncells M n s s' :
  n < Int32.max_signed ->
  shared_inv ncells M n s -> atomic_step s s' -> shared_inv ncells M (n + 1) s'.
Proof.
  intros Hn (Hok & HM & Hc & Hres & Hnd & Hw) Hstep.
  destruct Hstep as [s base Nt NArr' rec Hl Hs|s before after r Arr' Hp Hs].
  - pose proof Hl as Hl0. apply load_inv in Hl0 as [Hb Hlk].
    assert (0 <= Nt <= n) as HNt by (eapply (Forall_lookup_1 _ _ _ _ Hc), Hlk).
    assert (Int32.add Nt 1 = Nt + 1) as Hadd.
    { apply Int32_add_id. unfold Int32.in_range, Int32.min_signed, Int32.max_signed in *. lia. }
    rewrite Hadd in Hs.
    assert (forall r, reserved_ok (table s) r -> reserved_ok (set_NArr (table s) NArr') r)
      as Hmono.
    { intros r (Hr & c & Hlc & Hlt). split; [exact Hr|]. simpl.
      destruct (decide (r_base r = base)) as [Heq|Hne].
      - rewrite Heq in *. exists (Nt + 1). split; [eapply load_store_eq; exact Hs|].
        rewrite Hl in Hlc. injection Hlc as <-. lia.
      - exists c. split; [|exact Hlt]. rewrite (load_store_ne _ _ _ _ _ Hs Hne). exact Hlc. }
    assert (Forall (reserved_ok (set_NArr (table s) NArr')) (written s ++ pending s)) as Hres'.
    { eapply Forall_impl; [exact Hres|exact Hmono]. }
    destruct Hok as (HM0 & HlenN & HlenA).
    assert (table_ok (set_NArr (table s) NArr') ncells) as Hok'.
    { unfold table_ok. simpl. rewrite (store_length _ _ _ _ Hs). repeat split; assumption || lia. }
    assert (Forall (fun count => 0 <= count <= n + 1) NArr') as Hc'.
    { apply store_inv in Hs as [_ ->]. apply Forall_insert; [|lia].
      eapply Forall_impl; [exact Hc|]. simpl. intros; lia. }
    unfold shared_inv. simpl.
    split; [exact Hok'|]. split; [exact HM|]. split; [exact Hc'|].
    change (r_slot (set_NArr (table s) NArr')) with (r_slot (table s)).
    destruct (MaxNArr (table s) <=? Nt) eqn:E.
    + split; [exact Hres'|]. split; [exact Hnd|exact Hw].
    + apply Z.leb_gt in E. rewrite app_assoc. split; [|split; [|exact Hw]].
      * apply Forall_app. split; [exact Hres'|]. apply Forall_singleton.
        split; [simpl; lia|]. simpl. exists (Nt + 1).
        split; [eapply load_store_eq; exact Hs|lia].
      * rewrite fmap_app. apply NoDup_app. split; [exact Hnd|]. split; [|apply NoDup_singleton].
        intros x Hx Hin. simpl in Hin. apply list_elem_of_singleton in Hin. subst x.
        apply list_elem_of_fmap in Hx as (r & Heq & Hr).
        pose proof (proj1 (Forall_forall _ _) Hres r Hr) as Hrok.
        destruct (reserved_slot_inj (table s) ncells r base Nt) as [Hrb HrN];
          [repeat split; assumption || lia|exact Hrok|lia|lia|symmetry; exact Heq|].
        destruct Hrok as (_ & c & Hlc & Hlt). rewrite Hrb, Hl in Hlc.
        injection Hlc as <-. lia.
  - assert ((written s ++ [r]) ++ before ++ after ≡ₚ written s ++ pending s) as Hperm.
    { rewrite Hp, <- app_assoc. apply Permutation_app_head. simpl.
      apply Permutation_middle. }
    destruct Hok as (HM0 & HlenN & HlenA).
    unfold shared_inv. simpl.
    change (r_slot (set_Arr (table s) Arr')) with (r_slot (table s)).
    split; [|split; [exact HM|split; [|split; [|split]]]].
    + unfold table_ok. simpl. rewrite (store_length _ _ _ _ Hs). repeat split; assumption || lia.
    + eapply Forall_impl; [exact Hc|]. simpl. intros; lia.
    + rewrite Hperm. exact Hres.
    + rewrite Hperm. exact Hnd.
    + apply Forall_app. split; [|apply Forall_singleton; eapply load_store_eq; exact Hs].
      rewrite fmap_app in Hnd. apply NoDup_app in Hnd as (_ & Hdis & _).
      apply Forall_forall. intros w Hin.
      rewrite (load_store_ne _ _ _ _ _ Hs).
      * exact (proj1 (Forall_forall _ _) Hw w Hin).
      * intros Heq. apply (Hdis (r_slot (table s) w)).
        -- apply list_elem_of_fmap. exists w. split; [reflexivity|exact Hin].
        -- rewrite Heq, Hp. apply list_elem_of_fmap. exists r. split; [reflexivity|].
           apply elem_of_app. right. left.
Qed.

Lemma shared_inv_run ncells t0 n s :
  table_ok t0 ncells -> Forall (fun count => count = 0) (NArr t0) ->
  Z.of_nat n <= Int32.max_signed ->
  nsteps atomic_step n (mkShared t0 [] []) s ->
  shared_inv ncells (MaxNArr t0) (Z.of_nat n) s.
Proof.
  intros Hok Hz. revert s. induction n as [|n IH]; intros s Hn Hrun.
  - inversion Hrun; subst. unfold shared_inv. simpl.
    split; [exact Hok|]. split; [reflexivity|]. split.
    { eapply Forall_impl; [exact Hz|]. simpl. intros; lia. }
    split; [constructor|]. split; constructor.
  - apply nsteps_inv_r in Hrun as (s1 & Hrun & Hstep).
    replace (Z.of_nat (S n)) with (Z.of_nat n + 1) by lia.
    eapply shared_inv_step; [lia|apply IH; [lia|exact Hrun]|exact Hstep].
Qed.

(** X4. From a table with all counts zero, after any [n <= 2^31 - 1] steps of
    any number of workers in the merge-disabled branch, in any order: the
    slots reserved so far are all different, so no two calls write the same
    record; the write of every call that has reserved a slot is in bounds;
    and every record that was written is in its slot, none was overwritten. *)
Theorem atomic_append_keeps_every_record (ncells : Z) (t0 : ArrInfo) (n : nat) (s : Shared) :
  table_ok t0 ncells -> Forall (fun count => count = 0) (NArr t0) ->
  Z.of_nat n <= Int32.max_signed ->
  nsteps atomic_step n (mkShared t0 [] []) s ->
  NoDup (r_slot (table s) <$> (written s ++ pending s))
  /\ Forall (fun r => 0 <= r_Nt r < MaxNArr t0
                      /\ exists Arr', store (Arr (table s)) (r_slot (table s) r) (r_rec r)
                                      = Some Arr')
       (pending s)
  /\ Forall (fun r => load (Arr (table s)) (r_slot (table s) r) = Some (r_rec r)) (written s).
Proof.
  intros Hok Hz Hn Hrun.
  destruct (shared_inv_run ncells t0 n s Hok Hz Hn Hrun) as (Hok' & HM & _ & Hres & Hnd & Hw).
  split; [exact Hnd|]. split; [|exact Hw].
  apply Forall_app in Hres as [_ Hres].
  eapply Forall_impl; [exact Hres|]. simpl.
  intros r (Hr & c & Hl & _). rewrite <- HM. split; [exact Hr|].
  apply load_inv in Hl as [Hb _]. destruct Hok' as (_ & HlenN & HlenA).
  eexists. apply store_in_range. unfold r_slot. nia.
Qed.

End AtomicProps.

(** ** The job dispatcher *)

Section DispatchProps.
Context `{RealOps}.
Import Jobs.

Lemma left_loop_bounds (l : list bool) : 0 <= left_loop l <= Z.of_nat (length l).
Proof. induction l as [|b l IH]; simpl; [lia|]. destruct b; lia. Qed.

Lemma left_loop_insert (l : list bool) (w : nat) :
  l !! w = Some true -> left_loop (<[w := false]> l) = left_loop l + 1.
Proof.
  revert w. induction l as [|b l IH]; intros [|w] Hw; simpl in *; try discriminate.
  - injection Hw as ->. lia.
  - rewrite (IH w Hw). lia.
Qed.

Lemma left_loop_all (l : list bool) :
  Forall (fun b => b = false) l -> left_loop l = Z.of_nat (length l).
Proof.
  induction 1 as [|b l Hb _ IH]; simpl; [reflexivity|]. subst b. lia.
Qed.

Lemma left_loop_none (n : nat) : left_loop (replicate n true) = 0.
Proof. induction n as [|n IH]; simpl; [reflexivity|exact IH]. Qed.

Lemma dispatch_inv_step Pos Angles cores d d' :
  Common.iSingle_alpha Angles < 0 -> 0 < Common.Nalpha Angles -> 0 <= Common.NSz Pos ->
  Common.NSz Pos * Common.Nalpha Angles + Z.of_nat cores <= Int32.max_signed ->
  dispatch_inv Pos Angles cores d -> worker_step Pos Angles d d' ->
  dispatch_inv Pos Angles cores d'.
Proof.
  intros Hs Hn HN Hmax (Hc & Hlen & Hran & Hleft) Hstep.
  set (N := Common.NSz Pos * Common.Nalpha Angles) in *.
  assert (0 <= N) as HN0 by (subst N; nia).
  pose proof (left_loop_bounds (in_loop d)) as Hb.
  destruct Hstep as [w d isrc ialpha_ Hw Hjob|w d isrc ialpha_ Hw Hjob];
    rewrite GetJobIndices_general in Hjob by assumption;
    injection Hjob as Hflag <- <-;
    pose proof (Z.div_mod (sharedJobID d) (Common.Nalpha Angles)) as Hdm;
    pose proof (Z.mod_pos_bound (sharedJobID d) (Common.Nalpha Angles) Hn) as Hmb.
  - apply Z.ltb_lt in Hflag.
    assert (sharedJobID d < N) as HcN by (subst N; nia).
    assert (Int32.add (sharedJobID d) 1 = sharedJobID d + 1) as Hadd.
    { apply Int32_add_id. unfold Int32.in_range, Int32.min_signed, Int32.max_signed in *. lia. }
    unfold dispatch_inv. simpl. rewrite Hadd. fold N.
    rewrite Z.min_l in Hran, Hleft by lia. rewrite Z.min_l by lia.
    repeat split; try lia; try assumption.
    rewrite fmap_app, Hran. simpl.
    rewrite (seqZ_app 0 (sharedJobID d) 1) by lia.
    rewrite fmap_app. reflexivity.
  - apply Z.ltb_ge in Hflag.
    assert (N <= sharedJobID d) as HcN by (subst N; nia).
    rewrite Z.min_r in Hran, Hleft by lia.
    pose proof (left_loop_insert _ _ Hw) as Hins.
    pose proof (left_loop_bounds (<[w := false]> (in_loop d))) as Hb'.
    rewrite length_insert in Hb'.
    assert (Int32.add (sharedJobID d) 1 = sharedJobID d + 1) as Hadd.
    { apply Int32_add_id. unfold Int32.in_range, Int32.min_signed, Int32.max_signed in *. lia. }
    unfold dispatch_inv. simpl. rewrite Hadd. fold N.
    rewrite Z.min_r by lia. rewrite length_insert.
    repeat split; try lia; try assumption.
Qed.

(** X1. With [cores >= 1] workers and without a single launch angle, when
    every worker has left its loop, the jobs that were run are the jobs
    [0 .. NSz * Nalpha - 1], each once and in this order, that is every pair
    of a source and an angle once; and the counter has ended at
    [NSz * Nalpha + cores]. *)
Theorem every_job_runs_once (Pos : Common.Position) (Angles : Common.AnglesStructure)
    (cores : nat) (d : Dispatch) :
  Common.iSingle_alpha Angles < 0 -> 0 < Common.Nalpha Angles -> 0 <= Common.NSz Pos ->
  Common.NSz Pos * Common.Nalpha Angles + Z.of_nat cores <= Int32.max_signed ->
  (0 < cores)%nat ->
  rtc (worker_step Pos Angles) (dispatch_init cores) d ->
  Forall (fun b => b = false) (in_loop d) ->
  snd <$> ran d
  = (fun job => (job / Common.Nalpha Angles, job mod Common.Nalpha Angles))
    <$> seqZ 0 (Common.NSz Pos * Common.Nalpha Angles)
  /\ sharedJobID d = Common.NSz Pos * Common.Nalpha Angles + Z.of_nat cores.
Proof.
  intros Hs Hn HN Hmax Hcores Hrun Hdone.
  assert (dispatch_inv Pos Angles cores d) as (Hc & Hlen & Hran & Hleft).
  { eapply (rtc_ind_r (dispatch_inv Pos Angles cores)); [| |exact Hrun].
    - unfold dispatch_inv, dispatch_init. simpl.
      rewrite length_replicate, left_loop_none.
      rewrite Z.min_l by nia. repeat split; first [lia | reflexivity].
    - intros y z _ Hstep IH. eapply dispatch_inv_step; eassumption. }
  rewrite (left_loop_all _ Hdone), Hlen in Hleft.
  assert (Common.NSz Pos * Common.Nalpha Angles < sharedJobID d) as Hlt by lia.
  rewrite Z.min_r in Hran, Hleft by lia. split; [exact Hran|lia].
Qed.

Lemma FieldModesWorker_unfold (fuel : nat) (job : Z) (Pos : Common.Position)
    (Angles : Common.AnglesStructure) (done : list (Z * Z)) :
  FieldModesWorker (S fuel) job Pos Angles done
  = match GetJobIndices job Pos Angles with
    | None => None
    | Some (true, isrc, ialpha_) =>
        FieldModesWorker fuel (Int32.add job 1) Pos Angles (done ++ [(isrc, ialpha_)])
    | Some (false, _, _) => Some (Int32.add job 1, done)
    end.
Proof. reflexivity. Qed.

(** One worker alone: its loop ends, after it has run the jobs
    [0 .. NSz * Nalpha - 1] in order. *)
Lemma FieldModesWorker_from (Pos : Common.Position) (Angles : Common.AnglesStructure)
    (n : nat) (job : Z) (done : list (Z * Z)) :
  Common.iSingle_alpha Angles < 0 -> 0 < Common.Nalpha Angles -> 0 <= Common.NSz Pos ->
  Common.NSz Pos * Common.Nalpha Angles < Int32.max_signed ->
  0 <= job -> job + Z.of_nat n = Common.NSz Pos * Common.Nalpha Angles ->
  FieldModesWorker (S n) job Pos Angles done
  = Some (Common.NSz Pos * Common.Nalpha Angles + 1,
          done ++ ((fun j => (j / Common.Nalpha Angles, j mod Common.Nalpha Angles))
                   <$> seqZ job (Z.of_nat n))).
Proof.
  intros Hs Hn HN Hmax. revert job done.
  induction n as [|n IH]; intros job done Hj Hsum;
    rewrite FieldModesWorker_unfold, GetJobIndices_general by assumption;
    pose proof (Z.div_mod job (Common.Nalpha Angles) ltac:(lia)) as Hdm;
    pose proof (Z.mod_pos_bound job (Common.Nalpha Angles) Hn) as Hmb;
    (rewrite Int32_add_id
      by (unfold Int32.in_range, Int32.min_signed, Int32.max_signed in *; lia)).
  - destruct (job / Common.Nalpha Angles <? Common.NSz Pos) eqn:E.
    + apply Z.ltb_lt in E.
      assert (0 <= (Common.NSz Pos - job / Common.Nalpha Angles - 1)
                   * Common.Nalpha Angles) by (apply Z.mul_nonneg_nonneg; lia).
      lia.
    + simpl. rewrite app_nil_r. do 2 f_equal. lia.
  - destruct (job / Common.Nalpha Angles <? Common.NSz Pos) eqn:E.
    + rewrite IH by lia. do 2 f_equal. rewrite <- app_assoc. f_equal.
      rewrite (seqZ_cons job) by lia. simpl. do 2 f_equal.
      f_equal; lia.
    + apply Z.ltb_ge in E.
      assert (0 <= (job / Common.Nalpha Angles - Common.NSz Pos)
                   * Common.Nalpha Angles) by (apply Z.mul_nonneg_nonneg; lia).
      lia.
Qed.

(** X2. One worker that starts at [sharedJobID = 0] leaves its loop after
    [NSz * Nalpha + 1] iterations, having run the jobs [0 .. NSz * Nalpha - 1]
    in order. *)
Theorem FieldModesWorker_runs_all (Pos : Common.Position) (Angles : Common.AnglesStructure) :
  Common.iSingle_alpha Angles < 0 -> 0 < Common.Nalpha Angles -> 0 <= Common.NSz Pos ->
  Common.NSz Pos * Common.Nalpha Angles < Int32.max_signed ->
  FieldModesWorker (S (Z.to_nat (Common.NSz Pos * Common.Nalpha Angles))) 0 Pos Angles []
  = Some (Common.NSz Pos * Common.Nalpha Angles + 1,
          (fun j => (j / Common.Nalpha Angles, j mod Common.Nalpha Angles))
          <$> seqZ 0 (Common.NSz Pos * Common.Nalpha Angles)).
Proof.
  intros Hs Hn HN Hmax.
  rewrite (FieldModesWorker_from Pos Angles _ 0 []) by (try assumption; nia).
  simpl. rewrite Z2Nat.id by nia. reflexivity.
Qed.

End DispatchProps.

(** ** The records of [UnformattedOFile] *)

Section UnformattedProps.
Import UnformattedIO UnformattedIOSpec.
Variable int32_bytes : Z -> list byte.
Hypothesis int32_size : forall z, length (int32_bytes z) = 4%nat.

Local Abbreviation frame := (UnformattedIOSpec.frame int32_bytes).
Local Abbreviation frames := (UnformattedIOSpec.frames int32_bytes).
Local Abbreviation record_open := (UnformattedIOSpec.record_open int32_bytes).

Lemma put_end (d bs : list byte) : put d (Z.of_nat (length d)) bs = d ++ bs.
Proof.
  unfold put. rewrite Nat2Z.id, firstn_all, Nat.sub_diag. simpl.
  rewrite drop_ge by lia. rewrite app_nil_r. reflexivity.
Qed.

Lemma put_middle (d1 old d2 bs : list byte) :
  length old = length bs ->
  put (d1 ++ old ++ d2) (Z.of_nat (length d1)) bs = d1 ++ bs ++ d2.
Proof.
  intros Hlen. unfold put. rewrite Nat2Z.id.
  rewrite take_app_length.
  replace (length d1 - length (d1 ++ old ++ d2))%nat with 0%nat
    by (rewrite !length_app; lia).
  simpl. rewrite drop_app_add', <- Hlen by reflexivity.
  rewrite drop_app_length. reflexivity.
Qed.

Lemma frames_snoc ps p : frames (ps ++ [p]) = frames ps ++ frame p.
Proof.
  unfold UnformattedIOSpec.frames. rewrite fmap_app, concat_app. simpl.
  rewrite app_nil_r. reflexivity.
Qed.

Lemma frames_app ps qs : frames (ps ++ qs) = frames ps ++ frames qs.
Proof. unfold UnformattedIOSpec.frames. rewrite fmap_app, concat_app. reflexivity. Qed.

Lemma frames_cons p ps : frames (p :: ps) = frame p ++ frames ps.
Proof. reflexivity. Qed.

Lemma frame_length p : length (frame p) = (length p + 8)%nat.
Proof. unfold UnformattedIOSpec.frame. rewrite !length_app, !int32_size. lia. Qed.

Lemma FinishRecord_open f done cur :
  Z.of_nat (length (frames (done ++ [cur]))) <= Int32.max_signed ->
  record_open f done cur ->
  FinishRecord int32_bytes f
  = mkUnformattedOFile
      (mkofstream true false (frames (done ++ [cur]))
         (Z.of_nat (length (frames (done ++ [cur])))))
      (Z.of_nat (length (frames (done ++ [cur])))) 0.
Proof.
  intros Hfit (Hop & Hf & Hd & Hp & Hs & Hl).
  rewrite frames_snoc, length_app, frame_length in Hfit.
  unfold FinishRecord. rewrite Hs, Hl.
  destruct (Z.of_nat (length (frames done)) <? 0) eqn:E1; [apply Z.ltb_lt in E1; lia|].
  destruct (Z.of_nat (length cur) <? 0) eqn:E2; [apply Z.ltb_lt in E2; lia|].
  simpl.
  assert (forall z, take 4 (int32_bytes z) = int32_bytes z) as Htake.
  { intros z. apply take_ge. rewrite int32_size. lia. }
  rewrite !Htake.
  assert (Int32.add (Int32.add (Z.of_nat (length (frames done))) 4) (Z.of_nat (length cur))
          = Z.of_nat (length (frames done)) + 4 + Z.of_nat (length cur)) as Ha1.
  { unfold Int32.add. rewrite (Int32_wrap_id (_ + 4)).
    - apply Int32_wrap_id. unfold Int32.in_range, Int32.min_signed, Int32.max_signed in *. lia.
    - unfold Int32.in_range, Int32.min_signed, Int32.max_signed in *. lia. }
  assert (Int32.add (Z.of_nat (length (frames done))) (Int32.add (Z.of_nat (length cur)) 8)
          = Z.of_nat (length (frames done)) + (Z.of_nat (length cur) + 8)) as Ha2.
  { unfold Int32.add. rewrite (Int32_wrap_id (_ + 8)).
    - apply Int32_wrap_id. unfold Int32.in_range, Int32.min_signed, Int32.max_signed in *. lia.
    - unfold Int32.in_range, Int32.min_signed, Int32.max_signed in *. lia. }
  rewrite Ha1, Ha2.
  unfold stream_seekp at 2. rewrite Hf, Hop.
  destruct (0 <=? Z.of_nat (length (frames done))) eqn:E3; [|apply Z.leb_gt in E3; lia].
  simpl. unfold stream_write at 2. simpl. rewrite Hd.
  rewrite (put_middle (frames done) (int32_bytes 0) cur) by (rewrite !int32_size; reflexivity).
  unfold stream_seekp. simpl.
  destruct (0 <=? Z.of_nat (length (frames done)) + 4 + Z.of_nat (length cur)) eqn:E4;
    [|apply Z.leb_gt in E4; lia].
  unfold stream_write. simpl.
  replace (Z.of_nat (length (frames done)) + 4 + Z.of_nat (length cur))
    with (Z.of_nat (length (frames done ++ int32_bytes (Z.of_nat (length cur)) ++ cur)))
    by (rewrite !length_app, int32_size; lia).
  rewrite put_end.
  assert (frames (done ++ [cur])
          = (frames done ++ int32_bytes (Z.of_nat (length cur)) ++ cur)
            ++ int32_bytes (Z.of_nat (length cur))) as Hfr.
  { rewrite frames_snoc. unfold UnformattedIOSpec.frame. rewrite <- !app_assoc. reflexivity. }
  rewrite <- Hfr. f_equal; [f_equal|].
  - rewrite Hfr, !length_app, !int32_size. lia.
  - rewrite frames_snoc, length_app, frame_length. lia.
Qed.

Lemma stream_write_open s bs :
  is_open s = true -> failed s = false -> pos s = Z.of_nat (length (data s)) ->
  stream_write s bs
  = mkofstream true false (data s ++ bs) (Z.of_nat (length (data s ++ bs))).
Proof.
  intros Hop Hf Hp. unfold stream_write. rewrite Hop, Hf. simpl.
  rewrite Hp, put_end, length_app. f_equal. lia.
Qed.

Lemma rec_open f done cur :
  Z.of_nat (length (frames (done ++ [cur]))) <= Int32.max_signed ->
  record_open f done cur -> record_open (rec int32_bytes f) (done ++ [cur]) [].
Proof.
  intros Hfit Hinv.
  unfold rec. rewrite (FinishRecord_open f done cur Hfit Hinv).
  unfold UnformattedIOSpec.record_open. cbn [ostr recstart recl].
  rewrite stream_write_open by reflexivity. cbn [is_open failed data pos].
  rewrite (take_ge (int32_bytes 0)) by (rewrite int32_size; lia).
  rewrite app_nil_r. repeat split; reflexivity.
Qed.

Lemma foldl_stream_write_open arr s :
  is_open s = true -> failed s = false -> pos s = Z.of_nat (length (data s)) ->
  foldl stream_write s arr
  = mkofstream true false (data s ++ concat arr) (Z.of_nat (length (data s ++ concat arr))).
Proof.
  revert s. induction arr as [|v arr IH]; intros s Hop Hf Hp; simpl.
  - rewrite app_nil_r, <- Hp. destruct s; simpl in *; subst; reflexivity.
  - rewrite (stream_write_open s v Hop Hf Hp).
    rewrite IH by reflexivity. simpl. rewrite <- app_assoc. reflexivity.
Qed.

Lemma call_open f done cur c :
  well_typed c -> c <> CRec ->
  Z.of_nat (length (cur ++ payload c)) <= Int32.max_signed ->
  record_open f done cur ->
  exists f', call int32_bytes f c = Done f' /\ record_open f' done (cur ++ payload c).
Proof.
  intros Hwt Hc Hfit (Hop & Hf & Hd & Hp & Hs & Hl).
  rewrite length_app in Hfit.
  destruct c as [|v|sizeof_T arr]; [congruence| |]; simpl in *.
  - unfold write. rewrite Hs.
    destruct (Z.of_nat (length (frames done)) <? 0) eqn:E1; [apply Z.ltb_lt in E1; lia|].
    eexists. split; [reflexivity|].
    unfold UnformattedIOSpec.record_open. simpl. rewrite (stream_write_open _ v Hop Hf Hp). simpl.
    rewrite Hd, Hl, <- !app_assoc.
    repeat split; try reflexivity; try assumption.
    unfold Int32.add. rewrite (Int32_wrap_id (Z.of_nat (length v))).
    + rewrite Int32_wrap_id, length_app; [lia|].
      unfold Int32.in_range, Int32.min_signed, Int32.max_signed in *. lia.
    + unfold Int32.in_range, Int32.min_signed, Int32.max_signed in *. lia.
  - unfold write_array. rewrite Hs.
    destruct (Z.of_nat (length (frames done)) <? 0) eqn:E1; [apply Z.ltb_lt in E1; lia|].
    eexists. split; [reflexivity|].
    unfold UnformattedIOSpec.record_open. simpl. rewrite (foldl_stream_write_open arr _ Hop Hf Hp). simpl.
    rewrite Hd, Hl, <- !app_assoc.
    repeat split; try reflexivity; try assumption.
    assert (Z.of_nat (length (concat arr)) = Z.of_nat (length arr) * sizeof_T) as Hsz.
    { clear -Hwt. induction Hwt as [|v arr Hv _ IH]; simpl; [reflexivity|].
      rewrite length_app. lia. }
    unfold SizeT.mul, SizeT.wrap. rewrite <- Hsz.
    rewrite (Z.mod_small (Z.of_nat (length (concat arr))))
      by (unfold Int32.max_signed in *; lia).
    unfold Int32.add. rewrite (Int32_wrap_id (Z.of_nat (length (concat arr)))).
    + rewrite Int32_wrap_id, length_app; [lia|].
      unfold Int32.in_range, Int32.min_signed, Int32.max_signed in *. lia.
    + unfold Int32.in_range, Int32.min_signed, Int32.max_signed in *. lia.
Qed.

Lemma calls_open cs : forall f done cur,
  Forall well_typed cs ->
  Z.of_nat (length (frames (done ++ (cur ++ (split_records cs).1) :: (split_records cs).2)))
  <= Int32.max_signed ->
  record_open f done cur ->
  exists f', calls int32_bytes f cs = Done f'
    /\ exists done' cur', record_open f' done' cur'
         /\ done' ++ [cur'] = done ++ (cur ++ (split_records cs).1) :: (split_records cs).2.
Proof.
  induction cs as [|c cs IH]; intros f done cur Hwt Hfit Hinv.
  - simpl in *. exists f. split; [reflexivity|]. exists done, cur.
    split; [exact Hinv|]. rewrite app_nil_r. reflexivity.
  - apply Forall_cons in Hwt as [Hc Hwt].
    assert (c = CRec \/ c <> CRec) as [->|Hne]
      by (destruct c; [left; reflexivity|right; discriminate..]).
    + simpl in *. rewrite app_nil_r in *.
      assert (Z.of_nat (length (frames (done ++ [cur]))) <= Int32.max_signed) as Hfit1.
      { rewrite (cons_middle cur done), app_assoc, frames_app, length_app in Hfit. lia. }
      destruct (IH (rec int32_bytes f) (done ++ [cur]) []) as (f' & Hrun & Hrest);
        [exact Hwt| |apply rec_open; assumption|].
      { rewrite <- app_assoc. simpl. exact Hfit. }
      exists f'. split; [exact Hrun|].
      rewrite <- app_assoc in Hrest. exact Hrest.
    + assert ((split_records (c :: cs)).1 = payload c ++ (split_records cs).1
              /\ (split_records (c :: cs)).2 = (split_records cs).2) as [H1 H2].
      { destruct c; [congruence|split; reflexivity..]. }
      rewrite H1, H2 in *. rewrite app_assoc in Hfit |- *.
      destruct (call_open f done cur c Hc Hne) as (f1 & Hcall & Hinv1); [|exact Hinv|].
      { rewrite frames_app, frames_cons, !length_app, frame_length, !length_app in Hfit.
        rewrite length_app. lia. }
      destruct (IH f1 done (cur ++ payload c) Hwt Hfit Hinv1) as (f' & Hrun & Hrest).
      exists f'. split; [|exact Hrest].
      simpl. rewrite Hcall. exact Hrun.
Qed.

(** X5. A file that is opened, written by any calls of [rec], [write] and
    [write(arr, n)] that start with [rec], and destroyed, holds one record for
    each [rec()], in order: the bytes written between that [rec()] and the
    next, with their number as an [int32_t] before and after them. No call
    raises an error. The file is to stay below 2 GiB. *)
Theorem UnformattedOFile_records (cs : list Call) :
  Forall well_typed cs ->
  Z.of_nat (length (frames ((split_records (CRec :: cs)).2))) <= Int32.max_signed ->
  exists f,
    calls int32_bytes (open UnformattedOFile_new) (CRec :: cs) = Done f
    /\ good f = true
    /\ ostr (destroy int32_bytes f)
       = mkofstream false false (frames ((split_records (CRec :: cs)).2)) 0.
Proof.
  intros Hwt Hfit. simpl in Hfit |- *.
  assert (record_open (rec int32_bytes (open UnformattedOFile_new)) [] []) as Hinv.
  { unfold UnformattedIOSpec.record_open. cbn.
    rewrite (take_ge (int32_bytes 0)) by (rewrite int32_size; lia).
    unfold put. simpl. rewrite drop_nil, !app_nil_r.
    repeat split; reflexivity. }
  destruct (calls_open cs _ [] [] Hwt Hfit Hinv)
    as (f & Hrun & done' & cur' & Hinv' & Heq).
  exists f. split; [exact Hrun|].
  simpl in Heq. rewrite <- Heq in Hfit |- *.
  unfold destroy, good, stream_good.
  rewrite (FinishRecord_open f done' cur' Hfit Hinv').
  destruct Hinv' as (Hop' & Hf' & _). rewrite Hop', Hf'. split; reflexivity.
Qed.

(** X6. The one error of the class is a [write] or a [write(arr, n)] before
    the first [rec()]: calls on an opened file raise an error exactly when
    the first of them is such a write, the error is
    [Missing record in UnformattedOFile!], and it is raised at that first
    call. The file is to stay below 2 GiB. *)
Theorem UnformattedOFile_error_iff (cs : list Call) :
  Forall well_typed cs ->
  Z.of_nat (length (frames ((split_records cs).2))) <= Int32.max_signed ->
  ((exists msg, calls int32_bytes (open UnformattedOFile_new) cs = Raised msg)
   <-> exists c cs', cs = c :: cs' /\ c <> CRec)
  /\ forall msg, calls int32_bytes (open UnformattedOFile_new) cs = Raised msg ->
       msg = "Missing record in UnformattedOFile!"%string
       /\ exists c, head cs = Some c
            /\ call int32_bytes (open UnformattedOFile_new) c = Raised msg.
Proof.
  intros Hwt Hfit.
  destruct cs as [|c cs].
  - split; [split|].
    + intros [msg Hr]. discriminate.
    + intros (c & cs' & Heq & _). discriminate.
    + intros msg Hr. discriminate.
  - assert (c = CRec \/ c <> CRec) as [->|Hne]
      by (destruct c; [left; reflexivity|right; discriminate..]).
    + apply Forall_cons in Hwt as [_ Hwt].
      assert (record_open (rec int32_bytes (open UnformattedOFile_new)) [] []) as Hinv.
      { unfold UnformattedIOSpec.record_open. cbn.
        rewrite (take_ge (int32_bytes 0)) by (rewrite int32_size; lia).
        unfold put. simpl. rewrite drop_nil, !app_nil_r.
        repeat split; reflexivity. }
      destruct (calls_open cs _ [] [] Hwt Hfit Hinv) as (f & Hrun & _).
      change (calls int32_bytes (open UnformattedOFile_new) (CRec :: cs))
        with (calls int32_bytes (rec int32_bytes (open UnformattedOFile_new)) cs).
      rewrite Hrun. split; [split|].
      * intros [msg Hr]. discriminate.
      * intros (c & cs' & [= <- _] & Hc). congruence.
      * intros msg Hr. discriminate.
    + assert (call int32_bytes (open UnformattedOFile_new) c
              = Raised "Missing record in UnformattedOFile!") as Hcall
        by (destruct c; [congruence|reflexivity..]).
      assert (calls int32_bytes (open UnformattedOFile_new) (c :: cs)
              = Raised "Missing record in UnformattedOFile!") as Hrun
        by (simpl; rewrite Hcall; reflexivity).
      rewrite Hrun. split; [split|].
      * intros _. exists c, cs. split; [reflexivity|exact Hne].
      * intros _. eexists. reflexivity.
      * intros msg [= <-]. split; [reflexivity|].
        exists c. split; [reflexivity|exact Hcall].
Qed.

End UnformattedProps.

(** ** A call touches one cell *)

Section FrameProps.
Context `{RealOps} `{!CpxAbs}.
Variable GetFieldAddr : Z -> Z -> Z -> Z -> Z -> Z -> Common.Position -> Z.
Import Arrivals ArrivalsSpec.

Lemma other_cell_slot (M base b k i : Z) :
  b <> base -> 0 <= k < M -> 0 <= i < M -> b * M + i <> base * M + k.
Proof.
  intros Hne Hk Hi Heq.
  destruct (Z.lt_trichotomy b base) as [Hlt|[Heqb|Hgt]]; [|congruence|].
  - assert (0 <= (base - b - 1) * M) by (apply Z.mul_nonneg_nonneg; lia). lia.
  - assert (0 <= (b - base - 1) * M) by (apply Z.mul_nonneg_nonneg; lia). lia.
Qed.

(** What a store into the cell [base] leaves alone. *)
Lemma store_other_cell arrinfo (Arr' : list Arrival) base k rec b i :
  store (Arr arrinfo) (base * MaxNArr arrinfo + k) rec = Some Arr' ->
  0 <= k < MaxNArr arrinfo -> b <> base -> 0 <= i < MaxNArr arrinfo ->
  load Arr' (b * MaxNArr arrinfo + i) = load (Arr arrinfo) (b * MaxNArr arrinfo + i).
Proof.
  intros Hs Hk Hb Hi. apply (load_store_ne _ _ _ _ _ Hs).
  apply other_cell_slot; assumption.
Qed.

Lemma AddArr_merging_frame {O3D : bool} arrinfo arrinfo' ncells base Amp omega Phase_ delay_
    (rinit : Common.RayInitInfo O3D) Rd Ra ntb nbb :
  table_ok arrinfo ncells -> counts_ok arrinfo -> 0 <= base < ncells ->
  AddArr_merging base Amp omega Phase_ delay_ rinit Rd Ra ntb nbb arrinfo = Some arrinfo' ->
  MaxNArr arrinfo' = MaxNArr arrinfo
  /\ forall b, b <> base ->
       load (NArr arrinfo') b = load (NArr arrinfo) b
       /\ forall i, 0 <= i < MaxNArr arrinfo -> slot arrinfo' b i = slot arrinfo b i.
Proof.
  intros Hok Hc Hb. unfold AddArr_merging, slot.
  destruct (load (NArr arrinfo) base) as [Nt|] eqn:HNt; simpl; [|discriminate].
  pose proof (counts_ok_load _ _ _ Hc HNt) as HNtr.
  destruct (IsSecondStepOfPair omega Phase_ delay_ (Arr arrinfo) (base * MaxNArr arrinfo) Nt)
    as [pair|] eqn:Hpair; simpl; [|discriminate].
  destruct pair; simpl.
  - assert (1 <= Nt) as HNt1.
    { unfold IsSecondStepOfPair in Hpair. destruct (1 <=? Nt) eqn:E; simpl in Hpair.
      - apply Z.leb_le in E. exact E.
      - discriminate. }
    destruct (load (Arr arrinfo) (base * MaxNArr arrinfo + (Nt - 1))) as [old|];
      simpl; [|discriminate].
    destruct (store (Arr arrinfo) (base * MaxNArr arrinfo + (Nt - 1)) _) as [Arr'|] eqn:Hs;
      simpl; [|discriminate].
    intros [= <-]. split; [reflexivity|]. intros b Hne. split; [reflexivity|].
    intros i Hi. simpl. eapply store_other_cell; [exact Hs|lia|exact Hne|exact Hi].
  - destruct (MaxNArr arrinfo <=? Nt) eqn:E.
    + destruct (weakest_scan_range (Arr arrinfo) (base * MaxNArr arrinfo)
                  (Z.to_nat (MaxNArr arrinfo)) 0 (Amp, -1)) as (found & Hfound & Hr).
      { intros i Hi. apply load_in_range.
        apply (slot_in_range arrinfo ncells); [assumption..|].
        destruct Hok as (HM & _). lia. }
      rewrite Hfound. simpl. simpl in Hr.
      destruct (found.2 <? 0) eqn:E2.
      * intros [= <-]. split; [reflexivity|]. intros b Hne. split; reflexivity.
      * apply Z.ltb_ge in E2.
        destruct (store (Arr arrinfo) (base * MaxNArr arrinfo + found.2) _) as [Arr'|] eqn:Hs;
          simpl; [|discriminate].
        intros [= <-]. split; [reflexivity|]. intros b Hne. split; [reflexivity|].
        intros i Hi. simpl. eapply store_other_cell; [exact Hs| |exact Hne|exact Hi].
        destruct Hok as (HM & _). lia.
    + apply Z.leb_gt in E.
      destruct (store (NArr arrinfo) base (Int32.add Nt 1)) as [NArr'|] eqn:HsN;
        simpl; [|discriminate].
      destruct (store (Arr arrinfo) (base * MaxNArr arrinfo + Nt) _) as [Arr'|] eqn:Hs;
        simpl; [|discriminate].
      intros [= <-]. split; [reflexivity|]. intros b Hne. simpl. split.
      * apply (load_store_ne _ _ _ _ _ HsN). exact Hne.
      * intros i Hi. eapply store_other_cell; [exact Hs|lia|exact Hne|exact Hi].
Qed.

(** X8. A call of [AddArr] reads and writes one cell: on a table whose counts
    are not negative and, where merging is allowed, within the capacity, the
    count and the records of every cell other than the one addressed are after
    the call what they were before, in both policies. *)
Theorem AddArr_other_cells_unchanged {O3D : bool} (itheta id ir : Z)
    (Amp omega Phase_ : real) (delay_ : cpx) (rinit : Common.RayInitInfo O3D)
    (Rd Ra : real) (ntb nbb : Z) (arrinfo arrinfo' : ArrInfo) (Pos : Common.Position)
    (ncells : Z) :
  table_ok arrinfo ncells ->
  Forall (fun count => 0 <= count) (NArr arrinfo) ->
  (AllowMerging arrinfo = true -> capacity_invariant arrinfo) ->
  0 <= GetFieldAddr (Common.isx rinit) (Common.isy rinit) (Common.isz rinit) itheta id ir Pos
    < ncells ->
  AddArr GetFieldAddr itheta id ir Amp omega Phase_ delay_ rinit Rd Ra ntb nbb arrinfo Pos
  = Some arrinfo' ->
  forall b,
    b <> GetFieldAddr (Common.isx rinit) (Common.isy rinit) (Common.isz rinit) itheta id ir Pos ->
    load (NArr arrinfo') b = load (NArr arrinfo) b
    /\ forall i, 0 <= i < MaxNArr arrinfo -> slot arrinfo' b i = slot arrinfo b i.
Proof.
  set (base := GetFieldAddr _ _ _ _ _ _ _).
  intros Hok Hpos Hcap Hb. unfold AddArr. fold base.
  destruct (AllowMerging arrinfo) eqn:Hm.
  - intros Hrun b Hne.
    assert (counts_ok arrinfo) as Hc.
    { unfold counts_ok. specialize (Hcap eq_refl). unfold capacity_invariant in Hcap.
      rewrite Forall_forall in Hpos, Hcap |- *. intros c Hin.
      specialize (Hpos c Hin). specialize (Hcap c Hin). lia. }
    destruct (AddArr_merging_frame arrinfo arrinfo' ncells base Amp omega Phase_ delay_
                rinit Rd Ra ntb nbb Hok Hc Hb Hrun) as (_ & Hfr).
    exact (Hfr b Hne).
  - intros Hrun b Hne.
    destruct (load_in_range (NArr arrinfo) base) as [Nt HNt].
    { eapply count_in_range; eassumption. }
    assert (0 <= Nt) as HNt0.
    { apply load_inv in HNt as [_ Hlk].
      exact (proj1 (Forall_forall _ _) Hpos Nt (list_elem_of_lookup_2 _ _ _ Hlk)). }
    destruct (AddArr_atomic_ok (O3D := O3D) arrinfo ncells base Nt Amp Phase_ delay_ rinit
                Rd Ra ntb nbb Hok Hb HNt HNt0) as (arrinfo'' & Hr & HN & HA & HM & _ & _).
    rewrite Hr in Hrun. injection Hrun as <-.
    split.
    + rewrite HN. unfold load. destruct (decide (0 <= b)); [|reflexivity].
      apply list_lookup_insert_ne. lia.
    + intros i Hi. unfold slot. rewrite HM, HA.
      destruct (MaxNArr arrinfo <=? Nt) eqn:E; [reflexivity|].
      apply Z.leb_gt in E. unfold load.
      destruct (decide (0 <= b * MaxNArr arrinfo + i)); [|reflexivity].
      apply list_lookup_insert_ne.
      pose proof (other_cell_slot (MaxNArr arrinfo) base b Nt i Hne) as Hd.
      assert (0 <= base * MaxNArr arrinfo + Nt) by nia.
      specialize (Hd ltac:(lia) Hi). lia.
Qed.

End FrameProps.

(** ** What [RayTerminate] does not look at *)

Section RayTerminateFrame.
Context `{RealOps} `{!LibM}.
Variable MaxN : Z.
Variable bhc_max : real -> real -> real.
Variable RayToOceanX : forall m : Mode, VEC23 (R3D m) -> Trace.Origin m -> VEC23 (O3D m).
Import Trace.

(** X7. The number of small steps never stops a ray: [toomanysmallsteps] is
    computed and not used, so [RayTerminate] gives the same result for every
    value of [iSmallStepCtr]; and in a 2D run it looks at neither the origin
    nor the boundary tables. *)
Theorem RayTerminate_unused_inputs :
  (forall (m : Mode) (point : rayPt m) (Nsteps is_ iSmallStepCtr iSmallStepCtr' : Z)
          (DistBegTop DistBegBot DistEndTop DistEndBot : real) (org : Origin m)
          (bdinfo : BdryInfo m) (Beam : BeamStructure m),
     RayTerminate MaxN bhc_max RayToOceanX m point Nsteps is_ iSmallStepCtr
       DistBegTop DistBegBot DistEndTop DistEndBot org bdinfo Beam
     = RayTerminate MaxN bhc_max RayToOceanX m point Nsteps is_ iSmallStepCtr'
         DistBegTop DistBegBot DistEndTop DistEndBot org bdinfo Beam)
  /\ (forall (point : rayPt M2D) (Nsteps is_ iSmallStepCtr : Z)
             (DistBegTop DistBegBot DistEndTop DistEndBot : real) (org org' : Origin M2D)
             (bdinfo bdinfo' : BdryInfo M2D) (Beam : BeamStructure M2D),
        RayTerminate MaxN bhc_max RayToOceanX M2D point Nsteps is_ iSmallStepCtr
          DistBegTop DistBegBot DistEndTop DistEndBot org bdinfo Beam
        = RayTerminate MaxN bhc_max RayToOceanX M2D point Nsteps is_ iSmallStepCtr
            DistBegTop DistBegBot DistEndTop DistEndBot org' bdinfo' Beam).
Proof.
  split.
  - intros m. destruct m; intros; reflexivity.
  - intros; reflexivity.
Qed.

End RayTerminateFrame.

(** ** Source and receiver depths *)

Section SourceReceiverProps.
Context `{RealOps} `{!RealLaws}.
Variable elem : Type.
Variable to_real : elem -> real.
Variable of_real : real -> elem.
Variable LDIFile : Type.
Variable LIST : LDIFile -> LDIFile.
Variable Read_int : LDIFile -> Z * LDIFile.
Variable Read_vector : LDIFile -> list elem -> Z -> list elem * LDIFile.
Variable allocate : Z -> list elem.
Variable allocate_float : Z -> list float.
Variable allocate_int32 : Z -> list Z.
Variable SubTab : list elem -> Z -> list elem.
Variable Sort : list elem -> Z -> list elem.
Variable EchoVector : list elem -> Z -> PrintFileEmu.
Variable trim : string -> string.
Import SourceReceiver SourceReceiverSpec.

Local Abbreviation moved := (SourceReceiverSpec.moved elem to_real of_real).
Local Abbreviation moved_down := (SourceReceiverSpec.moved_down elem to_real of_real).
Local Abbreviation within_limits := (SourceReceiverSpec.within_limits elem to_real).
Local Abbreviation above := (SourceReceiverSpec.above elem to_real).
Local Abbreviation below := (SourceReceiverSpec.below elem to_real of_real).
Local Abbreviation move_into_limits := (SourceReceiver.move_into_limits elem to_real of_real).
Local Abbreviation km_to_m := (SourceReceiver.km_to_m elem to_real of_real).
Local Abbreviation ReadVector :=
  (SourceReceiver.ReadVector elem to_real of_real LDIFile LIST Read_int Read_vector allocate
     SubTab Sort EchoVector trim).
Local Abbreviation vector_read :=
  (SourceReceiverSpec.vector_read elem of_real LDIFile LIST Read_int Read_vector allocate
     SubTab Sort).
Local Abbreviation ReadSzRz :=
  (SourceReceiver.ReadSzRz elem to_real of_real LDIFile LIST Read_int Read_vector allocate
     allocate_float allocate_int32 SubTab Sort EchoVector trim).

Lemma load_middle {A : Type} (done : list A) (v : A) (rest : list A) :
  load (done ++ v :: rest) (Z.of_nat (length done)) = Some v.
Proof.
  unfold load. destruct (decide (0 <= Z.of_nat (length done))); [|lia].
  rewrite Nat2Z.id. apply list_lookup_middle. reflexivity.
Qed.

Lemma store_middle {A : Type} (done : list A) (v w : A) (rest : list A) :
  store (done ++ v :: rest) (Z.of_nat (length done)) w = Some (done ++ w :: rest).
Proof.
  rewrite store_in_range by (rewrite length_app; simpl; lia).
  rewrite Nat2Z.id. f_equal.
  rewrite insert_app_r_alt by lia. rewrite Nat.sub_diag. reflexivity.
Qed.

(** A loop that rewrites the elements one by one rewrites a prefix. *)
Lemma for_loop_map {A : Type} (f : A -> A) (body : Z -> list A -> option (list A)) :
  (forall done v rest,
     body (Z.of_nat (length done)) (done ++ v :: rest) = Some (done ++ f v :: rest)) ->
  forall (n : nat) (done todo : list A),
    (n <= length todo)%nat ->
    for_loop n (Z.of_nat (length done)) body (done ++ todo)
    = Some (done ++ (f <$> take n todo) ++ drop n todo).
Proof.
  intros Hbody. induction n as [|n IH]; intros done todo Hn.
  - simpl. rewrite drop_0. reflexivity.
  - destruct todo as [|v todo]; [simpl in Hn; lia|].
    simpl. rewrite Hbody. simpl.
    replace (Z.of_nat (length done) + 1) with (Z.of_nat (length (done ++ [f v])))
      by (rewrite length_app; simpl; lia).
    replace (done ++ f v :: todo) with ((done ++ [f v]) ++ todo)
      by (rewrite <- app_assoc; reflexivity).
    rewrite IH by (simpl in Hn; lia).
    rewrite <- app_assoc. reflexivity.
Qed.

Lemma move_into_limits_middle zMin zMax done v rest topbdry botbdry :
  move_into_limits zMin zMax (Z.of_nat (length done)) (done ++ v :: rest, topbdry, botbdry)
  = Some (done ++ moved zMin zMax v :: rest,
          topbdry || above zMin v, botbdry || below zMin zMax v).
Proof.
  unfold SourceReceiver.move_into_limits, SourceReceiverSpec.moved,
    SourceReceiverSpec.above, SourceReceiverSpec.below, SourceReceiverSpec.moved_down.
  rewrite load_middle. simpl.
  destruct (r_ltb (to_real v) zMin); simpl.
  - rewrite store_middle. simpl. rewrite load_middle. simpl.
    destruct (r_ltb zMax (to_real (of_real zMin))); simpl.
    + rewrite store_middle. simpl. rewrite !orb_true_r. reflexivity.
    + rewrite orb_true_r, orb_false_r. reflexivity.
  - rewrite load_middle. simpl.
    destruct (r_ltb zMax (to_real v)); simpl.
    + rewrite store_middle. simpl. rewrite orb_true_r, orb_false_r. reflexivity.
    + rewrite !orb_false_r. reflexivity.
Qed.

Lemma move_loop zMin zMax : forall (n : nat) (done todo : list elem) topbdry botbdry,
  (n <= length todo)%nat ->
  for_loop n (Z.of_nat (length done)) (move_into_limits zMin zMax)
    (done ++ todo, topbdry, botbdry)
  = Some (done ++ (moved zMin zMax <$> take n todo) ++ drop n todo,
          topbdry || existsb (above zMin) (take n todo),
          botbdry || existsb (below zMin zMax) (take n todo)).
Proof.
  induction n as [|n IH]; intros done todo topbdry botbdry Hn.
  - simpl. rewrite drop_0, !orb_false_r. reflexivity.
  - destruct todo as [|v todo]; [simpl in Hn; lia|].
    cbn [for_loop]. rewrite move_into_limits_middle. simpl.
    replace (Z.of_nat (length done) + 1) with (Z.of_nat (length (done ++ [moved zMin zMax v])))
      by (rewrite length_app; simpl; lia).
    replace (done ++ moved zMin zMax v :: todo) with ((done ++ [moved zMin zMax v]) ++ todo)
      by (rewrite <- app_assoc; reflexivity).
    rewrite IH by (simpl in Hn; lia).
    rewrite <- app_assoc, !orb_assoc. reflexivity.
Qed.

Lemma moved_within zMin zMax v :
  to_real (of_real zMin) = zMin -> to_real (of_real zMax) = zMax ->
  r_ltb zMax zMin = false ->
  within_limits zMin zMax (moved zMin zMax v).
Proof.
  intros HrMin HrMax Hord.
  unfold SourceReceiverSpec.within_limits, SourceReceiverSpec.moved,
    SourceReceiverSpec.moved_down.
  destruct (r_ltb (to_real v) zMin) eqn:E1.
  - rewrite HrMin, Hord, HrMin. rewrite r_ltb_irrefl. split; [reflexivity|exact Hord].
  - destruct (r_ltb zMax (to_real v)) eqn:E2.
    + rewrite HrMax, r_ltb_irrefl. split; [exact Hord|reflexivity].
    + split; assumption.
Qed.

Lemma moved_fixed zMin zMax v : within_limits zMin zMax v -> moved zMin zMax v = v.
Proof.
  intros [H1 H2].
  unfold SourceReceiverSpec.moved, SourceReceiverSpec.moved_down. rewrite H1, H2. reflexivity.
Qed.

Section Lengths.
Hypothesis allocate_length : forall n, length (allocate n) = Z.to_nat n.
Hypothesis Read_vector_length : forall f x n, length (Read_vector f x n).1 = length x.
Hypothesis SubTab_length : forall x n, length (SubTab x n) = length x.
Hypothesis Sort_length : forall x n, length (Sort x n) = length x.

Lemma km_to_m_middle done v rest :
  km_to_m (Z.of_nat (length done)) (done ++ v :: rest)
  = Some (done ++ of_real (r_mul (to_real v) (r_lit 1000)) :: rest).
Proof.
  unfold SourceReceiver.km_to_m. rewrite load_middle. simpl. apply store_middle.
Qed.

Lemma vector_read_length ENVFile :
  length (vector_read ENVFile) = Z.to_nat (Z.max 3 (Read_int (LIST ENVFile)).1).
Proof.
  unfold SourceReceiverSpec.vector_read.
  rewrite Sort_length, SubTab_length, Read_vector_length, length_insert, allocate_length.
  reflexivity.
Qed.

(** X9. [ReadVector] stops the program exactly when the number of values it
    reads from the environment file is not positive, with the message
    [ReadVector: Number of ... must be positive] and before a vector is
    allocated. Otherwise it returns that number [Nx] and a vector of
    [max(3, Nx)] elements, of which the first [Nx], and no other, are
    multiplied by 1000 when the trimmed unit begins with [km]; no access
    leaves the vector. The helpers are to keep the length of the vector. *)
Theorem ReadVector_checks_the_count (Description Units : string) (ENVFile : LDIFile)
    (PRTFile : PrintFileEmu) :
  let Nx := (Read_int (LIST ENVFile)).1 in
  let km := (2 <=? Z.of_nat (String.length (trim Units)))
            && String.eqb (String.substring 0 2 (trim Units)) "km" in
  (Nx <= 0 ->
   exists prt,
     ReadVector Description Units ENVFile PRTFile
     = Abort [Str "ReadVector: Number of "; Str Description; Str " must be positive\n"] prt)
  /\ (0 < Nx ->
      exists x ENV' PRT',
        ReadVector Description Units ENVFile PRTFile = Ret (Nx, x, ENV', PRT')
        /\ length x = Z.to_nat (Z.max 3 Nx)
        /\ x = if km then
                 ((fun v => of_real (r_mul (to_real v) (r_lit 1000)))
                  <$> take (Z.to_nat Nx) (vector_read ENVFile))
                 ++ drop (Z.to_nat Nx) (vector_read ENVFile)
               else vector_read ENVFile).
Proof.
  intros Nx km. pose proof (vector_read_length ENVFile) as Hlen. fold Nx in Hlen.
  unfold SourceReceiverSpec.vector_read in *. subst Nx km. unfold SourceReceiver.ReadVector.
  destruct (Read_int (LIST ENVFile)) as [Nx ENV1]. simpl in *.
  split; intros HNx.
  - destruct (Nx <=? 0) eqn:E; [|apply Z.leb_gt in E; lia]. eexists. reflexivity.
  - destruct (Nx <=? 0) eqn:E; [apply Z.leb_le in E; lia|].
    rewrite store_in_range by (rewrite allocate_length; lia).
    change (Z.to_nat 2) with 2%nat.
    destruct (Read_vector (LIST ENV1) _ Nx) as [x2 ENV2] eqn:HR. simpl in *.
    set (x4 := Sort (SubTab x2 Nx) Nx) in *.
    destruct ((2 <=? Z.of_nat (String.length (trim Units)))
              && String.eqb (String.substring 0 2 (trim Units)) "km").
    + assert (for_loop (Z.to_nat Nx) 0 km_to_m x4
              = Some (((fun v => of_real (r_mul (to_real v) (r_lit 1000)))
                       <$> take (Z.to_nat Nx) x4) ++ drop (Z.to_nat Nx) x4)) as Hloop.
      { apply (for_loop_map (fun v => of_real (r_mul (to_real v) (r_lit 1000))) km_to_m
                 km_to_m_middle (Z.to_nat Nx) [] x4). lia. }
      rewrite Hloop.
      do 3 eexists. split; [reflexivity|]. split; [|reflexivity].
      rewrite length_app, length_fmap, length_take, length_drop. lia.
    + do 3 eexists. split; [reflexivity|]. split; [exact Hlen|reflexivity].
Qed.

(** What a return of [ReadVector] tells its caller. *)
Lemma ReadVector_returns Description Units ENVFile PRTFile Nx x ENV' PRT' :
  ReadVector Description Units ENVFile PRTFile = Ret (Nx, x, ENV', PRT') ->
  0 < Nx /\ (Z.to_nat Nx <= length x)%nat.
Proof.
  unfold SourceReceiver.ReadVector.
  destruct (Read_int (LIST ENVFile)) as [Nx0 ENV1].
  destruct (Nx0 <=? 0) eqn:E; [discriminate|]. apply Z.leb_gt in E.
  rewrite store_in_range by (rewrite allocate_length; lia).
  destruct (Read_vector (LIST ENV1) _ Nx0) as [x2 ENV2] eqn:HR.
  assert (length (Sort (SubTab x2 Nx0) Nx0) = Z.to_nat (Z.max 3 Nx0)) as Hlen.
  { rewrite Sort_length, SubTab_length.
    change x2 with (x2, ENV2).1. rewrite <- HR.
    rewrite Read_vector_length, length_insert, allocate_length. reflexivity. }
  set (x4 := Sort (SubTab x2 Nx0) Nx0) in *.
  destruct ((2 <=? Z.of_nat (String.length (trim Units)))
            && String.eqb (String.substring 0 2 (trim Units)) "km").
  - assert (for_loop (Z.to_nat Nx0) 0 km_to_m x4
            = Some (((fun v => of_real (r_mul (to_real v) (r_lit 1000)))
                     <$> take (Z.to_nat Nx0) x4) ++ drop (Z.to_nat Nx0) x4)) as Hloop.
    { apply (for_loop_map (fun v => of_real (r_mul (to_real v) (r_lit 1000))) km_to_m
               km_to_m_middle (Z.to_nat Nx0) [] x4). lia. }
    rewrite Hloop.
    intros [= <- <- _ _]. split; [exact E|].
    rewrite length_app, length_fmap, length_take, length_drop. lia.
  - intros [= <- <- _ _]. split; [exact E|]. lia.
Qed.


End Lengths.

End SourceReceiverProps.

(** ** The beam box *)

Section BeamBoxProps.
Context `{RealOps} `{!RealLaws}.

(** Two facts of the arithmetic that the comparison of the two box tests
    uses: subtracting the literal 0 changes nothing, and what is below is not
    above. IEEE-754 arithmetic has both. *)
Hypothesis r_sub_0 : forall u : real, r_sub u (r_lit 0) = u.
Hypothesis r_ltb_leb : forall u v : real, r_ltb u v = true -> r_leb u v = true.

(** X11. The beam box in 2D. For a source at range 0 and any depth, a point
    is outside the box in the range when [Box.r <= |x.r|] and in the depth
    when [Box.z <= |x.z|]: the box is centred at depth 0, not at the source;
    a third dimension is refused. A ray that [RayTerminate] stops for
    leaving the box ([|x.r| > Box.r] or [|x.z| > Box.z]) is outside the beam
    box in one of the two; a point on the range face of the box
    ([|x.r| <= Box.r <= |x.r|], [|x.z| <= Box.z]) is outside the beam box and
    has not left the box for [RayTerminate]. *)
Theorem beam_box_2D (x Box_ : vec2) (zs : real) :
  Beams.IsOutsideBeamBoxDim false 0 x (Beams.mkBeamStructure false Box_)
    (mkvec2 (r_lit 0) zs)
  = Some (r_leb (x2 Box_) (r_abs (x2 x)))
  /\ Beams.IsOutsideBeamBoxDim false 1 x (Beams.mkBeamStructure false Box_)
       (mkvec2 (r_lit 0) zs)
     = Some (r_leb (y2 Box_) (r_abs (y2 x)))
  /\ Beams.IsOutsideBeamBoxDim false 2 x (Beams.mkBeamStructure false Box_)
       (mkvec2 (r_lit 0) zs)
     = None
  /\ (Trace.leftbox_2d x Box_ = true ->
      Beams.IsOutsideBeamBoxDim false 0 x (Beams.mkBeamStructure false Box_)
        (mkvec2 (r_lit 0) zs) = Some true
      \/ Beams.IsOutsideBeamBoxDim false 1 x (Beams.mkBeamStructure false Box_)
           (mkvec2 (r_lit 0) zs) = Some true)
  /\ (r_leb (r_abs (x2 x)) (x2 Box_) = true -> r_leb (x2 Box_) (r_abs (x2 x)) = true ->
      r_leb (r_abs (y2 x)) (y2 Box_) = true ->
      Beams.IsOutsideBeamBoxDim false 0 x (Beams.mkBeamStructure false Box_)
        (mkvec2 (r_lit 0) zs) = Some true
      /\ Trace.leftbox_2d x Box_ = false).
Proof.
  assert (Beams.IsOutsideBeamBoxDim false 0 x (Beams.mkBeamStructure false Box_)
            (mkvec2 (r_lit 0) zs)
          = Some (r_leb (x2 Box_) (r_abs (x2 x)))) as Hd0.
  { unfold Beams.IsOutsideBeamBoxDim. simpl. rewrite r_sub_0. reflexivity. }
  assert (Beams.IsOutsideBeamBoxDim false 1 x (Beams.mkBeamStructure false Box_)
            (mkvec2 (r_lit 0) zs)
          = Some (r_leb (y2 Box_) (r_abs (y2 x)))) as Hd1.
  { unfold Beams.IsOutsideBeamBoxDim. simpl. rewrite r_sub_0. reflexivity. }
  split; [exact Hd0|]. split; [exact Hd1|]. split; [reflexivity|]. split.
  - rewrite Hd0, Hd1. unfold Trace.leftbox_2d. intros Hl.
    apply orb_true_iff in Hl as [Hl|Hl]; [left|right]; f_equal; apply r_ltb_leb; exact Hl.
  - intros Hin Hout Hz. rewrite Hd0. split; [f_equal; exact Hout|].
    unfold Trace.leftbox_2d. apply orb_false_iff.
    split; apply r_leb_not_ltb; assumption.
Qed.

End BeamBoxProps.

(** ** Tracing one ray *)

Section UpdateProps.
Context `{RealOps}.
Variable SSPStructure : Type.
Variable BdryType : Type.
Variable HSInfo : Type.
Variable ReflectionInfoTopBot : Type.
Variable Top_hs : BdryType -> HSInfo.
Variable Bot_hs : BdryType -> HSInfo.
Variable Step : Trace.rayPt M2D -> Trace.rayPt M2D -> Trace.BdryState M2D ->
  Trace.BeamStructure M2D -> Trace.Origin M2D -> SSPStructure -> Trace.SSPSegState -> Z ->
  Update.StepResult.
Variable Reflect : Trace.rayPt M2D -> Trace.rayPt M2D -> HSInfo -> bool -> vec2 -> vec2 ->
  Update.ReflCurvature -> real -> ReflectionInfoTopBot -> Trace.BeamStructure M2D ->
  Trace.Origin M2D -> SSPStructure -> Trace.SSPSegState ->
  Trace.rayPt M2D * Trace.SSPSegState.
Variable GetBdrySeg : vec2 -> vec2 -> Trace.BdryStateTopBot M2D -> Update.BdryInfoTopBot ->
  bool -> Trace.BdryStateTopBot M2D.
Variable RayToOceanX : vec2 -> Trace.Origin M2D -> vec2.
Variable RayToOceanT : vec2 -> Trace.Origin M2D -> vec2.

(** [RayUpdate] returns 1, or 2 when [Step] has met a boundary. *)
Lemma RayUpdate_steps point0 point1 point2 iSmallStepCtr org iSeg bds
    (Bdry : BdryType) bdinfo (refl : Update.ReflectionInfo ReflectionInfoTopBot)
    (ssp : SSPStructure) freqinfo Beam :
  let s := Step point0 point1 bds Beam org ssp iSeg iSmallStepCtr in
  Update.numRaySteps
    (Update.RayUpdate SSPStructure BdryType HSInfo ReflectionInfoTopBot Top_hs Bot_hs Step
       Reflect GetBdrySeg RayToOceanX RayToOceanT point0 point1 point2 iSmallStepCtr org iSeg
       bds Bdry bdinfo refl ssp freqinfo Beam)
  = if Update.st_topRefl s || Update.st_botRefl s then 2 else 1.
Proof.
  simpl. unfold Update.RayUpdate.
  destruct (Update.st_topRefl _ || Update.st_botRefl _); reflexivity.
Qed.

End UpdateProps.

Section RayTerminateContract.
Context `{RealOps}.
Variable MaxN : Z.
Variable bhc_max : real -> real -> real.
Variable RayToOceanX : forall m : Mode, VEC23 (R3D m) -> Trace.Origin m -> VEC23 (O3D m).
Import Trace.

(** What the loops of [main.hpp] need of [RayTerminate]: it stops a ray from
    step [MaxN - 3] on, and a ray that it stops has [Nsteps] set to [is] or
    to [is + 1]. *)
Lemma RayTerminate_contract m (point : rayPt m) Nsteps is_ ctr DBT DBB DET DEB org bdinfo
    Beam :
  4 <= MaxN <= Int32.max_signed ->
  (MaxN - 3 <= is_ ->
   term_stop (RayTerminate MaxN bhc_max RayToOceanX m point Nsteps is_ ctr DBT DBB DET DEB
                org bdinfo Beam) = true)
  /\ (0 <= is_ < MaxN ->
      term_stop (RayTerminate MaxN bhc_max RayToOceanX m point Nsteps is_ ctr DBT DBB DET DEB
                   org bdinfo Beam) = true ->
      term_Nsteps (RayTerminate MaxN bhc_max RayToOceanX m point Nsteps is_ ctr DBT DBB DET
                     DEB org bdinfo Beam) = is_
      \/ term_Nsteps (RayTerminate MaxN bhc_max RayToOceanX m point Nsteps is_ ctr DBT DBB
                        DET DEB org bdinfo Beam) = is_ + 1).
Proof.
  intros HM. rewrite RayTerminate_cases.
  assert (Int32.sub MaxN 3 = MaxN - 3) as Hsub.
  { apply Int32_wrap_id. unfold Int32.in_range, Int32.min_signed, Int32.max_signed in *. lia. }
  rewrite Hsub.
  destruct (TraceSpec.any_stop _); simpl.
  - split; [reflexivity|]. intros His _.
    rewrite Int32_add_id
      by (unfold Int32.in_range, Int32.min_signed, Int32.max_signed in *; lia).
    destruct (O3D m && _); [left|right]; reflexivity.
  - destruct (MaxN - 3 <=? is_) eqn:E; simpl.
    + split; [reflexivity|]. intros _ _. left. reflexivity.
    + apply Z.leb_gt in E. split; [lia|discriminate].
Qed.

End RayTerminateContract.

Section MainProps.
Context `{RealOps}.
Variable pt : Type.
Variable Locals : Type.
Variable MaxN : Z.
Variable RayInit : Z -> Z -> real -> pt -> Locals -> bool * (real * pt * Locals).
Variable RayUpdate : pt -> pt -> pt -> Locals -> Z * (pt * pt * Locals).
Variable RayTerminate : pt -> Z -> Z -> Locals -> bool * (Z * Locals).
Variable set_iSmallStepCtr : Z -> Locals -> Locals.

Hypothesis MaxN_range : 4 <= MaxN <= Int32.max_signed.
(** What the loops need of the two functions they call. *)
Hypothesis RayUpdate_1_or_2 : forall point0 point1 point2 locals,
  (RayUpdate point0 point1 point2 locals).1 = 1
  \/ (RayUpdate point0 point1 point2 locals).1 = 2.
Hypothesis RayTerminate_storage : forall point Nsteps is_ locals,
  MaxN - 3 <= is_ -> (RayTerminate point Nsteps is_ locals).1 = true.
Hypothesis RayTerminate_Nsteps : forall point Nsteps is_ locals,
  0 <= is_ < MaxN -> (RayTerminate point Nsteps is_ locals).1 = true ->
  (RayTerminate point Nsteps is_ locals).2.1 = is_
  \/ (RayTerminate point Nsteps is_ locals).2.1 = is_ + 1.

Local Abbreviation ray_loop := (Main.ray_loop pt Locals RayUpdate RayTerminate).
Local Abbreviation MainRayMode :=
  (Main.MainRayMode pt Locals MaxN RayInit RayUpdate RayTerminate set_iSmallStepCtr).

Lemma small_add (is_ d : Z) :
  0 <= is_ <= MaxN - 4 -> 0 <= d <= 2 -> Int32.add is_ d = is_ + d.
Proof.
  intros Hi Hd. apply Int32_add_id.
  unfold Int32.in_range, Int32.min_signed, Int32.max_signed in *. lia.
Qed.

Lemma ray_loop_ends : forall (n : nat) (ray2D : list pt) (is_ Nsteps : Z) (locals : Locals),
  0 <= is_ <= MaxN - 4 -> MaxN - 1 - is_ <= Z.of_nat n ->
  Z.of_nat (length ray2D) = MaxN ->
  exists ray2D' Nsteps',
    ray_loop n ray2D is_ Nsteps locals = Some (ray2D', Nsteps')
    /\ length ray2D' = length ray2D
    /\ (forall i, 0 <= i <= is_ -> load ray2D' i = load ray2D i)
    /\ is_ + 1 <= Nsteps' <= MaxN - 1.
Proof.
  induction n as [|n IH]; intros ray2D is_ Nsteps locals His Hn Hlen; [simpl in Hn; lia|].
  cbn [Main.ray_loop].
  rewrite (small_add is_ 1), (small_add is_ 2) by lia.
  destruct (load_in_range ray2D is_) as [point0 ->]; [lia|].
  destruct (load_in_range ray2D (is_ + 1)) as [point1 ->]; [lia|].
  destruct (load_in_range ray2D (is_ + 2)) as [point2 ->]; [lia|].
  simpl.
  set (u := RayUpdate point0 point1 point2 locals).
  assert (u.1 = 1 \/ u.1 = 2) as Hd by apply RayUpdate_1_or_2.
  rewrite (store_in_range ray2D (is_ + 1)) by lia. simpl.
  rewrite store_in_range by (rewrite length_insert; lia). simpl.
  set (ray2D2 := <[Z.to_nat (is_ + 2) := u.2.1.2]> (<[Z.to_nat (is_ + 1) := u.2.1.1]> ray2D)).
  assert (length ray2D2 = length ray2D) as Hlen2
    by (subst ray2D2; rewrite !length_insert; reflexivity).
  assert (forall i, 0 <= i <= is_ -> load ray2D2 i = load ray2D i) as Hkeep.
  { intros i Hi. unfold load. destruct (decide (0 <= i)); [|lia]. subst ray2D2.
    rewrite !list_lookup_insert_ne by lia. reflexivity. }
  rewrite (small_add is_ u.1) by lia.
  destruct (load_in_range ray2D2 (is_ + u.1)) as [point ->]; [rewrite Hlen2; lia|].
  simpl.
  set (r := RayTerminate point Nsteps (is_ + u.1) u.2.2).
  destruct (r.1) eqn:Hstop.
  - exists ray2D2, r.2.1. split; [reflexivity|]. split; [exact Hlen2|]. split; [exact Hkeep|].
    destruct (RayTerminate_Nsteps point Nsteps (is_ + u.1) u.2.2) as [HN|HN];
      [lia|exact Hstop|fold r in HN; lia..].
  - assert (is_ + u.1 <= MaxN - 4) as Hnext.
    { destruct (Z_le_gt_dec (MaxN - 3) (is_ + u.1)) as [Hge|Hlt]; [|lia].
      pose proof (RayTerminate_storage point Nsteps (is_ + u.1) u.2.2 Hge) as Ht.
      fold r in Ht. congruence. }
    destruct (IH ray2D2 (is_ + u.1) r.2.1 r.2.2) as (ray2D' & Nsteps' & Hrun & Hl & Hk & HN);
      [lia|lia|lia|].
    exists ray2D', Nsteps'. split; [exact Hrun|]. split; [congruence|].
    split; [|lia].
    intros i Hi. rewrite Hk by lia. apply Hkeep. exact Hi.
Qed.

(** X13. [MainRayMode] stays within a trajectory of [MaxN] points and
    always ends through [RayTerminate]: when [RayUpdate] returns 1 or 2 and
    [RayTerminate] stops a ray from step [MaxN - 3] on, recording [is] or
    [is + 1], no access leaves [ray2D], the loop is not left by running out
    of turns, and [Nsteps] ends between 1 and [MaxN - 1]. When [RayInit]
    refuses the ray, [Nsteps] is 1 and only the first point is written. *)
Theorem MainRayMode_stays_in_storage (isrc ialpha : Z) (SrcDeclAngle : real)
    (ray2D : list pt) (Nsteps : Z) (locals : Locals) :
  Z.of_nat (length ray2D) = MaxN ->
  exists SrcDeclAngle' ray2D' Nsteps',
    MainRayMode isrc ialpha SrcDeclAngle ray2D Nsteps locals
    = Some (SrcDeclAngle', ray2D', Nsteps')
    /\ length ray2D' = length ray2D
    /\ 1 <= Nsteps' <= MaxN - 1
    /\ (forall point0, load ray2D 0 = Some point0 ->
        load ray2D' 0 = Some (RayInit isrc ialpha SrcDeclAngle point0 locals).2.1.2
        /\ ((RayInit isrc ialpha SrcDeclAngle point0 locals).1 = false ->
            Nsteps' = 1
            /\ forall i, 0 < i -> load ray2D' i = load ray2D i)).
Proof.
  intros Hlen. unfold Main.MainRayMode.
  destruct (load_in_range ray2D 0) as [point0 Hp0]; [lia|]. rewrite Hp0. simpl.
  set (i := RayInit isrc ialpha SrcDeclAngle point0 locals).
  rewrite (store_in_range ray2D 0) by lia. simpl.
  set (ray2D0 := <[Z.to_nat 0 := i.2.1.2]> ray2D).
  assert (length ray2D0 = length ray2D) as Hlen0 by (subst ray2D0; apply length_insert).
  assert (load ray2D0 0 = Some i.2.1.2) as Hfirst.
  { unfold load. simpl. subst ray2D0. apply list_lookup_insert_eq. lia. }
  destruct (i.1) eqn:Hok; simpl.
  - assert (Int32.sub MaxN 1 = MaxN - 1) as Hsub.
    { apply Int32_wrap_id. unfold Int32.in_range, Int32.min_signed, Int32.max_signed in *. lia. }
    rewrite Hsub.
    destruct (ray_loop_ends (Z.to_nat (MaxN - 1)) ray2D0 0 Nsteps (set_iSmallStepCtr 0 i.2.2))
      as (ray2D' & Nsteps' & Hrun & Hl & Hk & HN); [lia|lia|lia|].
    rewrite Hrun. simpl. exists i.2.1.1, ray2D', Nsteps'.
    split; [reflexivity|]. split; [congruence|]. split; [lia|].
    intros point0' [= <-]. split; [rewrite Hk by lia; exact Hfirst|].
    fold i. congruence.
  - exists i.2.1.1, ray2D0, 1. split; [reflexivity|]. split; [exact Hlen0|].
    split; [lia|]. intros point0' [= <-]. split; [exact Hfirst|].
    intros _. split; [reflexivity|].
    intros j Hj. unfold load. destruct (decide (0 <= j)); [|reflexivity]. subst ray2D0.
    apply list_lookup_insert_ne. lia.
Qed.

Section Field.
Variable Infl : Type.
Variable Field : Type.
Variable NRz_per_range : Infl -> Z.
Variable NRr : Z.
Variable Init_Influence : Infl -> pt -> Z -> Locals -> Infl.
Variable Step_Influence : pt -> pt -> Infl -> Z -> Z -> Field -> Locals ->
  Infl * Field * Locals.

Local Abbreviation field_loop :=
  (Main.field_loop pt Locals RayUpdate RayTerminate Infl Field Step_Influence).
Local Abbreviation MainTLMode :=
  (Main.MainTLMode pt Locals MaxN RayInit RayUpdate RayTerminate set_iSmallStepCtr Infl Field
     NRz_per_range NRr Init_Influence Step_Influence).

Lemma field_loop_ends : forall (n : nat) (u_ : Z) (s : Main.TLState pt Locals Infl Field),
  0 <= Main.tl_is s <= MaxN - 4 -> MaxN - 1 - Main.tl_is s <= Z.of_nat n ->
  exists s',
    field_loop n u_ s = Main.Ret s'
    /\ Main.tl_is s < Main.tl_is s' <= MaxN - 2
    /\ (Main.tl_Nsteps s' = Main.tl_is s' \/ Main.tl_Nsteps s' = Main.tl_is s' + 1).
Proof.
  induction n as [|n IH]; intros u_ s His Hn; [simpl in Hn; lia|].
  cbn [Main.field_loop].
  set (up := RayUpdate (Main.tl_point0 s) (Main.tl_point1 s) (Main.tl_point2 s)
               (Main.tl_locals s)).
  assert (up.1 = 1 \/ up.1 = 2) as Hd by apply RayUpdate_1_or_2.
  set (i1 := Step_Influence (Main.tl_point0 s) up.2.1.1 (Main.tl_inflray s) (Main.tl_is s) u_
               (Main.tl_u s) up.2.2).
  assert (forall point0' (i : Infl * Field * Locals),
            exists s',
              (let is' := Int32.add (Main.tl_is s) up.1 in
               let r := RayTerminate point0' (Main.tl_Nsteps s) is' i.2 in
               let s1 := Main.mkTLState pt Locals Infl Field point0' up.2.1.1 up.2.1.2
                           i.1.1 i.1.2 is' r.2.1 r.2.2 in
               if r.1 then Main.Ret s1 else field_loop n u_ s1) = Main.Ret s'
              /\ Main.tl_is s < Main.tl_is s' <= MaxN - 2
              /\ (Main.tl_Nsteps s' = Main.tl_is s' \/ Main.tl_Nsteps s' = Main.tl_is s' + 1))
    as Hafter.
  { intros point0' i. cbv zeta. rewrite (small_add (Main.tl_is s) up.1) by lia.
    set (r := RayTerminate point0' (Main.tl_Nsteps s) (Main.tl_is s + up.1) i.2).
    destruct (r.1) eqn:Hstop.
    - eexists. split; [reflexivity|]. simpl. split; [lia|].
      destruct (RayTerminate_Nsteps point0' (Main.tl_Nsteps s) (Main.tl_is s + up.1) i.2)
        as [HN|HN]; [lia|exact Hstop|fold r in HN; tauto..].
    - assert (Main.tl_is s + up.1 <= MaxN - 4) as Hnext.
      { destruct (Z_le_gt_dec (MaxN - 3) (Main.tl_is s + up.1)) as [Hge|Hlt]; [|lia].
        pose proof (RayTerminate_storage point0' (Main.tl_Nsteps s) (Main.tl_is s + up.1)
                      i.2 Hge) as Ht.
        fold r in Ht. congruence. }
      edestruct (IH u_) as (s' & Hrun & Hlt & HN); [| |exists s'; split; [exact Hrun|]].
      + simpl. lia.
      + simpl. lia.
      + simpl in Hlt. split; [lia|exact HN]. }
  destruct Hd as [Hd|Hd]; rewrite Hd in *; simpl.
  - apply Hafter.
  - apply Hafter.
Qed.

(** X14. [MainTLMode] never stops the program for an invalid number of
    steps, and always ends through [RayTerminate]: when [RayUpdate] returns
    1 or 2 and [RayTerminate] stops a ray from step [MaxN - 3] on, the call
    returns; if [RayInit] refuses the ray, the field, the influence data and
    the step index are as they were; otherwise the ray has taken between 1
    and [MaxN - 2] steps, and [Nsteps] is that number or one more. *)
Theorem MainTLMode_returns (isrc ialpha : Z) (SrcDeclAngle : real) (uAllSources : Field)
    (point0 point1 point2 : pt) (inflray : Infl) (Nsteps : Z) (locals : Locals) :
  exists SrcDeclAngle' s,
    MainTLMode isrc ialpha SrcDeclAngle uAllSources point0 point1 point2 inflray Nsteps locals
    = Main.Ret (SrcDeclAngle', s)
    /\ if (RayInit isrc ialpha SrcDeclAngle point0 locals).1 then
         1 <= Main.tl_is s <= MaxN - 2
         /\ (Main.tl_Nsteps s = Main.tl_is s \/ Main.tl_Nsteps s = Main.tl_is s + 1)
       else
         Main.tl_u s = uAllSources /\ Main.tl_inflray s = inflray
         /\ Main.tl_is s = 0 /\ Main.tl_Nsteps s = Nsteps.
Proof.
  unfold Main.MainTLMode.
  set (i := RayInit isrc ialpha SrcDeclAngle point0 locals).
  destruct (i.1) eqn:Hok; simpl.
  - assert (Int32.sub MaxN 1 = MaxN - 1) as Hsub.
    { apply Int32_wrap_id. unfold Int32.in_range, Int32.min_signed, Int32.max_signed in *. lia. }
    rewrite Hsub.
    edestruct (field_loop_ends (Z.to_nat (MaxN - 1))) as (s' & Hrun & Hlt & HN);
      [| |rewrite Hrun].
    + simpl. lia.
    + simpl. lia.
    + simpl in Hlt. exists i.2.1.1, s'. split; [reflexivity|]. split; [lia|exact HN].
  - do 2 eexists. split; [reflexivity|]. simpl. repeat split; reflexivity.
Qed.

End Field.

End MainProps.

(** ** Writing the pressure field *)

Section TLProps.
Context `{RealOps}.
Variable SSPStructure : Type.
Variable BeamStructure : Type.
Variable Compute_NRz_per_range : Common.Position -> BeamStructure -> Z.
Variable EvaluateSSPCOnly : vec2 -> real -> SSPStructure -> Z -> Z -> cpx * Z * Z.
Variable ScalePressure : real -> real -> (Z -> real) -> list cpx -> Z -> Z -> Z -> string ->
  real -> list cpx.
Hypothesis ScalePressure_length : forall Dalpha c Rr u u_ NRz NRr RunType freq0,
  length (ScalePressure Dalpha c Rr u u_ NRz NRr RunType freq0) = length u.

Variable Pos : Common.Position.
Variable NRz_per_range : Z.
Variable Dalpha freq0 : real.
Variable ssp : SSPStructure.
Variable RunType : string.

Local Abbreviation NSz := (Common.NSz Pos).
Local Abbreviation NRr := (Common.NRr Pos).
Local Abbreviation scale_source :=
  (TL.scale_source SSPStructure EvaluateSSPCOnly ScalePressure Pos NRz_per_range Dalpha freq0
     ssp RunType).
Local Abbreviation scaled :=
  (TLSpec.scaled SSPStructure EvaluateSSPCOnly ScalePressure Pos NRz_per_range Dalpha freq0
     ssp RunType).
Local Abbreviation write_sources :=
  (TL.write_sources SSPStructure EvaluateSSPCOnly ScalePressure).

Hypothesis sizes : 0 <= NSz <= Int32.max_signed /\ 0 <= NRz_per_range /\ 0 <= NRr.
Hypothesis fits : NSz * NRz_per_range * NRr <= Int32.max_signed
                  /\ 10 + NSz * NRz_per_range <= Int32.max_signed.

Lemma int32_id (z : Z) : 0 <= z <= Int32.max_signed -> Int32.wrap z = z.
Proof.
  intros Hz. apply Int32_wrap_id.
  unfold Int32.in_range, Int32.min_signed, Int32.max_signed in *. lia.
Qed.

Lemma scale_source_length isrc u : length (scale_source isrc u) = length u.
Proof. unfold TL.scale_source. apply ScalePressure_length. Qed.

Lemma scaled_length u isrc : length (scaled u isrc) = length u.
Proof.
  induction isrc as [|i IH]; simpl; rewrite scale_source_length; [reflexivity|exact IH].
Qed.

Lemma drop_load {A : Type} (l : list A) (k : Z) (v : A) :
  load l k = Some v -> drop (Z.to_nat k) l = v :: drop (S (Z.to_nat k)) l.
Proof.
  intros Hl. apply load_inv in Hl as [_ Hlk].
  apply drop_S. exact Hlk.
Qed.

Lemma write_record_ok (u : list cpx) (row : Z) : forall (n : nat) (r : Z),
  0 <= row -> 0 <= r -> r + Z.of_nat n = NRr ->
  (row + 1) * NRr <= Z.of_nat (length u) -> Z.of_nat (length u) <= Int32.max_signed ->
  TL.write_record n r u row NRr
  = Some (TL.SHDwrite <$> take n (drop (Z.to_nat (row * NRr + r)) u)).
Proof.
  induction n as [|n IH]; intros r Hrow Hr Hsum Hlen Hmax; [reflexivity|].
  cbn [TL.write_record].
  assert (0 <= row * NRr) as Hrn by (apply Z.mul_nonneg_nonneg; lia).
  unfold Int32.mul, Int32.add. rewrite (int32_id (row * NRr)) by lia.
  rewrite (int32_id (row * NRr + r)), (int32_id (r + 1)) by lia.
  destruct (load_in_range u (row * NRr + r)) as [v Hv]; [lia|].
  rewrite Hv. simpl.
  pose proof (IH (r + 1) Hrow ltac:(lia) ltac:(lia) Hlen Hmax) as Hrest.
  rewrite Hrest. simpl. rewrite (drop_load _ _ _ Hv). simpl.
  replace (Z.to_nat (row * NRr + (r + 1))) with (S (Z.to_nat (row * NRr + r))) by lia.
  reflexivity.
Qed.

Lemma write_source_ok (u : list cpx) (isrc : Z) : forall (n : nat) (Irz1 : Z),
  0 <= isrc < NSz -> 0 <= Irz1 -> Irz1 + Z.of_nat n = NRz_per_range ->
  Z.of_nat (length u) = NSz * NRz_per_range * NRr ->
  TL.write_source n Irz1 (10 + (isrc * NRz_per_range + Irz1)) u isrc NRz_per_range NRr
  = Some (concat (TLSpec.record NRr u <$> seqZ (isrc * NRz_per_range + Irz1) (Z.of_nat n))).
Proof.
  destruct sizes as (HS & HZ & HR). destruct fits as (Hn & Hrec).
  induction n as [|n IH]; intros Irz1 Hisrc HI Hsum Hlen; [reflexivity|].
  cbn [TL.write_source].
  assert (0 <= isrc * NRz_per_range) as Hin by (apply Z.mul_nonneg_nonneg; lia).
  assert (isrc * NRz_per_range + NRz_per_range <= NSz * NRz_per_range) as Hblock.
  { assert (0 <= (NSz - isrc - 1) * NRz_per_range) by (apply Z.mul_nonneg_nonneg; lia). lia. }
  unfold Int32.mul, Int32.add. rewrite (int32_id (isrc * NRz_per_range)) by lia.
  rewrite (int32_id (isrc * NRz_per_range + Irz1)), (int32_id (Irz1 + 1)) by lia.
  rewrite (int32_id (10 + (isrc * NRz_per_range + Irz1) + 1)) by lia.
  rewrite (write_record_ok u (isrc * NRz_per_range + Irz1) (Z.to_nat NRr) 0);
    [|lia|lia|lia| |lia].
  2:{ rewrite Hlen.
      assert (0 <= (NSz * NRz_per_range - (isrc * NRz_per_range + Irz1 + 1)) * NRr)
        by (apply Z.mul_nonneg_nonneg; lia).
      lia. }
  simpl.
  pose proof (IH (Irz1 + 1) Hisrc ltac:(lia) ltac:(lia) Hlen) as Hrest.
  replace (10 + (isrc * NRz_per_range + (Irz1 + 1)))
    with (10 + (isrc * NRz_per_range + Irz1) + 1) in Hrest by lia.
  rewrite Hrest. simpl.
  rewrite (seqZ_cons (isrc * NRz_per_range + Irz1)) by lia.
  rewrite fmap_cons, concat_cons. unfold TLSpec.record at 2. simpl.
  rewrite Z.add_0_r.
  replace (Z.succ (isrc * NRz_per_range + Irz1)) with (isrc * NRz_per_range + (Irz1 + 1))
    by lia.
  replace (Z.pred (Z.of_nat (S n))) with (Z.of_nat n) by lia.
  reflexivity.
Qed.

Lemma rows_of_source (u : list cpx) (isrc : nat) :
  0 < NRz_per_range ->
  (fun row => TLSpec.record NRr (scaled u (Z.to_nat (row / NRz_per_range))) row)
  <$> seqZ (Z.of_nat isrc * NRz_per_range) NRz_per_range
  = TLSpec.record NRr (scaled u isrc) <$> seqZ (Z.of_nat isrc * NRz_per_range) NRz_per_range.
Proof.
  intros HZ. apply Forall_fmap_ext_1, Forall_forall. intros row Hrow.
  apply elem_of_seqZ in Hrow.
  replace (row / NRz_per_range) with (Z.of_nat isrc); [rewrite Nat2Z.id; reflexivity|].
  apply (Zdiv_unique row NRz_per_range (Z.of_nat isrc)
                     (row - Z.of_nat isrc * NRz_per_range)); lia.
Qed.

Lemma write_sources_ok (u0 : list cpx) : forall (n : nat) (isrc : nat) (w : list cpx),
  Z.of_nat isrc + Z.of_nat n = NSz ->
  Z.of_nat (length u0) = NSz * NRz_per_range * NRr ->
  scale_source (Z.of_nat isrc) w = scaled u0 isrc ->
  write_sources n (Z.of_nat isrc) w Pos NRz_per_range Dalpha freq0 ssp RunType
  = Some (concat
            ((fun row => TLSpec.record NRr (scaled u0 (Z.to_nat (row / NRz_per_range))) row)
             <$> seqZ (Z.of_nat isrc * NRz_per_range) (Z.of_nat n * NRz_per_range))).
Proof.
  destruct sizes as (HS & HZ & HR). destruct fits as (Hn & Hrec).
  induction n as [|n IH]; intros isrc w Hsum Hlen Hw; [reflexivity|].
  cbn [TL.write_sources]. rewrite Hw.
  assert (0 <= Z.of_nat isrc * NRz_per_range) as Hin by (apply Z.mul_nonneg_nonneg; lia).
  assert (Z.of_nat isrc * NRz_per_range + NRz_per_range <= NSz * NRz_per_range) as Hblock.
  { assert (0 <= (NSz - Z.of_nat isrc - 1) * NRz_per_range)
      by (apply Z.mul_nonneg_nonneg; lia).
    lia. }
  unfold Int32.mul, Int32.add.
  rewrite (Z.mul_comm NRz_per_range (Z.of_nat isrc)).
  rewrite (int32_id (Z.of_nat isrc * NRz_per_range)) by lia.
  rewrite (int32_id (10 + Z.of_nat isrc * NRz_per_range)) by lia.
  rewrite (int32_id (Z.of_nat isrc + 1)) by lia.
  pose proof (write_source_ok (scaled u0 isrc) (Z.of_nat isrc) (Z.to_nat NRz_per_range) 0
                ltac:(lia) ltac:(lia) ltac:(lia)) as Hsrc.
  rewrite scaled_length, Z.add_0_r, Z2Nat.id in Hsrc by lia.
  rewrite (Hsrc Hlen). simpl.
  replace (Z.of_nat isrc + 1) with (Z.of_nat (S isrc)) by lia.
  rewrite (IH (S isrc) (scaled u0 isrc)) by (try reflexivity; lia).
  simpl. f_equal.
  replace (Z.of_nat (S n) * NRz_per_range)
    with (NRz_per_range + Z.of_nat n * NRz_per_range) by lia.
  assert (0 <= Z.of_nat n * NRz_per_range) by (apply Z.mul_nonneg_nonneg; lia).
  rewrite seqZ_app, fmap_app, concat_app by lia.
  replace (Z.of_nat isrc * NRz_per_range + NRz_per_range)
    with (Z.of_nat (S isrc) * NRz_per_range) by lia.
  f_equal.
  destruct (Z.eq_dec NRz_per_range 0) as [Hzero|Hne].
  - rewrite Hzero. reflexivity.
  - rewrite rows_of_source by lia. reflexivity.
Qed.

(** X17. [FinalizeTLMode] writes the field that [InitTLMode] has allocated,
    all of it and in the order in which it is stored: the records of the file
    are numbered from 10 on, one after the other, [NSz * NRz_per_range] of
    them, and record [10 + row] holds the [NRr] values from index
    [row * NRr] on, as [ScalePressure] has left them for the source
    [row / NRz_per_range]; no read leaves the field. The numbers are to fit
    an [int32_t], and [ScalePressure] is to keep the size of the field. *)
Theorem FinalizeTLMode_writes_the_field (Beam : BeamStructure) (uAllSources : list cpx) :
  Compute_NRz_per_range Pos Beam = NRz_per_range ->
  length uAllSources = length (TL.InitTLMode BeamStructure Compute_NRz_per_range Pos Beam) ->
  TL.FinalizeTLMode SSPStructure EvaluateSSPCOnly ScalePressure uAllSources Pos NRz_per_range
    Dalpha freq0 ssp RunType
  = Some (concat
            ((fun row =>
                TLSpec.record NRr (scaled uAllSources (Z.to_nat (row / NRz_per_range))) row)
             <$> seqZ 0 (NSz * NRz_per_range)))
  /\ Z.of_nat (length uAllSources) = NSz * NRz_per_range * NRr.
Proof.
  intros HNRz Hlen.
  destruct sizes as (HS & HZ & HR). destruct fits as (Hn & Hrec).
  assert (0 <= NSz * NRz_per_range) as H1 by (apply Z.mul_nonneg_nonneg; lia).
  assert (0 <= NSz * NRz_per_range * NRr) as H2 by (apply Z.mul_nonneg_nonneg; lia).
  assert (Z.of_nat (length uAllSources) = NSz * NRz_per_range * NRr) as Hlen'.
  { rewrite Hlen. unfold TL.InitTLMode. rewrite HNRz, length_replicate.
    unfold Int32.mul, SizeT.wrap.
    rewrite (int32_id (NSz * NRz_per_range)).
    - rewrite (int32_id (NSz * NRz_per_range * NRr)) by lia.
      rewrite Z.mod_small by (unfold Int32.max_signed in *; lia). lia.
    - split; [lia|].
      destruct (Z.eq_dec NRr 0) as [Hzero|Hne]; [lia|].
      assert (0 <= NSz * NRz_per_range * (NRr - 1)) by (apply Z.mul_nonneg_nonneg; lia).
      lia. }
  split; [|exact Hlen'].
  unfold TL.FinalizeTLMode.
  pose proof (write_sources_ok uAllSources (Z.to_nat NSz) 0 uAllSources) as Hrun.
  simpl in Hrun. rewrite Z2Nat.id in Hrun by lia.
  apply Hrun; [lia|exact Hlen'|reflexivity].
Qed.

End TLProps.

(** ** Appending to a cell with room *)

Section AppendProps.
Context `{RealOps} `{!CpxAbs}.
Variable GetFieldAddr : Z -> Z -> Z -> Z -> Z -> Z -> Common.Position -> Z.
Import Arrivals ArrivalsSpec.

(** X15. In the merge-enabled policy, a candidate that does not merge, as the
    first arrival of a cell never does, is appended when the cell has room:
    with [Nt < MaxNArr] arrivals stored, the call stores the candidate in
    slot [Nt] of the cell, makes the count [Nt + 1], and leaves the other
    slots of the cell and all other counts as they were. *)
Theorem AddArr_appends_when_room {O3D : bool} (itheta id ir : Z) (Amp omega Phase_ : real)
    (delay_ : cpx) (rinit : Common.RayInitInfo O3D) (Rd Ra : real) (ntb nbb : Z)
    (arrinfo : ArrInfo) (Pos : Common.Position) (ncells Nt : Z) :
  AllowMerging arrinfo = true ->
  table_ok arrinfo ncells ->
  0 <= GetFieldAddr (Common.isx rinit) (Common.isy rinit) (Common.isz rinit) itheta id ir Pos
    < ncells ->
  load (NArr arrinfo)
    (GetFieldAddr (Common.isx rinit) (Common.isy rinit) (Common.isz rinit) itheta id ir Pos)
  = Some Nt ->
  0 <= Nt < MaxNArr arrinfo ->
  Nt = 0
  \/ IsSecondStepOfPair omega Phase_ delay_ (Arr arrinfo)
       (GetFieldAddr (Common.isx rinit) (Common.isy rinit) (Common.isz rinit) itheta id ir Pos
        * MaxNArr arrinfo) Nt
     = Some false ->
  exists arrinfo',
    AddArr GetFieldAddr itheta id ir Amp omega Phase_ delay_ rinit Rd Ra ntb nbb arrinfo Pos
    = Some arrinfo'
    /\ load (NArr arrinfo')
         (GetFieldAddr (Common.isx rinit) (Common.isy rinit) (Common.isz rinit) itheta id ir Pos)
       = Some (Nt + 1)
    /\ slot arrinfo'
         (GetFieldAddr (Common.isx rinit) (Common.isy rinit) (Common.isz rinit) itheta id ir Pos)
         Nt
       = Some (new_arrival Amp Phase_ delay_ rinit Rd Ra ntb nbb)
    /\ (forall i, 0 <= i < MaxNArr arrinfo -> i <> Nt ->
          slot arrinfo'
            (GetFieldAddr (Common.isx rinit) (Common.isy rinit) (Common.isz rinit)
               itheta id ir Pos) i
          = slot arrinfo
              (GetFieldAddr (Common.isx rinit) (Common.isy rinit) (Common.isz rinit)
                 itheta id ir Pos) i)
    /\ (forall b,
          b <> GetFieldAddr (Common.isx rinit) (Common.isy rinit) (Common.isz rinit)
                 itheta id ir Pos ->
          load (NArr arrinfo') b = load (NArr arrinfo) b)
    /\ MaxNArr arrinfo' = MaxNArr arrinfo.
Proof.
  set (base := GetFieldAddr _ _ _ _ _ _ _).
  intros Hm Hok Hb HNt HNtr Hpair. unfold AddArr. rewrite Hm. fold base.
  unfold AddArr_merging. rewrite HNt. simpl.
  assert (IsSecondStepOfPair omega Phase_ delay_ (Arr arrinfo) (base * MaxNArr arrinfo) Nt
          = Some false) as Hp.
  { destruct Hpair as [->|Hp]; [reflexivity|exact Hp]. }
  rewrite Hp. simpl.
  destruct (MaxNArr arrinfo <=? Nt) eqn:E; [apply Z.leb_le in E; lia|].
  pose proof Hok as (HM & HlenN & HlenA).
  assert (Int32.add Nt 1 = Nt + 1) as Hadd.
  { apply Int32_add_id. unfold Int32.in_range, Int32.min_signed, Int32.max_signed in *. lia. }
  rewrite Hadd.
  assert (0 <= base < Z.of_nat (length (NArr arrinfo))) as Hbi by lia.
  destruct (store (NArr arrinfo) base (Nt + 1)) as [NArr'|] eqn:HsN;
    [|rewrite (store_in_range _ _ _ Hbi) in HsN; discriminate].
  simpl.
  assert (0 <= base * MaxNArr arrinfo + Nt < Z.of_nat (length (Arr arrinfo))) as Hi.
  { apply (slot_in_range arrinfo ncells); assumption. }
  destruct (store (Arr arrinfo) (base * MaxNArr arrinfo + Nt)
              (new_arrival Amp Phase_ delay_ rinit Rd Ra ntb nbb)) as [Arr'|] eqn:HsA;
    [|rewrite (store_in_range _ _ _ Hi) in HsA; discriminate].
  simpl. eexists. split; [reflexivity|]. unfold slot. simpl.
  split; [eapply load_store_eq; exact HsN|].
  split; [eapply load_store_eq; exact HsA|].
  split; [|split; [|reflexivity]].
  - intros i Hir Hne. apply (load_store_ne _ _ _ _ _ HsA). lia.
  - intros b Hne. apply (load_store_ne _ _ _ _ _ HsN). exact Hne.
Qed.

End AppendProps.

(** ** One worker and a single launch angle *)

Section SingleAngle.
Context `{RealOps}.
Import Jobs.

Lemma FieldModesWorker_single_from (Pos : Common.Position) (Angles : Common.AnglesStructure)
    (n : nat) (job : Z) (done : list (Z * Z)) :
  0 <= Common.iSingle_alpha Angles -> Common.NSz Pos < Int32.max_signed ->
  0 <= job -> job + Z.of_nat n = Z.max 0 (Common.NSz Pos) ->
  FieldModesWorker (S n) job Pos Angles done
  = Some (Z.max 0 (Common.NSz Pos) + 1,
          done ++ ((fun j => (j, Common.iSingle_alpha Angles)) <$> seqZ job (Z.of_nat n))).
Proof.
  intros Hs Hmax. revert job done.
  induction n as [|n IH]; intros job done Hj Hsum;
    rewrite FieldModesWorker_unfold; unfold GetJobIndices;
    (destruct (0 <=? Common.iSingle_alpha Angles) eqn:E; [|apply Z.leb_gt in E; lia]);
    (rewrite Int32_add_id
      by (unfold Int32.in_range, Int32.min_signed, Int32.max_signed in *; lia)).
  - destruct (job <? Common.NSz Pos) eqn:E1; [apply Z.ltb_lt in E1; lia|].
    simpl. rewrite app_nil_r. do 2 f_equal. lia.
  - destruct (job <? Common.NSz Pos) eqn:E1; [|apply Z.ltb_ge in E1; lia].
    apply Z.ltb_lt in E1.
    rewrite IH by lia. do 2 f_equal.
    rewrite <- app_assoc. f_equal.
    rewrite (seqZ_cons job) by lia. simpl. do 2 f_equal. f_equal; lia.
Qed.

(** X16. With a single launch angle ([iSingle_alpha >= 0]) there is one job
    for each source: one worker that starts at [sharedJobID = 0] leaves its
    loop after [NSz + 1] turns, having run the sources [0 .. NSz - 1] in
    order, each with that angle, whatever [Nalpha] is. Without sources
    ([NSz <= 0]) it runs no job. *)
Theorem FieldModesWorker_single_angle (Pos : Common.Position)
    (Angles : Common.AnglesStructure) :
  0 <= Common.iSingle_alpha Angles -> Common.NSz Pos < Int32.max_signed ->
  FieldModesWorker (S (Z.to_nat (Common.NSz Pos))) 0 Pos Angles []
  = Some (Z.max 0 (Common.NSz Pos) + 1,
          (fun j => (j, Common.iSingle_alpha Angles)) <$> seqZ 0 (Common.NSz Pos)).
Proof.
  intros Hs Hmax.
  rewrite (FieldModesWorker_single_from Pos Angles _ 0 []) by (try assumption; lia).
  simpl. do 3 f_equal. unfold seqZ. rewrite Nat2Z.id. reflexivity.
Qed.

End SingleAngle.

(** ** The first arrivals of a cell are the ones kept *)

Section KeptProps.
Context `{RealOps} `{!CpxAbs}.
Variable GetFieldAddr : Z -> Z -> Z -> Z -> Z -> Z -> Common.Position -> Z.
Import Arrivals ArrivalsSpec.

Local Abbreviation records_to := (ArrivalsOrder.records_to GetFieldAddr).

Lemma run_calls_atomic_kept {O3D : bool} Pos (cs : list (AddArrCall O3D)) ncells :
  forall arrinfo (cnt : Z -> Z),
  AllowMerging arrinfo = false -> table_ok arrinfo ncells ->
  (forall b, 0 <= b < ncells ->
     load (NArr arrinfo) b = Some (cnt b)
     /\ 0 <= cnt b /\ cnt b + Z.of_nat (length cs) <= Int32.max_signed) ->
  Forall (fun c => 0 <= call_base GetFieldAddr Pos c < ncells) cs ->
  exists arrinfo',
    run_calls GetFieldAddr Pos arrinfo cs = Some arrinfo'
    /\ MaxNArr arrinfo' = MaxNArr arrinfo
    /\ forall b i, 0 <= b < ncells -> 0 <= i < MaxNArr arrinfo ->
         slot arrinfo' b i
         = if i <? cnt b then slot arrinfo b i
           else match records_to Pos b cs !! Z.to_nat (i - cnt b) with
                | Some rec => Some rec
                | None => slot arrinfo b i
                end.
Proof.
  induction cs as [|c cs IH]; intros arrinfo cnt Hm Hok Hcnt Hcs; simpl.
  - exists arrinfo. split; [reflexivity|]. split; [reflexivity|].
    intros b i Hb Hi. destruct (i <? cnt b); reflexivity.
  - apply Forall_cons in Hcs as [Hb Hcs].
    set (base := call_base GetFieldAddr Pos c) in *.
    destruct (Hcnt base Hb) as (Hld & Hc0 & Hcmax). simpl in Hcmax.
    unfold run_call, AddArr. rewrite Hm. fold (call_base GetFieldAddr Pos c). fold base.
    edestruct (AddArr_atomic_ok (O3D := O3D) arrinfo ncells base (cnt base))
      as (arrinfo1 & -> & HN1 & HA1 & HM1 & Hm1 & Hok1); [eassumption..|].
    simpl.
    fold (ArrivalsOrder.call_record c) in HA1.
    pose proof Hok as (HMr & HlenN & HlenA).
    destruct (IH arrinfo1 (fun b => if b =? base then cnt b + 1 else cnt b))
      as (arrinfo' & Hrun & HM' & Hslots).
    + congruence.
    + exact Hok1.
    + intros b Hb'. destruct (Hcnt b Hb') as (Hldb & Hcb0 & Hcbmax). simpl in Hcbmax.
      rewrite HN1. unfold load in *.
      destruct (decide (0 <= b)); [|lia].
      destruct (b =? base) eqn:E.
      * apply Z.eqb_eq in E. subst b.
        rewrite list_lookup_insert_eq by lia.
        rewrite Int32_add_id
          by (unfold Int32.in_range, Int32.min_signed, Int32.max_signed in *; lia).
        repeat split; lia.
      * apply Z.eqb_neq in E. rewrite list_lookup_insert_ne by lia.
        repeat split; [exact Hldb|lia|lia].
    + exact Hcs.
    + exists arrinfo'. split; [exact Hrun|]. split; [congruence|].
      intros b i Hb' Hi. rewrite Hslots by (rewrite ?HM1; assumption).
      assert (forall j, 0 <= j < MaxNArr arrinfo -> (b <> base \/ j <> cnt base) ->
                slot arrinfo1 b j = slot arrinfo b j) as Hkeep.
      { intros j Hj Hdiff. unfold slot. rewrite HM1, HA1.
        destruct (MaxNArr arrinfo <=? cnt base) eqn:E; [reflexivity|].
        apply Z.leb_gt in E. unfold load.
        destruct (decide (0 <= b * MaxNArr arrinfo + j)); [|reflexivity].
        apply list_lookup_insert_ne.
        assert (0 <= base * MaxNArr arrinfo + cnt base) by nia.
        destruct (Z.eq_dec b base) as [->|Hne]; [lia|].
        pose proof (other_cell_slot (MaxNArr arrinfo) base b (cnt base) j Hne ltac:(lia) Hj).
        lia. }
      rewrite (Z.eqb_sym base b).
      destruct (b =? base) eqn:E.
      * apply Z.eqb_eq in E. subst b.
        destruct (i <? cnt base) eqn:E1.
        -- apply Z.ltb_lt in E1.
           destruct (i <? cnt base + 1) eqn:E2; [|apply Z.ltb_ge in E2; lia].
           apply Hkeep; [exact Hi|right; lia].
        -- apply Z.ltb_ge in E1.
           destruct (Z.eq_dec i (cnt base)) as [->|Hne].
           ++ destruct (cnt base <? cnt base + 1) eqn:E2; [|apply Z.ltb_ge in E2; lia].
              replace (Z.to_nat (cnt base - cnt base)) with 0%nat by lia.
              change ((ArrivalsOrder.call_record c :: records_to Pos base cs) !! 0%nat)
                with (Some (ArrivalsOrder.call_record c)).
              unfold slot. rewrite HM1, HA1.
              destruct (MaxNArr arrinfo <=? cnt base) eqn:E3; [apply Z.leb_le in E3; lia|].
              unfold load.
              destruct (decide (0 <= base * MaxNArr arrinfo + cnt base)); [|nia].
              apply list_lookup_insert_eq.
              pose proof (slot_in_range arrinfo ncells base (cnt base) Hok Hb Hi). lia.
           ++ destruct (i <? cnt base + 1) eqn:E2; [apply Z.ltb_lt in E2; lia|].
              replace (Z.to_nat (i - cnt base)) with (S (Z.to_nat (i - (cnt base + 1))))
                by lia.
              simpl. rewrite (Hkeep i Hi) by (right; exact Hne). reflexivity.
      * apply Z.eqb_neq in E.
        rewrite (Hkeep i Hi) by (left; exact E). reflexivity.
Qed.

(** X18. In the merge-disabled policy, run by one worker, a cell keeps its
    first [MaxNArr] arrivals, in the order in which they came: after any
    calls on a table with all counts zero, slot [i] of a cell holds the
    record of the call that was the [i + 1]-th addressed to the cell, if
    there was one, and is as it was before otherwise; later arrivals are
    dropped. The calls are to be fewer than [2^31]. *)
Theorem first_arrivals_are_kept {O3D : bool} (Pos : Common.Position)
    (cs : list (AddArrCall O3D)) (ncells : Z) (arrinfo : ArrInfo) :
  AllowMerging arrinfo = false -> table_ok arrinfo ncells ->
  Forall (fun count => count = 0) (NArr arrinfo) ->
  Z.of_nat (length cs) <= Int32.max_signed ->
  Forall (fun c => 0 <= call_base GetFieldAddr Pos c < ncells) cs ->
  exists arrinfo',
    run_calls GetFieldAddr Pos arrinfo cs = Some arrinfo'
    /\ forall b i, 0 <= b < ncells -> 0 <= i < MaxNArr arrinfo ->
         slot arrinfo' b i
         = match records_to Pos b cs !! Z.to_nat i with
           | Some rec => Some rec
           | None => slot arrinfo b i
           end.
Proof.
  intros Hm Hok Hzero Hlen Hcs.
  destruct (run_calls_atomic_kept Pos cs ncells arrinfo (fun _ => 0) Hm Hok)
    as (arrinfo' & Hrun & _ & Hslots).
  - intros b Hb. pose proof Hok as (_ & HlenN & _).
    destruct (load_in_range (NArr arrinfo) b) as [c Hc]; [lia|].
    pose proof Hc as Hc'. apply load_inv in Hc' as [_ Hlk].
    rewrite (proj1 (Forall_forall _ _) Hzero c (list_elem_of_lookup_2 _ _ _ Hlk)) in Hc.
    repeat split; [exact Hc|lia|lia].
  - exact Hcs.
  - exists arrinfo'. split; [exact Hrun|].
    intros b i Hb Hi. rewrite (Hslots b i Hb Hi).
    destruct (i <? 0) eqn:E; [apply Z.ltb_lt in E; lia|].
    rewrite Z.sub_0_r. reflexivity.
Qed.

End KeptProps.

(** ** The counts, and the records, after any calls *)

Section CountsProps.
Context `{RealOps} `{!CpxAbs}.
Variable GetFieldAddr : Z -> Z -> Z -> Z -> Z -> Z -> Common.Position -> Z.
Variable sizeof_Arrival : Z.
Import Arrivals ArrivalsSpec.

Local Abbreviation records_to := (ArrivalsOrder.records_to GetFieldAddr).

Lemma run_calls_app {O3D : bool} Pos (pre post : list (AddArrCall O3D)) arrinfo :
  run_calls GetFieldAddr Pos arrinfo (pre ++ post)
  = arrinfo' ← run_calls GetFieldAddr Pos arrinfo pre;
    run_calls GetFieldAddr Pos arrinfo' post.
Proof.
  revert arrinfo. induction pre as [|c pre IH]; intros arrinfo; simpl; [reflexivity|].
  destruct (run_call GetFieldAddr Pos arrinfo c) as [arrinfo1|]; simpl; [apply IH|reflexivity].
Qed.

(** The merge-disabled policy stays in force. *)
Lemma run_calls_atomic_policy {O3D : bool} Pos (cs : list (AddArrCall O3D)) ncells :
  forall arrinfo (cnt : Z -> Z) arrinfo',
  AllowMerging arrinfo = false -> table_ok arrinfo ncells ->
  (forall b, 0 <= b < ncells ->
     load (NArr arrinfo) b = Some (cnt b)
     /\ 0 <= cnt b /\ cnt b + Z.of_nat (length cs) <= Int32.max_signed) ->
  Forall (fun c => 0 <= call_base GetFieldAddr Pos c < ncells) cs ->
  run_calls GetFieldAddr Pos arrinfo cs = Some arrinfo' ->
  AllowMerging arrinfo' = false.
Proof.
  induction cs as [|c cs IH]; intros arrinfo cnt arrinfo' Hm Hok Hcnt Hcs; simpl.
  - intros [= <-]. exact Hm.
  - apply Forall_cons in Hcs as [Hb Hcs].
    set (base := call_base GetFieldAddr Pos c) in *.
    destruct (Hcnt base Hb) as (Hld & Hc0 & Hcmax). simpl in Hcmax.
    unfold run_call, AddArr. rewrite Hm. fold (call_base GetFieldAddr Pos c). fold base.
    edestruct (AddArr_atomic_ok (O3D := O3D) arrinfo ncells base (cnt base))
      as (arrinfo1 & -> & HN1 & _ & HM1 & Hm1 & Hok1); [eassumption..|].
    simpl.
    apply (IH arrinfo1 (fun b => if b =? base then cnt b + 1 else cnt b)).
    + congruence.
    + exact Hok1.
    + intros b Hb'. destruct (Hcnt b Hb') as (Hldb & Hcb0 & Hcbmax). simpl in Hcbmax.
      rewrite HN1. unfold load in *.
      destruct (decide (0 <= b)); [|lia].
      destruct (b =? base) eqn:E.
      * apply Z.eqb_eq in E. subst b.
        rewrite list_lookup_insert_eq by (destruct Hok as (_ & HlenN & _); lia).
        rewrite Int32_add_id
          by (unfold Int32.in_range, Int32.min_signed, Int32.max_signed in *; lia).
        repeat split; lia.
      * apply Z.eqb_neq in E. rewrite list_lookup_insert_ne by lia.
        repeat split; [exact Hldb|lia|lia].
    + exact Hcs.
Qed.

(** C1, as amended. After [InitArrivalsMode] and any sequence of [AddArr]
    calls addressed to cells of the table: in the merge-enabled policy no call
    has left the table and the stored count of every cell is at most
    [MaxNArr]. In the merge-disabled policy the stored count of a cell is the
    number of calls addressed to it (as long as the calls are fewer than
    [2^31]), whatever [MaxNArr] is; the index that a call reserves is the
    number of the calls made on its cell before it, and the call writes its
    record, into the slot of that index, when the index is below [MaxNArr],
    and writes no record otherwise; so slot [i] of a cell ends with the record
    of the call that was the [i + 1]-th on the cell, or zeroed as
    [InitArrivalsMode] left it. *)
Theorem arrival_counts_after_calls {O3D : bool} (arrinfo : ArrInfo) (maxThreads : Z)
    (ThreeD : bool) (Pos : Common.Position) (PRTFile : PrintFileEmu)
    (cs : list (AddArrCall O3D)) :
  0 < sizeof_Arrival -> 0 < nSrcsRcvrs ThreeD Pos ->
  nSrcsRcvrs ThreeD Pos * sizeof_Arrival < 2 ^ 64 ->
  0 <= ArrMemSize arrinfo < 2 ^ 64 ->
  ArrMemSize arrinfo / (nSrcsRcvrs ThreeD Pos * sizeof_Arrival) <= Int32.max_signed ->
  Forall (fun c => 0 <= call_base GetFieldAddr Pos c < nSrcsRcvrs ThreeD Pos) cs ->
  exists arrinfo0 out,
    InitArrivalsMode sizeof_Arrival arrinfo maxThreads ThreeD Pos PRTFile
    = Some (arrinfo0, out)
    /\ (maxThreads = 1 ->
        exists arrinfo',
          run_calls GetFieldAddr Pos arrinfo0 cs = Some arrinfo'
          /\ MaxNArr arrinfo' = MaxNArr arrinfo0
          /\ capacity_invariant arrinfo')
    /\ (maxThreads <> 1 -> Z.of_nat (length cs) <= Int32.max_signed ->
        exists arrinfo',
          run_calls GetFieldAddr Pos arrinfo0 cs = Some arrinfo'
          /\ MaxNArr arrinfo' = MaxNArr arrinfo0
          /\ (forall base, 0 <= base < nSrcsRcvrs ThreeD Pos ->
                load (NArr arrinfo') base = Some (calls_to GetFieldAddr Pos base cs))
          /\ (forall pre c post, cs = pre ++ c :: post ->
                exists before after,
                  run_calls GetFieldAddr Pos arrinfo0 pre = Some before
                  /\ run_call GetFieldAddr Pos before c = Some after
                  /\ load (NArr before) (call_base GetFieldAddr Pos c)
                     = Some (calls_to GetFieldAddr Pos (call_base GetFieldAddr Pos c) pre)
                  /\ Arr after
                     = if MaxNArr arrinfo0
                          <=? calls_to GetFieldAddr Pos (call_base GetFieldAddr Pos c) pre
                       then Arr before
                       else <[Z.to_nat
                                (call_base GetFieldAddr Pos c * MaxNArr arrinfo0
                                 + calls_to GetFieldAddr Pos (call_base GetFieldAddr Pos c) pre)
                              := ArrivalsOrder.call_record c]> (Arr before))
          /\ (forall base i, 0 <= base < nSrcsRcvrs ThreeD Pos ->
                0 <= i < MaxNArr arrinfo0 ->
                slot arrinfo' base i
                = Some (match records_to Pos base cs !! Z.to_nat i with
                        | Some rec => rec
                        | None => Arrival_zero
                        end))).
Proof.
  intros Hs Hn Hfit HM Hq Hcs.
  destruct (InitArrivalsMode_ok sizeof_Arrival arrinfo maxThreads ThreeD Pos
              PRTFile Hs Hn Hfit HM Hq)
    as (arrinfo0 & out & Hinit & Hm & HM0 & Hok & Hc).
  exists arrinfo0, out. split; [exact Hinit|]. split.
  - intros ->.
    destruct (run_calls_merging_ok GetFieldAddr Pos cs arrinfo0 _ Hm Hok Hc Hcs)
      as (arrinfo' & Hrun & Hok' & Hc' & HM').
    exists arrinfo'. repeat split; try assumption.
    apply counts_ok_capacity. exact Hc'.
  - intros Hne Hlen.
    assert (AllowMerging arrinfo0 = false) as Hm0.
    { rewrite Hm. apply Z.eqb_neq. exact Hne. }
    assert ((forall b, 0 <= b < nSrcsRcvrs ThreeD Pos -> load (NArr arrinfo0) b = Some 0)
            /\ forall k rec, load (Arr arrinfo0) k = Some rec -> rec = Arrival_zero)
      as [Hzero Hblank].
    { unfold InitArrivalsMode in Hinit.
      destruct (SizeT.mul (nSrcsRcvrs ThreeD Pos) sizeof_Arrival =? 0); [discriminate|].
      injection Hinit as <- _. simpl. split.
      - intros b Hb. unfold load.
        destruct (decide (0 <= b)); [|lia]. apply lookup_replicate_2. lia.
      - intros k rec Hk. apply load_inv in Hk as [_ Hk].
        apply lookup_replicate in Hk as [-> _]. reflexivity. }
    assert (forall pre : list (AddArrCall O3D), (length pre <= length cs)%nat ->
            forall b, 0 <= b < nSrcsRcvrs ThreeD Pos ->
              load (NArr arrinfo0) b = Some 0
              /\ 0 <= 0 /\ 0 + Z.of_nat (length pre) <= Int32.max_signed) as Hcnt0.
    { intros pre Hpre b Hb. split; [apply Hzero; exact Hb|lia]. }
    destruct (run_calls_atomic_ok GetFieldAddr Pos cs (nSrcsRcvrs ThreeD Pos) arrinfo0 (fun _ => 0) Hm0 Hok
                (Hcnt0 cs (le_n _)) Hcs)
      as (arrinfo' & Hrun & Hok' & HM' & Hcnt).
    exists arrinfo'. split; [exact Hrun|]. split; [exact HM'|].
    split; [exact Hcnt|]. split.
    + intros pre c post Hsplit.
      assert (Forall (fun c => 0 <= call_base GetFieldAddr Pos c < nSrcsRcvrs ThreeD Pos) pre
              /\ 0 <= call_base GetFieldAddr Pos c < nSrcsRcvrs ThreeD Pos) as [Hpre Hbc].
      { rewrite Hsplit in Hcs. apply Forall_app in Hcs as [Hpre Hrest].
        apply Forall_cons in Hrest as [Hbc _]. split; assumption. }
      assert (length pre < length cs)%nat as Hshort.
      { rewrite Hsplit, length_app. simpl. lia. }
      destruct (run_calls_atomic_ok GetFieldAddr Pos pre (nSrcsRcvrs ThreeD Pos) arrinfo0 (fun _ => 0) Hm0 Hok
                  (Hcnt0 pre ltac:(lia)) Hpre)
        as (before & Hrunp & Hokp & HMp & Hcntp).
      pose proof (run_calls_atomic_policy Pos pre (nSrcsRcvrs ThreeD Pos) arrinfo0 (fun _ => 0) before Hm0 Hok
                    (Hcnt0 pre ltac:(lia)) Hpre Hrunp) as Hmp.
      set (base := call_base GetFieldAddr Pos c) in *.
      pose proof (calls_to_nonneg GetFieldAddr Pos base pre) as Hnn.
      destruct (AddArr_atomic_ok before (nSrcsRcvrs ThreeD Pos) base (calls_to GetFieldAddr Pos base pre)
                  (c_Amp c) (c_Phase c) (c_delay c) (c_rinit c) (c_RcvrDeclAngle c)
                  (c_RcvrAzimAngle c) (c_NumTopBnc c) (c_NumBotBnc c))
        as (after & Hadd & _ & HA & _); [exact Hokp|exact Hbc|apply Hcntp; exact Hbc|lia|].
      exists before, after. split; [exact Hrunp|]. split.
      * unfold run_call, AddArr. rewrite Hmp.
        fold (call_base GetFieldAddr Pos c). fold base. exact Hadd.
      * split; [apply Hcntp; exact Hbc|]. rewrite HA, HMp. reflexivity.
    + intros base i Hb Hi.
      destruct (run_calls_atomic_kept GetFieldAddr Pos cs (nSrcsRcvrs ThreeD Pos) arrinfo0 (fun _ => 0) Hm0 Hok
                  (Hcnt0 cs (le_n _)) Hcs)
        as (arrinfo'' & Hrun' & _ & Hslots).
      rewrite Hrun in Hrun'. injection Hrun' as <-.
      rewrite (Hslots base i Hb Hi).
      destruct (i <? 0) eqn:E; [apply Z.ltb_lt in E; lia|].
      rewrite Z.sub_0_r.
      destruct (records_to Pos base cs !! Z.to_nat i) as [rec|]; [reflexivity|].
      destruct (load_in_range (Arr arrinfo0) (base * MaxNArr arrinfo0 + i)) as [rec Hrec].
      { apply (slot_in_range arrinfo0 (nSrcsRcvrs ThreeD Pos)); assumption. }
      unfold slot. rewrite Hrec. f_equal. apply (Hblank _ _ Hrec).
Qed.

End CountsProps.

(** ** The theorems at concrete inputs, in IEEE-754 arithmetic *)

Section Instances.
Local Existing Instance IEEE.ops.
Local Existing Instance IEEE.libm.
Local Existing Instance IEEE.cabs.
Local Existing Instance IEEE_laws.
Import Examples.

(** Closes a goal about concrete numbers. Equations between tables or ray
    points are left to [reflexivity]: the virtual machine would normalise the
    arithmetic instance inside their types. *)
Ltac ground :=
  first [ reflexivity
        | lia
        | (unfold ArrivalsSpec.table_ok, Int32.in_range; vm_compute; intuition congruence) ].

(** C1, as stated, fails in the merge-disabled policy: with room for one
    arrival per cell, two calls on the first cell leave its count at 2. *)
Lemma capacity_invariant_fails_without_merging :
  exists arrinfo0 out arrinfo',
    Arrivals.InitArrivalsMode sizeof_Arrival (blank 80) 2 false Pos1 [] = Some (arrinfo0, out)
    /\ Arrivals.run_calls GetFieldAddr_1 Pos1 arrinfo0 [call 1 1; call 1 9] = Some arrinfo'
    /\ Arrivals.MaxNArr arrinfo' = 1
    /\ Arrivals.NArr arrinfo' = [2; 0]
    /\ ~ ArrivalsSpec.capacity_invariant arrinfo'.
Proof.
  let r := eval vm_compute in
             (Arrivals.InitArrivalsMode sizeof_Arrival (blank 80) 2 false Pos1 []) in
  match r with Some (?t0, ?out) => exists t0, out end.
  let r := eval vm_compute in
             (match Arrivals.InitArrivalsMode sizeof_Arrival (blank 80) 2 false Pos1 [] with
              | Some (t0, _) =>
                  Arrivals.run_calls GetFieldAddr_1 Pos1 t0 [call 1 1; call 1 9]
              | None => None
              end) in
  match r with Some ?t1 => exists t1 end.
  split; [reflexivity|]. split; [reflexivity|].
  split; [reflexivity|]. split; [reflexivity|].
  intros Hc. apply Forall_cons in Hc as [Hc _]. simpl in Hc. lia.
Qed.

(** The amended C1 at a table of two cells of two slots. With one worker,
    four calls leave the counts within the capacity. With two workers, three
    calls on the first cell leave its count at 3; the first two have written
    their records into the slots 0 and 1, and the third, which reserved the
    index 2, has written nothing. *)
Lemma arrival_counts_after_calls_witness :
  (exists arrinfo0 out arrinfo',
     Arrivals.InitArrivalsMode sizeof_Arrival (blank 160) 1 false Pos1 []
     = Some (arrinfo0, out)
     /\ Arrivals.run_calls GetFieldAddr_1 Pos1 arrinfo0
          [call 1 1; call 1 1; call 2 5; call 3 9]
        = Some arrinfo'
     /\ ArrivalsSpec.capacity_invariant arrinfo')
  /\ (exists arrinfo0 out arrinfo' before after,
        Arrivals.InitArrivalsMode sizeof_Arrival (blank 160) 2 false Pos1 []
        = Some (arrinfo0, out)
        /\ Arrivals.run_calls GetFieldAddr_1 Pos1 arrinfo0 [call 1 1; call 2 5; call 9 9]
           = Some arrinfo'
        /\ load (Arrivals.NArr arrinfo') 0 = Some 3
        /\ ArrivalsSpec.slot arrinfo' 0 0 = Some (ArrivalsOrder.call_record (call 1 1))
        /\ ArrivalsSpec.slot arrinfo' 0 1 = Some (ArrivalsOrder.call_record (call 2 5))
        /\ ArrivalsSpec.slot arrinfo' 1 0 = Some Arrivals.Arrival_zero
        /\ Arrivals.run_calls GetFieldAddr_1 Pos1 arrinfo0 [call 1 1; call 2 5] = Some before
        /\ Arrivals.run_call GetFieldAddr_1 Pos1 before (call 9 9) = Some after
        /\ load (Arrivals.NArr before) 0 = Some 2
        /\ Arrivals.Arr after = Arrivals.Arr before).
Proof.
  split.
  - destruct (arrival_counts_after_calls GetFieldAddr_1 sizeof_Arrival (blank 160) 1 false
                Pos1 [] [call 1 1; call 1 1; call 2 5; call 3 9])
      as (arrinfo0 & out & Hinit & Hone & _);
      [ground|ground|ground|ground|ground|repeat constructor; ground|].
    destruct (Hone eq_refl) as (arrinfo' & Hrun & _ & Hcap).
    exists arrinfo0, out, arrinfo'. split; [exact Hinit|]. split; [exact Hrun|exact Hcap].
  - destruct (arrival_counts_after_calls GetFieldAddr_1 sizeof_Arrival (blank 160) 2 false
                Pos1 [] [call 1 1; call 2 5; call 9 9])
      as (arrinfo0 & out & Hinit & _ & Hmany);
      [ground|ground|ground|ground|ground|repeat constructor; ground|].
    destruct (Hmany ltac:(lia) ltac:(ground))
      as (arrinfo' & Hrun & HM & Hcnt & Hcall & Hslots).
    destruct (Hcall [call 1 1; call 2 5] (call 9 9) [] eq_refl)
      as (before & after & Hpre & Hstep & Hidx & HArr).
    assert (Arrivals.MaxNArr arrinfo0 = 2) as HM0.
    { assert (Arrivals.InitArrivalsMode sizeof_Arrival (blank 160) 2 false Pos1 []
              = Some (atomic_table0,
                      [Str "\n( Maximum # of arrivals = "; Int 2; Str " )\n"])) as Hval
        by reflexivity.
      rewrite Hval in Hinit. injection Hinit as <- _. reflexivity. }
    rewrite HM0 in *.
    exists arrinfo0, out, arrinfo', before, after.
    split; [exact Hinit|]. split; [exact Hrun|].
    split; [exact (Hcnt 0 ltac:(ground))|].
    split; [exact (Hslots 0 0 ltac:(ground) ltac:(lia))|].
    split; [exact (Hslots 0 1 ltac:(ground) ltac:(lia))|].
    split; [exact (Hslots 1 0 ltac:(ground) ltac:(lia))|].
    split; [exact Hpre|]. split; [exact Hstep|]. split; [exact Hidx|]. exact HArr.
Defined.



(** C3 at a full cell that holds the amplitudes 2 and 1: a candidate of
    amplitude 3/2 replaces the arrival of amplitude 1. *)
Lemma AddArr_full_cell_replaces_weakest_witness :
  exists arrinfo',
    Arrivals.AddArr GetFieldAddr_1 0 0 0 (num (3 # 2)) (num 1) (num 0) (num 9, num 0)
      (rinit2D 0) (num 0) (num 0) 0 0 full_cell Pos1
    = Some arrinfo'
    /\ Arrivals.NArr arrinfo' = [2]
    /\ ArrivalsSpec.holds_smallest full_cell 0 1
    /\ Arrivals.Arr arrinfo' =
       [stored 2 1;
        Arrivals.new_arrival (num (3 # 2)) (num 0) (num 9, num 0) (rinit2D 0) (num 0) (num 0)
          0 0].
Proof.
  destruct (AddArr_full_cell_replaces_weakest GetFieldAddr_1 0 0 0 (num (3 # 2)) (num 1)
              (num 0) (num 9, num 0) (rinit2D 0) (num 0) (num 0) 0 0 full_cell Pos1 1)
    as (arrinfo' & Hadd & HN & Hrep & _); [ground..|].
  exists arrinfo'. split; [exact Hadd|]. split; [exact HN|].
  destruct Hrep as (k & Hsm & (rec & Hk & Hslot & Hlt) & HA).
  { exists 1, (stored 1 5). split; [ground|]. split; ground. }
  assert (k = 1) as ->.
  { assert (k = 0 \/ k = 1) as [Hk0|Hk1] by (simpl in Hk; lia); [|exact Hk1].
    subst k. exfalso.
    assert (ArrivalsSpec.slot full_cell 0 0 = Some (stored 2 1)) as Hs by reflexivity.
    unfold GetFieldAddr_1 in Hslot. rewrite Hs in Hslot. injection Hslot as <-.
    assert (r_ltb (ArrivalsSpec.amp (stored 2 1)) (num (3 # 2)) = false) as Hf by reflexivity.
    rewrite Hf in Hlt. discriminate Hlt. }
  split; [exact Hsm|]. rewrite HA. reflexivity.
Defined.

(** C10 at a cell whose only slot is taken: the count goes from 1 to 2 and
    the records stay as they are. *)
Lemma AddArr_atomic_reserved_slot_witness :
  exists arrinfo',
    Arrivals.AddArr GetFieldAddr_1 0 0 0 (num 3) (num 1) (num 0) (num 9, num 0)
      (rinit2D 0) (num 0) (num 0) 0 0 atomic_cell Pos1
    = Some arrinfo'
    /\ load (Arrivals.NArr arrinfo') 0 = Some 2
    /\ Arrivals.Arr arrinfo' = Arrivals.Arr atomic_cell.
Proof.
  destruct (AddArr_atomic_reserved_slot GetFieldAddr_1 0 0 0 (num 3) (num 1) (num 0)
              (num 9, num 0) (rinit2D 0) (num 0) (num 0) 0 0 atomic_cell Pos1 1 1)
    as (arrinfo' & Hadd & Hcount & _ & _ & Hsame); [ground..|].
  exists arrinfo'. split; [exact Hadd|]. split; [exact Hcount|].
  apply Hsame. ground.
Defined.

Local Abbreviation RayInit_ex :=
  (Trace.RayInit unit unit "bellhopcxx" (num 0) EvaluateSSP BinarySearchLEQ GetBdrySeg M2D).
Local Abbreviation RayTerminate_ex := (Trace.RayTerminate MaxN bhc_max RayToOceanX M2D).
Local Abbreviation stop_flags_ex := (Trace.stop_flags bhc_max RayToOceanX M2D).



(** C6, as stated, fails in the 2D runs: a ray with [t.x = -1], inside the
    box, between the boundaries and of amplitude 1, goes on. *)
Lemma backward_ray_goes_on_in_2D :
  r_ltb (x2 (Trace.t (point2D (-1) 1))) (r_lit 0) = true
  /\ Trace.term_stop
       (RayTerminate_ex (point2D (-1) 1) 0 5 0 (num 50) (num 50) (num 50) (num 50)
          org2D bdinfo2D Beam2D)
     = false.
Proof. split; reflexivity. Qed.

(** C7, as stated, fails: a ray above the top boundary at both steps, and
    so not below the bottom one, has escaped. *)
Lemma escapedboundaries_2D_one_boundary :
  Trace.escapedboundaries
    (stop_flags_ex (point2D 1 1) 0 (num (-1)) (num 101) (num (-2)) (num 102)
       org2D bdinfo2D Beam2D)
  = true
  /\ ~ (r_ltb (num (-1)) (r_lit 0) = true /\ r_ltb (num (-2)) (r_lit 0) = true
        /\ r_ltb (num 101) (r_lit 0) = true /\ r_ltb (num 102) (r_lit 0) = true).
Proof.
  split; [reflexivity|].
  intros (_ & _ & Hbot & _). vm_compute in Hbot. discriminate.
Qed.

(** C8, as stated, fails for the stop at the storage limit: at step
    [MaxN - 3 = 997], with none of the four predicates true and so no exit
    through a boundary edge, the ray is stopped with [Nsteps = 997], not 998. *)
Lemma storage_stop_records_is :
  TraceSpec.any_stop
    (stop_flags_ex (point2D 1 1) 0 (num 50) (num 50) (num 50) (num 50) org2D bdinfo2D Beam2D)
  = false
  /\ Trace.escaped0bdry
       (stop_flags_ex (point2D 1 1) 0 (num 50) (num 50) (num 50) (num 50) org2D bdinfo2D
          Beam2D)
     = false
  /\ RayTerminate_ex (point2D 1 1) 0 997 0 (num 50) (num 50) (num 50) (num 50)
       org2D bdinfo2D Beam2D
     = Trace.mkTermResult true 997 (num 50) (num 50)
         [Str "Warning in TraceRay: Insufficient storage for ray trajectory\n"]
  /\ Trace.term_Nsteps
       (RayTerminate_ex (point2D 1 1) 0 997 0 (num 50) (num 50) (num 50) (num 50)
          org2D bdinfo2D Beam2D)
     <> 997 + 1.
Proof.
  split; [reflexivity|]. split; [reflexivity|]. split; [reflexivity|].
  vm_compute. discriminate.
Qed.

(** The amended C8 at three steps of a ray: stopped for its amplitude at step
    5, stopped at the storage limit, and going on. *)
Lemma RayTerminate_Nsteps_witness :
  RayTerminate_ex (point2D 1 (1 # 1000)) 0 5 0 (num 50) (num 50) (num 51) (num 49)
    org2D bdinfo2D Beam2D
  = Trace.mkTermResult true 6 (num 50) (num 50) []
  /\ RayTerminate_ex (point2D 1 1) 0 997 0 (num 50) (num 50) (num 51) (num 49)
       org2D bdinfo2D Beam2D
     = Trace.mkTermResult true 997 (num 50) (num 50)
         [Str "Warning in TraceRay: Insufficient storage for ray trajectory\n"]
  /\ RayTerminate_ex (point2D 1 1) 0 5 0 (num 50) (num 50) (num 51) (num 49)
       org2D bdinfo2D Beam2D
     = Trace.mkTermResult false 0 (num 51) (num 49) [].
Proof.
  split; [|split].
  - apply (RayTerminate_Nsteps MaxN bhc_max RayToOceanX M2D (point2D 1 (1 # 1000)) 0 5 0
             (num 50) (num 50) (num 51) (num 49) org2D bdinfo2D Beam2D); ground.
  - apply (RayTerminate_Nsteps MaxN bhc_max RayToOceanX M2D (point2D 1 1) 0 997 0
             (num 50) (num 50) (num 51) (num 49) org2D bdinfo2D Beam2D); ground.
  - apply (RayTerminate_Nsteps MaxN bhc_max RayToOceanX M2D (point2D 1 1) 0 5 0
             (num 50) (num 50) (num 51) (num 49) org2D bdinfo2D Beam2D); ground.
Defined.

(** X1 for the two sources of [Pos1], three angles and two workers, on the
    run in which worker 0 takes the jobs 0, 2, 3 and 6 and worker 1 the jobs
    1, 4, 5 and 7. *)
Lemma every_job_runs_once_witness :
  snd <$> Jobs.ran two_workers_done = [(0, 0); (0, 1); (0, 2); (1, 0); (1, 1); (1, 2)]
  /\ Jobs.sharedJobID two_workers_done = 8.
Proof.
  apply (every_job_runs_once Pos1 Angles3 2 two_workers_done);
    [reflexivity | reflexivity | discriminate | discriminate | lia | | repeat constructor].
  eapply rtc_l; [apply (Jobs.take_job Pos1 Angles3 0 _ 0 0); reflexivity|].
  eapply rtc_l; [apply (Jobs.take_job Pos1 Angles3 1 _ 0 1); reflexivity|].
  eapply rtc_l; [apply (Jobs.take_job Pos1 Angles3 0 _ 0 2); reflexivity|].
  eapply rtc_l; [apply (Jobs.take_job Pos1 Angles3 0 _ 1 0); reflexivity|].
  eapply rtc_l; [apply (Jobs.take_job Pos1 Angles3 1 _ 1 1); reflexivity|].
  eapply rtc_l; [apply (Jobs.take_job Pos1 Angles3 1 _ 1 2); reflexivity|].
  eapply rtc_l; [apply (Jobs.leave_loop Pos1 Angles3 0 _ 2 0); reflexivity|].
  eapply rtc_l; [apply (Jobs.leave_loop Pos1 Angles3 1 _ 2 1); reflexivity|].
  apply rtc_refl.
Defined.

(** X2 for the two sources of [Pos1] and three angles: seven iterations, six
    jobs. *)
Lemma FieldModesWorker_runs_all_witness :
  Jobs.FieldModesWorker 7 0 Pos1 Angles3 []
  = Some (7, [(0, 0); (0, 1); (0, 2); (1, 0); (1, 1); (1, 2)]).
Proof.
  apply (FieldModesWorker_runs_all Pos1 Angles3);
    [reflexivity | reflexivity | discriminate | reflexivity].
Defined.

(** X3 for a budget of 160 bytes, records of 40 bytes and the two cells of
    [Pos1]: two slots per cell. *)
Lemma InitArrivalsMode_capacity_witness :
  Arrivals.InitArrivalsMode sizeof_Arrival (blank 160) 1 false Pos1 []
  = Some (Arrivals.mkArrInfo (replicate 4 Arrivals.Arrival_zero) [0; 0] 2 true 160,
          [Str "\n( Maximum # of arrivals = "; Int 2; Str " )\n"])
  /\ 2 * 2 * 40 <= 160 < 2 * (2 + 1) * 40.
Proof.
  apply (InitArrivalsMode_capacity sizeof_Arrival (blank 160) 1 false Pos1 []); ground.
Defined.

(** X4 on the run of three calls on the first cell of [atomic_table0]: the
    first two reserve the slots 0 and 1, the second writes, the first writes,
    the third reserves index 2 and gives up. *)
Lemma atomic_append_keeps_every_record_witness :
  NoDup (Arrivals.r_slot (Arrivals.table atomic_end)
         <$> (Arrivals.written atomic_end ++ Arrivals.pending atomic_end))
  /\ Forall (fun r => 0 <= Arrivals.r_Nt r < Arrivals.MaxNArr atomic_table0
                      /\ exists Arr',
                           store (Arrivals.Arr (Arrivals.table atomic_end))
                             (Arrivals.r_slot (Arrivals.table atomic_end) r)
                             (Arrivals.r_rec r)
                           = Some Arr')
       (Arrivals.pending atomic_end)
  /\ Forall (fun r => load (Arrivals.Arr (Arrivals.table atomic_end))
                        (Arrivals.r_slot (Arrivals.table atomic_end) r)
                      = Some (Arrivals.r_rec r))
       (Arrivals.written atomic_end).
Proof.
  apply (atomic_append_keeps_every_record 2 atomic_table0 5 atomic_end).
  - ground.
  - repeat constructor.
  - ground.
  - eapply nsteps_l;
      [apply (Arrivals.fetch_add _ 0 0 [1; 0] (stored 1 1)); reflexivity|].
    eapply nsteps_l;
      [apply (Arrivals.fetch_add _ 0 1 [2; 0] (stored 2 5)); reflexivity|].
    eapply nsteps_l;
      [apply (Arrivals.write_record _ [Arrivals.mkReserved 0 0 (stored 1 1)] []
                (Arrivals.mkReserved 0 1 (stored 2 5))
                [Arrivals.Arrival_zero; stored 2 5; Arrivals.Arrival_zero;
                 Arrivals.Arrival_zero]); reflexivity|].
    eapply nsteps_l;
      [apply (Arrivals.write_record _ [] [] (Arrivals.mkReserved 0 0 (stored 1 1))
                [stored 1 1; stored 2 5; Arrivals.Arrival_zero; Arrivals.Arrival_zero]);
       reflexivity|].
    eapply nsteps_l;
      [apply (Arrivals.fetch_add _ 0 2 [3; 0] (stored 9 9)); reflexivity|].
    apply nsteps_O.
Defined.

(** X5 on a little-endian platform, for three records of 6, 1 and 0 bytes. *)
Lemma UnformattedOFile_records_witness :
  exists f,
    UnformattedIO.calls le32 (UnformattedIO.open UnformattedIO.UnformattedOFile_new)
      (UnformattedIO.CRec :: three_records)
    = UnformattedIO.Done f
    /\ UnformattedIO.good f = true
    /\ UnformattedIO.ostr (UnformattedIO.destroy le32 f)
       = UnformattedIO.mkofstream false false
           [Byte.x06; Byte.x00; Byte.x00; Byte.x00;
            Byte.x01; Byte.x02; Byte.x03; Byte.x04; Byte.x05; Byte.x06;
            Byte.x06; Byte.x00; Byte.x00; Byte.x00;
            Byte.x01; Byte.x00; Byte.x00; Byte.x00;
            Byte.x07;
            Byte.x01; Byte.x00; Byte.x00; Byte.x00;
            Byte.x00; Byte.x00; Byte.x00; Byte.x00;
            Byte.x00; Byte.x00; Byte.x00; Byte.x00] 0.
Proof.
  apply (UnformattedOFile_records le32 (fun z => eq_refl) three_records).
  - repeat constructor.
  - vm_compute. discriminate.
Defined.

(** X6 on a little-endian platform: a write as the first call. *)
Lemma UnformattedOFile_error_iff_witness :
  ((exists msg,
      UnformattedIO.calls le32 (UnformattedIO.open UnformattedIO.UnformattedOFile_new)
        three_records
      = UnformattedIO.Raised msg)
   <-> exists c cs', three_records = c :: cs' /\ c <> UnformattedIO.CRec)
  /\ forall msg,
       UnformattedIO.calls le32 (UnformattedIO.open UnformattedIO.UnformattedOFile_new)
         three_records
       = UnformattedIO.Raised msg ->
       msg = "Missing record in UnformattedOFile!"%string
       /\ exists c, head three_records = Some c
            /\ UnformattedIO.call le32 (UnformattedIO.open UnformattedIO.UnformattedOFile_new) c
               = UnformattedIO.Raised msg.
Proof.
  apply (UnformattedOFile_error_iff le32 (fun z => eq_refl) three_records).
  - repeat constructor.
  - vm_compute. discriminate.
Defined.

(** X8 for one call on the first of two cells: the second cell is as it
    was. *)
Lemma AddArr_other_cells_unchanged_witness :
  load (Arrivals.NArr merge_table1) 1 = load (Arrivals.NArr merge_table0) 1
  /\ forall i, 0 <= i < Arrivals.MaxNArr merge_table0 ->
       ArrivalsSpec.slot merge_table1 1 i = ArrivalsSpec.slot merge_table0 1 i.
Proof.
  apply (AddArr_other_cells_unchanged GetFieldAddr_1 0 0 0 (num 1) (num 1) (num 0)
           (num 1, num 0) (rinit2D 0) (num 0) (num 0) 0 0 merge_table0 merge_table1 Pos1 2).
  - ground.
  - repeat constructor; lia.
  - intros _. repeat constructor; ground.
  - ground.
  - reflexivity.
  - discriminate.
Defined.

(** X11 in IEEE-754 arithmetic, for a box of 2 by 5 and a point on its range
    face. *)
Lemma beam_box_2D_witness :
  Beams.IsOutsideBeamBoxDim false 0 (mkvec2 (num (-2)) (num 1))
    (Beams.mkBeamStructure false (mkvec2 (num 2) (num 5))) (mkvec2 (r_lit 0) (num 7))
  = Some true
  /\ Trace.leftbox_2d (mkvec2 (num (-2)) (num 1)) (mkvec2 (num 2) (num 5)) = false.
Proof.
  apply (@beam_box_2D IEEE.ops IEEE_laws IEEE_sub_0 IEEE_ltb_leb (mkvec2 (num (-2)) (num 1))
           (mkvec2 (num 2) (num 5)) (num 7)); reflexivity.
Defined.

Lemma RayUpdate_call_1_or_2 (point0 point1 point2 : Trace.rayPt M2D) (L : ray_locals) :
  (RayUpdate_call point0 point1 point2 L).1 = 1
  \/ (RayUpdate_call point0 point1 point2 L).1 = 2.
Proof.
  unfold RayUpdate_call. cbn [fst]. rewrite RayUpdate_steps.
  destruct (Update.st_topRefl _ || Update.st_botRefl _); [right|left]; reflexivity.
Qed.

Lemma MaxN_fits : 4 <= MaxN <= Int32.max_signed.
Proof. split; discriminate. Qed.

(** X13 for a trajectory of 1000 points, on [RayUpdate] and [RayTerminate] of
    [trace.hpp]. *)
Lemma MainRayMode_stays_in_storage_witness :
  exists SrcDeclAngle' ray2D' Nsteps',
    Main.MainRayMode (Trace.rayPt M2D) ray_locals MaxN RayInit_ok RayUpdate_call
      RayTerminate_call set_ctr 0 0 (num 0) (replicate 1000 (point2D 1 1)) 0 locals0
    = Some (SrcDeclAngle', ray2D', Nsteps')
    /\ length ray2D' = 1000%nat
    /\ 1 <= Nsteps' <= MaxN - 1.
Proof.
  destruct (MainRayMode_stays_in_storage (Trace.rayPt M2D) ray_locals MaxN RayInit_ok
              RayUpdate_call RayTerminate_call set_ctr MaxN_fits RayUpdate_call_1_or_2
              (fun point Nsteps is_ L =>
                 proj1 (RayTerminate_contract MaxN bhc_max RayToOceanX M2D point Nsteps is_
                          (l_iSmallStepCtr L) (l_DistBegTop L) (l_DistBegBot L)
                          (l_DistEndTop L) (l_DistEndBot L) org2D bdinfo2D Beam2D MaxN_fits))
              (fun point Nsteps is_ L =>
                 proj2 (RayTerminate_contract MaxN bhc_max RayToOceanX M2D point Nsteps is_
                          (l_iSmallStepCtr L) (l_DistBegTop L) (l_DistBegBot L)
                          (l_DistEndTop L) (l_DistEndBot L) org2D bdinfo2D Beam2D MaxN_fits))
              0 0 (num 0) (replicate 1000 (point2D 1 1)) 0 locals0 eq_refl)
    as (S' & ray' & N' & Hrun & Hlen & HN & _).
  exists S', ray', N'. split; [exact Hrun|]. split; [|exact HN].
  rewrite Hlen. apply length_replicate.
Defined.

(** X14 on the same functions, with a field that counts the calls of
    [Step_Influence]. *)
Lemma MainTLMode_returns_witness :
  exists SrcDeclAngle' s,
    Main.MainTLMode (Trace.rayPt M2D) ray_locals MaxN RayInit_ok RayUpdate_call
      RayTerminate_call set_ctr unit Z (fun _ => 1) 1 (fun infl _ _ _ => infl)
      Step_Influence_count 0 0 (num 0) 0 (point2D 1 1) (point2D 1 1) (point2D 1 1) tt 0
      locals0
    = Main.Ret (SrcDeclAngle', s)
    /\ 1 <= Main.tl_is s <= MaxN - 2
    /\ (Main.tl_Nsteps s = Main.tl_is s \/ Main.tl_Nsteps s = Main.tl_is s + 1).
Proof.
  destruct (MainTLMode_returns (Trace.rayPt M2D) ray_locals MaxN RayInit_ok
              RayUpdate_call RayTerminate_call set_ctr MaxN_fits RayUpdate_call_1_or_2
              (fun point Nsteps is_ L =>
                 proj1 (RayTerminate_contract MaxN bhc_max RayToOceanX M2D point Nsteps is_
                          (l_iSmallStepCtr L) (l_DistBegTop L) (l_DistBegBot L)
                          (l_DistEndTop L) (l_DistEndBot L) org2D bdinfo2D Beam2D MaxN_fits))
              (fun point Nsteps is_ L =>
                 proj2 (RayTerminate_contract MaxN bhc_max RayToOceanX M2D point Nsteps is_
                          (l_iSmallStepCtr L) (l_DistBegTop L) (l_DistBegBot L)
                          (l_DistEndTop L) (l_DistEndBot L) org2D bdinfo2D Beam2D MaxN_fits))
              unit Z (fun _ => 1) 1 (fun infl _ _ _ => infl) Step_Influence_count
              0 0 (num 0) 0 (point2D 1 1) (point2D 1 1) (point2D 1 1) tt 0 locals0)
    as (S' & s & Hrun & Hrest).
  exists S', s. split; [exact Hrun|exact Hrest].
Defined.

Lemma env_lengths :
  (forall n, length (env_allocate n) = Z.to_nat n)
  /\ (forall f x n, length (env_Read_vector f x n).1 = length x)
  /\ (forall x n, length (env_keep x n) = length x).
Proof.
  split; [|split].
  - intros n. apply length_replicate.
  - intros f x n. apply length_imap.
  - reflexivity.
Qed.

(** X9 for three ranges in km. *)
Lemma ReadVector_checks_the_count_witness :
  exists x ENV' PRT',
    SourceReceiver.ReadVector float r_of_f f_of_r env_file (fun f => f) env_Read_int
      env_Read_vector env_allocate env_keep env_keep env_no_echo (fun s => s)
      "Receiver ranges, Rr" "km" depths_file []
    = SourceReceiver.Ret (3, x, ENV', PRT')
    /\ length x = 3%nat
    /\ x = [f_of_r (r_mul (r_of_f (f_of_r (num (-5)))) (r_lit 1000));
            f_of_r (r_mul (r_of_f (f_of_r (num 50))) (r_lit 1000));
            f_of_r (r_mul (r_of_f (f_of_r (num 120))) (r_lit 1000))].
Proof.
  destruct (proj2 (ReadVector_checks_the_count float r_of_f f_of_r env_file (fun f => f)
                     env_Read_int env_Read_vector env_allocate env_keep env_keep env_no_echo
                     (fun s => s) (proj1 env_lengths) (proj1 (proj2 env_lengths))
                     (proj2 (proj2 env_lengths)) (proj2 (proj2 env_lengths))
                     "Receiver ranges, Rr" "km" depths_file [])
              eq_refl) as (x & ENV' & PRT' & Hrun & Hlen & Hx).
  exists x, ENV', PRT'. split; [exact Hrun|]. split; [exact Hlen|exact Hx].
Defined.


(** X17 for a field of eight values: four records of two values, numbered
    from 10 to 13. *)
Lemma FinalizeTLMode_writes_the_field_witness :
  TL.FinalizeTLMode unit EvaluateSSPCOnly_flat ScalePressure_none field8 PosTL 2 (num 0)
    (num 100) tt "C"
  = Some [TL.SHDrec 10; TL.SHDwrite (num 0, num 0); TL.SHDwrite (num 1, num 0);
          TL.SHDrec 11; TL.SHDwrite (num 2, num 0); TL.SHDwrite (num 3, num 0);
          TL.SHDrec 12; TL.SHDwrite (num 4, num 0); TL.SHDwrite (num 5, num 0);
          TL.SHDrec 13; TL.SHDwrite (num 6, num 0); TL.SHDwrite (num 7, num 0)]
  /\ Z.of_nat (length field8) = 2 * 2 * 2.
Proof.
  apply (FinalizeTLMode_writes_the_field unit unit (fun _ _ => 2) EvaluateSSPCOnly_flat
           ScalePressure_none (fun _ _ _ _ _ _ _ _ _ => eq_refl) PosTL 2 (num 0) (num 100) tt
           "C" ltac:(ground) ltac:(ground) tt field8 eq_refl eq_refl).
Defined.

(** X15 for the second arrival of a cell of two slots. *)
Lemma AddArr_appends_when_room_witness :
  exists arrinfo',
    Arrivals.AddArr GetFieldAddr_1 0 0 0 (num 2) (num 1) (num 0) (num 5, num 0) (rinit2D 0)
      (num 0) (num 0) 0 0 half_cell Pos1
    = Some arrinfo'
    /\ load (Arrivals.NArr arrinfo') 0 = Some 2
    /\ ArrivalsSpec.slot arrinfo' 0 1
       = Some (Arrivals.new_arrival (num 2) (num 0) (num 5, num 0) (rinit2D 0) (num 0)
                 (num 0) 0 0)
    /\ ArrivalsSpec.slot arrinfo' 0 0 = ArrivalsSpec.slot half_cell 0 0.
Proof.
  destruct (AddArr_appends_when_room GetFieldAddr_1 0 0 0 (num 2) (num 1) (num 0)
              (num 5, num 0) (rinit2D 0) (num 0) (num 0) 0 0 half_cell Pos1 1 1
              eq_refl ltac:(ground) ltac:(ground) eq_refl ltac:(ground)
              (or_intror eq_refl))
    as (arrinfo' & Hrun & HN & Hnew & Hold & _).
  exists arrinfo'. split; [exact Hrun|]. split; [exact HN|]. split; [exact Hnew|].
  apply Hold; ground.
Defined.

(** X16 for the two sources of [Pos1] and the single angle 4. *)
Lemma FieldModesWorker_single_angle_witness :
  Jobs.FieldModesWorker 3 0 Pos1 (Common.mkAngles 3 1 4 (fun _ => num 0) (fun _ => num 0)) []
  = Some (3, [(0, 4); (1, 4)]).
Proof.
  apply (FieldModesWorker_single_angle Pos1
           (Common.mkAngles 3 1 4 (fun _ => num 0) (fun _ => num 0)));
    [discriminate|reflexivity].
Defined.

(** X18 for three calls on the first cell of [atomic_table0]: the two slots
    hold the first two records, the third is dropped, and the other cell is
    as it was. *)
Lemma first_arrivals_are_kept_witness :
  exists arrinfo',
    Arrivals.run_calls GetFieldAddr_1 Pos1 atomic_table0 [call 1 1; call 2 5; call 9 9]
    = Some arrinfo'
    /\ ArrivalsSpec.slot arrinfo' 0 0 = Some (ArrivalsOrder.call_record (call 1 1))
    /\ ArrivalsSpec.slot arrinfo' 0 1 = Some (ArrivalsOrder.call_record (call 2 5))
    /\ ArrivalsSpec.slot arrinfo' 1 0 = ArrivalsSpec.slot atomic_table0 1 0.
Proof.
  destruct (first_arrivals_are_kept GetFieldAddr_1 Pos1 [call 1 1; call 2 5; call 9 9] 2
              atomic_table0 eq_refl ltac:(ground) ltac:(repeat constructor) ltac:(ground))
    as (arrinfo' & Hrun & Hslots).
  - repeat constructor; first [apply Z.leb_le | apply Z.ltb_lt]; reflexivity.
  - exists arrinfo'. split; [exact Hrun|].
    split; [exact (Hslots 0 0 ltac:(lia) ltac:(ground))|].
    split; [exact (Hslots 0 1 ltac:(lia) ltac:(ground))|].
    exact (Hslots 1 0 ltac:(lia) ltac:(ground)).
Defined.

End Instances.
